(** * A multilayer perceptron with manual backpropagation

    Shallow embedding of [nn.py] (neural-networks-fundamentals-with-python).

    Conventions of the embedding.
    - A numpy [float64] entry is a real number: rounding, overflow, underflow
      and [nan] are outside the model. What is proved is what the program
      computes in exact arithmetic; a sign or a strict inequality that
      rounding can undo is stated as such.
    - Every array handled by the engine is either a column vector (shape
      [n x 1], here a [list R]) or a matrix (here its list of rows).
    - A Python exception is a value [Raise e]; a method that may mutate its
      object is a function from the object's state to the new state and an
      outcome, so the state reached when an exception escapes is visible.
    - A layer of a network is referred to by its position in [_layers]; each
      [Layer] object occurs once in that list. *)

From Stdlib Require Import String.
From Stdlib Require Import Reals Lra Lia List ZArith Bool.
Import ListNotations.

Open Scope R_scope.

(** ** Exceptions *)

Inductive exn : Type :=
| ValueError (msg : string)
| IndexError (msg : string).

Inductive result (A : Type) : Type :=
| Ok (a : A)
| Raise (e : exn).

Arguments Ok {A} a.
Arguments Raise {A} e.

Definition rbind {A B : Type} (r : result A) (k : A -> result B) : result B :=
  match r with
  | Ok a => k a
  | Raise e => Raise e
  end.

Declare Scope result_scope.
Delimit Scope result_scope with result.
Notation "'let?' x ':=' r 'in' k" := (rbind r (fun x => k))
  (at level 10, x name, r at level 100, k at level 200) : result_scope.

(** ** Arrays *)

Definition vec : Type := list R.
Definition mat : Type := list (list R).

(** A comparison yields a boolean, which arithmetic reads as 0 or 1. *)
Definition of_bool (b : bool) : R := if b then 1 else 0.
Definition Rgtb (x y : R) : bool := if Rlt_dec y x then true else false.
Definition Rltb (x y : R) : bool := if Rlt_dec x y then true else false.
Definition Rgeb (x y : R) : bool := if Rle_dec y x then true else false.

Fixpoint zip_with (op : R -> R -> R) (u v : vec) : vec :=
  match u, v with
  | a :: u', b :: v' => op a b :: zip_with op u' v'
  | _, _ => []
  end.

(** Shape of a matrix; every row of an array has the same length. *)
Definition nrows (M : mat) : nat := length M.
Definition ncols (M : mat) : nat := length (hd [] M).

(** Elementwise binary operation on two column vectors, with numpy's
    broadcasting: equal lengths, or one operand of length one. *)
Definition broadcast (op : R -> R -> R) (u v : vec) : result vec :=
  if Nat.eqb (length u) (length v) then Ok (zip_with op u v)
  else if Nat.eqb (length u) 1 then Ok (map (op (hd 0 u)) v)
  else if Nat.eqb (length v) 1 then Ok (map (fun a => op a (hd 0 v)) u)
  else Raise (ValueError "operands could not be broadcast together").

(** In-place [u -= v] on column vectors: the result must have [u]'s shape. *)
Definition isub (u v : vec) : result vec :=
  if Nat.eqb (length v) (length u) then Ok (zip_with Rminus u v)
  else if Nat.eqb (length v) 1 then Ok (map (fun a => a - hd 0 v) u)
  else Raise (ValueError "non-broadcastable output operand").

(** In-place [A -= B] on matrices of one shape. In [train], [A] is a weight
    matrix (at least one row and one column) and the two calls of [np.dot]
    that precede the update have already forced [B] to have the shape of
    [A], so no other case is reached there. *)
Definition isub_mat (A B : mat) : result mat :=
  if Nat.eqb (nrows B) (nrows A) && Nat.eqb (ncols B) (ncols A)
  then Ok (map (fun p => zip_with Rminus (fst p) (snd p)) (combine A B))
  else Raise (ValueError "non-broadcastable output operand").

Definition scale (c : R) (v : vec) : vec := map (Rmult c) v.
Definition scale_mat (c : R) (M : mat) : mat := map (scale c) M.

(** Python indexing of an axis of length [n]: negative indices count from
    the end. *)
Definition py_index (n : nat) (i : Z) : result nat :=
  if ((0 <=? i) && (i <? Z.of_nat n))%Z then Ok (Z.to_nat i)
  else if ((- Z.of_nat n <=? i) && (i <? 0))%Z then Ok (Z.to_nat (i + Z.of_nat n))
  else Raise (IndexError "index is out of bounds for axis 0").

Fixpoint set_nth {A : Type} (k : nat) (a : A) (l : list A) : list A :=
  match l, k with
  | [], _ => []
  | _ :: l', O => a :: l'
  | b :: l', S k' => b :: set_nth k' a l'
  end.

Module np.
Definition sum (v : vec) : R := fold_right Rplus 0 v.

Definition exp (v : vec) : vec := map Rtrigo_def.exp v.

Definition ones (n : nat) : vec := repeat 1 n.

(** [np.mean] of a non-empty array. *)
Definition mean (v : vec) : R := sum v / INR (length v).

Definition inner (u v : vec) : R := sum (zip_with Rmult u v).

(** [np.dot(M, v)] for a matrix and a column vector. *)
Definition dot (M : mat) (v : vec) : result vec :=
  if Nat.eqb (ncols M) (length v) then Ok (map (fun row => inner row v) M)
  else Raise (ValueError "shapes not aligned").

(** [M.T] *)
Definition T (M : mat) : mat :=
  map (fun j => map (fun row => nth j row 0) M) (seq 0 (ncols M)).

(** [np.dot(u, v.T)] for two column vectors: the inner dimension is 1. *)
Definition dot_T (u v : vec) : mat :=
  map (fun a => map (fun b => a * b) v) u.
End np.

(** ** Activation functions *)

Module Id.
Definition f (x : vec) : vec := x.
Definition df (x : vec) : vec := np.ones (length x).
End Id.

Module ELU.
Record t : Type := __init__ { alpha : R }.

Definition default : t := __init__ (1 / 10).

Definition f (self : t) (x : vec) : vec :=
  let out := map (fun xi => alpha self * (exp xi - 1)) x in
  zip_with (fun xi oi => if Rgtb xi 0 then xi else oi) x out.

Definition df (self : t) (x : vec) : vec :=
  map (fun xi =>
         Rmax (of_bool (Rgeb xi 0))
              (alpha self * of_bool (Rltb xi 0) * exp xi)) x.
End ELU.

Module LeakyReLU.
Record t : Type := __init__ { alpha : R }.

Definition default : t := __init__ (1 / 10).

Definition f (self : t) (x : vec) : vec :=
  map (fun xi => Rmax xi (xi * alpha self)) x.

Definition df (self : t) (x : vec) : vec :=
  map (fun xi => Rmax (of_bool (Rgtb xi 0)) (alpha self)) x.
End LeakyReLU.

Module ReLU.
Definition __init__ : LeakyReLU.t := LeakyReLU.__init__ 0.
End ReLU.

Module Sigmoid.
Definition f (x : vec) : vec := map (fun xi => 1 / (1 + exp (- xi))) x.
Definition df (x : vec) : vec :=
  zip_with (fun a b => a * (1 - b)) (f x) (f x).
End Sigmoid.

Module Tanh.
Definition f (x : vec) : vec := map tanh x.
Definition df (x : vec) : vec := map (fun a => 1 - a ^ 2) (f x).
End Tanh.

Module ArcTan.
Definition f (x : vec) : vec := map atan x.
Definition df (x : vec) : vec := map (fun xi => 1 / (1 + xi ^ 2)) x.
End ArcTan.

(** The classes deriving from [ActivationFunction], and the dispatch of its
    two methods. *)
Module ActivationFunction.
Inductive t : Type :=
| Id
| ELU (self : ELU.t)
| LeakyReLU (self : LeakyReLU.t)
| Sigmoid
| Tanh
| ArcTan.

Definition f (self : t) (x : vec) : vec :=
  match self with
  | Id => Id.f x
  | ELU a => ELU.f a x
  | LeakyReLU a => LeakyReLU.f a x
  | Sigmoid => Sigmoid.f x
  | Tanh => Tanh.f x
  | ArcTan => ArcTan.f x
  end.

Definition df (self : t) (x : vec) : vec :=
  match self with
  | Id => Id.df x
  | ELU a => ELU.df a x
  | LeakyReLU a => LeakyReLU.df a x
  | Sigmoid => Sigmoid.df x
  | Tanh => Tanh.df x
  | ArcTan => ArcTan.df x
  end.
End ActivationFunction.

(** ** Loss functions *)

(** The [expected] argument: a column vector (mean squared error) or an
    integer, the class index (cross entropy). *)
Inductive target : Type :=
| TVec (v : vec)
| TInt (i : Z).

Definition math_log (x : R) : result R :=
  if Rlt_dec 0 x then Ok (ln x) else Raise (ValueError "math domain error").

Module MSELoss.
(** [values - expected]; an integer is broadcast over the array. *)
Definition diff (values : vec) (expected : target) : result vec :=
  match expected with
  | TVec e => broadcast Rminus values e
  | TInt i => Ok (map (fun v => v - IZR i) values)
  end.

Definition loss (values : vec) (expected : target) : result R :=
  (let? d := diff values expected in
   Ok (np.mean (map (fun a => a ^ 2) d)))%result.

Definition dloss (values : vec) (expected : target) : result vec :=
  (let? d := diff values expected in
   Ok (map (fun a => 2 * a / INR (length values)) d))%result.
End MSELoss.

Module CrossEntropyLoss.
(** [values[expected, 0]]: only an integer indexes a float array. *)
Definition index (values : vec) (expected : target) : result nat :=
  match expected with
  | TInt i => py_index (length values) i
  | TVec _ => Raise (IndexError "arrays used as indices must be of integer type")
  end.

Definition loss (values : vec) (expected : target) : result R :=
  (let? k := index values expected in
   let? l := math_log (np.sum (np.exp values)) in
   Ok (- nth k values 0 + l))%result.

Definition dloss (values : vec) (expected : target) : result vec :=
  let s := np.sum (np.exp values) in
  let d := map (fun e => e / s) (np.exp values) in
  (let? k := index d expected in
   Ok (set_nth k (nth k d 0 - 1) d))%result.
End CrossEntropyLoss.

Module LossFunction.
Inductive t : Type :=
| MSELoss
| CrossEntropyLoss.

Definition loss (self : t) (values : vec) (expected : target) : result R :=
  match self with
  | MSELoss => MSELoss.loss values expected
  | CrossEntropyLoss => CrossEntropyLoss.loss values expected
  end.

Definition dloss (self : t) (values : vec) (expected : target) : result vec :=
  match self with
  | MSELoss => MSELoss.dloss values expected
  | CrossEntropyLoss => CrossEntropyLoss.dloss values expected
  end.
End LossFunction.

(** ** Methods

    A method of an object with state [S] returning an [A]: it yields the
    state it leaves the object in and either a value or an exception. *)

Definition method (S A : Type) : Type := S -> S * result A.

Definition ret {S A : Type} (a : A) : method S A := fun s => (s, Ok a).

Definition bind {S A B : Type} (m : method S A) (k : A -> method S B)
  : method S B :=
  fun s =>
    match m s with
    | (s', Ok a) => k a s'
    | (s', Raise e) => (s', Raise e)
    end.

(** Reading an attribute, assigning one, and evaluating an expression that
    touches no attribute. *)
Definition attr {S A : Type} (proj : S -> A) : method S A :=
  fun s => (s, Ok (proj s)).
Definition assign {S : Type} (upd : S -> S) : method S unit :=
  fun s => (upd s, Ok tt).
Definition eval {S A : Type} (r : result A) : method S A :=
  fun s => (s, r).

Declare Scope method_scope.
Delimit Scope method_scope with method.
Notation "x <- m ;; k" := (bind m (fun x => k))
  (at level 61, m at next level, right associativity) : method_scope.
Notation "m ;;; k" := (bind m (fun _ => k))
  (at level 61, right associativity) : method_scope.

(** [for a in l: acc = body(acc, a)], the loop's local variables in [acc]. *)
Fixpoint for_each {S A B : Type} (l : list A) (body : B -> A -> method S B)
  (acc : B) : method S B :=
  match l with
  | [] => ret acc
  | a :: l' => bind (body acc a) (for_each l' body)
  end.

(** ** Layer *)

Module Layer.
Record t : Type := mk {
  ins : Z;
  outs : Z;
  act_function : ActivationFunction.t;
  _W : mat;
  _b : vec
}.

Definition set_W (W : mat) (self : t) : t :=
  mk (ins self) (outs self) (act_function self) W (_b self).
Definition set_b (b : vec) (self : t) : t :=
  mk (ins self) (outs self) (act_function self) (_W self) b.

(** What [__init__] establishes: [create_weight_matrix(outs, ins)] draws
    [_W] with shape [(outs, ins)] and [create_bias_vector(outs)] draws [_b]
    with shape [(outs, 1)]; both divide by the number of entries, so neither
    width is zero. The values drawn are arbitrary. *)
Definition initialised (self : t) : Prop :=
  (0 < ins self)%Z /\ (0 < outs self)%Z /\
  Z.of_nat (nrows (_W self)) = outs self /\
  Forall (fun row => Z.of_nat (length row) = ins self) (_W self) /\
  Z.of_nat (length (_b self)) = outs self.

Definition forward_pass (x : vec) : method t vec :=
  (W <- attr _W ;;
   d <- eval (np.dot W x) ;;
   b <- attr _b ;;
   y <- eval (broadcast Rplus d b) ;;
   a <- attr act_function ;;
   ret (ActivationFunction.f a y))%method.
End Layer.

(** ** NeuralNetwork *)

Module NeuralNetwork.
Record t : Type := mk {
  _layers : list Layer.t;
  _loss_function : LossFunction.t;
  lr : R
}.

Definition set_layers (ls : list Layer.t) (self : t) : t :=
  mk ls (_loss_function self) (lr self).

(** The loop of [__init__] over [zip(layers[:-1], layers[1:])]. *)
Fixpoint check_compat (pairs : list (Layer.t * Layer.t)) : result unit :=
  match pairs with
  | [] => Ok tt
  | (from_, to_) :: rest =>
      if negb (Z.eqb (Layer.outs from_) (Layer.ins to_))
      then Raise (ValueError "Layers should have compatible shapes.")
      else check_compat rest
  end.

Definition __init__ (layers : list Layer.t) (loss_function : LossFunction.t)
  (learning_rate : R) : result t :=
  (let? _ := check_compat (combine (removelast layers) (tl layers)) in
   Ok (mk layers loss_function learning_rate))%result.

(** A method call on the [k]-th layer of the network. *)
Definition on_layer {A : Type} (k : nat) (m : method Layer.t A) : method t A :=
  fun self =>
    match nth_error (_layers self) k with
    | Some layer =>
        let (layer', r) := m layer in
        (set_layers (set_nth k layer' (_layers self)) self, r)
    | None => (self, Raise (IndexError "list index out of range"))
    end.

(** The layers of the network, as the loops enumerate them. *)
Definition layer_refs : method t (list nat) :=
  attr (fun self => seq 0 (length (_layers self))).

Definition forward_pass (x : vec) : method t vec :=
  (layers <- layer_refs ;;
   for_each layers (fun out layer => on_layer layer (Layer.forward_pass out)) x
  )%method.

Definition loss (values : vec) (expected : target) : method t R :=
  (lf <- attr _loss_function ;;
   eval (LossFunction.loss lf values expected))%method.

(** One iteration of the backward loop of [train]; [dx] is the loop's local
    variable. *)
Definition backward_step (dx : vec) (it : nat * vec) : method t vec :=
  let (layer, x) := it in
  (W <- on_layer layer (attr Layer._W) ;;
   d <- eval (np.dot W x) ;;
   b <- on_layer layer (attr Layer._b) ;;
   y <- eval (broadcast Rplus d b) ;;
   a <- on_layer layer (attr Layer.act_function) ;;
   db <- eval (broadcast Rmult (ActivationFunction.df a y) dx) ;;
   W <- on_layer layer (attr Layer._W) ;;
   dx <- eval (np.dot (np.T W) db) ;;
   let dW := np.dot_T db x in
   W <- on_layer layer (attr Layer._W) ;;
   rate <- attr lr ;;
   W' <- eval (isub_mat W (scale_mat rate dW)) ;;
   on_layer layer (assign (Layer.set_W W')) ;;;
   b <- on_layer layer (attr Layer._b) ;;
   rate <- attr lr ;;
   b' <- eval (isub b (scale rate db)) ;;
   on_layer layer (assign (Layer.set_b b')) ;;;
   ret dx)%method.

Definition train (x : vec) (expected : target) : method t unit :=
  (layers <- layer_refs ;;
   xs <- for_each layers
           (fun xs layer =>
              out <- on_layer layer (Layer.forward_pass (last xs [])) ;;
              ret (xs ++ [out]))
           [x] ;;
   let final := last xs [] in
   let xs := removelast xs in
   lf <- attr _loss_function ;;
   dx <- eval (LossFunction.dloss lf final expected) ;;
   for_each (combine (rev layers) (rev xs)) backward_step dx ;;;
   ret tt)%method.
End NeuralNetwork.

(** ** Scripts

    The code around the engine raises one more exception, and has effects
    other than on a network: it draws random numbers and prints. A script
    on a state [S] is to this code what a method is to an object. *)

Inductive py_exn : Type :=
| Engine (e : exn)
| ZeroDivisionError (msg : string).

Inductive outcome (A : Type) : Type :=
| Return (a : A)
| Throw (e : py_exn).

Arguments Return {A} a.
Arguments Throw {A} e.

Definition script (S A : Type) : Type := S -> S * outcome A.

Definition sret {S A : Type} (a : A) : script S A := fun s => (s, Return a).

Definition sbind {S A B : Type} (m : script S A) (k : A -> script S B)
  : script S B :=
  fun s =>
    match m s with
    | (s', Return a) => k a s'
    | (s', Throw e) => (s', Throw e)
    end.

Definition lift {S A : Type} (r : outcome A) : script S A := fun s => (s, r).

Declare Scope script_scope.
Delimit Scope script_scope with script.
Notation "x <~ m ;; k" := (sbind m (fun x => k))
  (at level 61, m at next level, right associativity) : script_scope.
Notation "m ;;~ k" := (sbind m (fun _ => k))
  (at level 61, right associativity) : script_scope.

(** [for i, a in enumerate(l): acc = body(acc, i, a)], counting from [i]. *)
Fixpoint for_enumerate {S A B : Type} (i : nat) (l : list A)
  (body : B -> nat -> A -> script S B) (acc : B) : script S B :=
  match l with
  | [] => sret acc
  | a :: l' => sbind (body acc i a) (for_enumerate (Datatypes.S i) l' body)
  end.

(** [a / b] on Python integers. *)
Definition py_div (a b : Z) : outcome R :=
  if Z.eqb b 0 then Throw (ZeroDivisionError "division by zero")
  else Return (IZR a / IZR b).

(** ** Construction of a layer *)

Section Random.

(** The state of numpy's generator, and what
    [np.random.normal(loc=0, scale=scale, size=(rows, cols))] draws from it
    when [scale] and the sizes are not negative. *)
Variable rng : Type.
Variable normal : R -> nat -> nat -> rng -> rng * mat.

Definition np_random_normal (scale : R) (rows cols : Z) : script rng mat :=
  fun g =>
    if Rlt_dec scale 0 then (g, Throw (Engine (ValueError "scale < 0")))
    else if (rows <? 0)%Z || (cols <? 0)%Z
    then (g, Throw (Engine
                      (ValueError "negative dimensions are not allowed")))
    else let (g', a) := normal scale (Z.to_nat rows) (Z.to_nat cols) g in
         (g', Return a).

Definition create_weight_matrix (nrows ncols : Z) : script rng mat :=
  (scale <~ lift (py_div 1 (nrows * ncols)) ;;
   np_random_normal scale nrows ncols)%script.

(** The array drawn has shape [(length, 1)]: the column vector of its
    entries. *)
Definition create_bias_vector (length : Z) : script rng vec :=
  (scale <~ lift (py_div 1 length) ;;
   a <~ np_random_normal scale length 1 ;;
   sret (map (fun row => hd 0 row) a))%script.

Definition Layer__init__ (ins outs : Z) (act_function : ActivationFunction.t)
  : script rng Layer.t :=
  (W <~ create_weight_matrix outs ins ;;
   b <~ create_bias_vector outs ;;
   sret (Layer.mk ins outs act_function W b))%script.

End Random.

(** ** mnist.py *)

Module mnist.
(** What the functions of [mnist.py] act on: the network they are given
    and the numbers printed so far. *)
Record world : Type := mk {
  net : NeuralNetwork.t;
  stdout : list Z
}.

Definition print (i : Z) : script world unit :=
  fun w => (mk (net w) (stdout w ++ [i]), Return tt).

(** A call of a method of the network. *)
Definition on_net {A : Type} (m : method NeuralNetwork.t A)
  : script world A :=
  fun w =>
    let (net', r) := m (net w) in
    (mk net' (stdout w),
     match r with
     | Ok a => Return a
     | Raise e => Throw (Engine e)
     end).

(** [if not i%1000: print(i)] *)
Definition progress (i : nat) : script world unit :=
  if Nat.eqb (i mod 1000) 0 then print (Z.of_nat i) else sret tt.

(** A row of the data set, of integers; [row[0]] and
    [to_col(row[1:])]. *)
Definition label (row : list Z) : outcome Z :=
  match row with
  | [] =>
      Throw (Engine
               (IndexError "index 0 is out of bounds for axis 0 with size 0"))
  | t :: _ => Return t
  end.

Definition to_col (v : list Z) : vec := map IZR v.

(** [np.argmax]: the first index of the largest entry. *)
Fixpoint argmax_from (best : nat) (top : R) (i : nat) (l : vec) : nat :=
  match l with
  | [] => best
  | a :: l' =>
      if Rlt_dec top a then argmax_from i a (S i) l'
      else argmax_from best top (S i) l'
  end.

Definition argmax (out : vec) : outcome nat :=
  match out with
  | [] =>
      Throw (Engine
               (ValueError "attempt to get argmax of an empty sequence"))
  | a :: l => Return (argmax_from 0 a 1 l)
  end.

Definition test (test_data : list (list Z)) : script world R :=
  (correct <~ for_enumerate 0 test_data
     (fun correct i test_row =>
        progress i ;;~
        t <~ lift (label test_row) ;;
        let x := to_col (tl test_row) in
        out <~ on_net (NeuralNetwork.forward_pass x) ;;
        guess <~ lift (argmax out) ;;
        sret (if Z.eqb t (Z.of_nat guess) then S correct else correct))
     0%nat ;;
   lift (py_div (Z.of_nat correct) (Z.of_nat (length test_data))))%script.

Definition train (train_data : list (list Z)) : script world unit :=
  (for_enumerate 0 train_data
     (fun _ i train_row =>
        progress i ;;~
        t <~ lift (label train_row) ;;
        let x := to_col (tl train_row) in
        on_net (NeuralNetwork.train x (TInt t)))
     tt)%script.
End mnist.

(** * Specification

    The notions in which the properties of the engine are stated. *)

(** The leaky rectifier as the specification words it. *)
Definition LeakyReLU_f_spec (a : R) (x : vec) : vec :=
  map (fun xi => Rmax xi (a * xi)) x.
Definition LeakyReLU_df_spec (a : R) (x : vec) : vec :=
  map (fun xi => if Rlt_dec 0 xi then 1 else a) x.

(** The exponential linear unit as the specification words it. *)
Definition ELU_f_spec (a : R) (x : vec) : vec :=
  map (fun xi => if Rlt_dec 0 xi then xi else a * (exp xi - 1)) x.
Definition ELU_df_spec (a : R) (x : vec) : vec :=
  map (fun xi => if Rle_dec 0 xi then 1 else a * exp xi) x.

(** The softmax of a vector of logits. *)
Definition softmax (v : vec) : vec :=
  map (fun x => exp x / np.sum (map exp v)) v.

(** The entry that a valid Python index [t] designates. *)
Definition entry (v : vec) (t : Z) : nat :=
  Z.to_nat (t mod Z.of_nat (length v)).

(** The targets a loss function is meant for: a vector of the shape of the
    (non-empty) output for the mean squared error, a valid class index for
    the cross entropy. *)
Definition admissible (lf : LossFunction.t) (values : vec) (expected : target)
  : Prop :=
  match lf, expected with
  | LossFunction.MSELoss, TVec e => length e = length values /\ values <> []
  | LossFunction.CrossEntropyLoss, TInt i =>
      (- Z.of_nat (length values) <= i < Z.of_nat (length values))%Z
  | _, _ => False
  end.

(** Some layer is followed by one whose input width is not its output
    width. *)
Definition adjacent_mismatch (layers : list Layer.t) : Prop :=
  exists i from_ to_,
    nth_error layers i = Some from_ /\
    nth_error layers (S i) = Some to_ /\
    Layer.outs from_ <> Layer.ins to_.

Definition incompatible : exn :=
  ValueError "Layers should have compatible shapes.".

(** [W . x], and the pre-activation [W . x + b] of a layer. *)
Definition matvec (W : mat) (x : vec) : vec :=
  map (fun row => np.inner row x) W.
Definition affine (self : Layer.t) (x : vec) : vec :=
  zip_with Rplus (matvec (Layer._W self) x) (Layer._b self).
Definition activation (self : Layer.t) (x : vec) : vec :=
  ActivationFunction.f (Layer.act_function self) (affine self x).

(** Sequential composition: the output of a layer is the input of the
    next. *)
Fixpoint feed (layers : list Layer.t) (x : vec) : result vec :=
  match layers with
  | [] => Ok x
  | layer :: rest => rbind (snd (Layer.forward_pass x layer)) (feed rest)
  end.

(** [A - B] on matrices of one shape. *)
Definition msub (A B : mat) : mat :=
  map (fun p => zip_with Rminus (fst p) (snd p)) (combine A B).

(** The update of one layer from its recorded input [x] and the gradient
    [dx] of the loss with respect to its output: the updated layer and the
    gradient with respect to its input, computed from the weights before
    the update. *)
Definition descend (rate : R) (self : Layer.t) (x dx : vec)
  : Layer.t * vec :=
  let y := affine self x in
  let db := zip_with Rmult
              (ActivationFunction.df (Layer.act_function self) y) dx in
  let dW := np.dot_T db x in
  (Layer.mk (Layer.ins self) (Layer.outs self) (Layer.act_function self)
     (msub (Layer._W self) (scale_mat rate dW))
     (zip_with Rminus (Layer._b self) (scale rate db)),
   matvec (np.T (Layer._W self)) db).

(** One gradient-descent update of a stack of layers fed with [x], the
    gradient [g] of the loss being taken at the output of the last layer:
    the updated layers and the gradient with respect to [x]. *)
Fixpoint backprop (rate : R) (g : vec) (layers : list Layer.t) (x : vec)
  : list Layer.t * vec :=
  match layers with
  | [] => ([], g)
  | layer :: rest =>
      let (rest', dx) := backprop rate g rest (activation layer x) in
      let (layer', dx') := descend rate layer x dx in
      (layer' :: rest', dx')
  end.

(** The output of the last layer, the input of each layer, and the output
    of each layer, when the first layer is fed with [x]. *)
Fixpoint output (layers : list Layer.t) (x : vec) : vec :=
  match layers with
  | [] => x
  | layer :: rest => output rest (activation layer x)
  end.

Fixpoint inputs (layers : list Layer.t) (x : vec) : list vec :=
  match layers with
  | [] => []
  | layer :: rest => x :: inputs rest (activation layer x)
  end.

Fixpoint activations (layers : list Layer.t) (x : vec) : list vec :=
  match layers with
  | [] => []
  | layer :: rest =>
      activation layer x :: activations rest (activation layer x)
  end.

(** A stack of initialised layers that takes inputs of width [n], each
    layer taking what the one before it yields. *)
Fixpoint fits (n : Z) (layers : list Layer.t) : Prop :=
  match layers with
  | [] => True
  | layer :: rest =>
      Layer.initialised layer /\ Layer.ins layer = n /\
      fits (Layer.outs layer) rest
  end.

(** The specification's scenario: [Layer(2, 2, Id)] with the identity
    matrix, then [Layer(2, 1, Id)] with weights [[1, 1]], no bias, the mean
    squared error and learning rate 0.1. *)
Definition two_layers : NeuralNetwork.t :=
  NeuralNetwork.mk
    [Layer.mk 2 2 ActivationFunction.Id [[1; 0]; [0; 1]] [0; 0];
     Layer.mk 2 1 ActivationFunction.Id [[1; 1]] [0]]
    LossFunction.MSELoss (1 / 10).

(** A layer of one neuron, on which a training step changes the
    parameters. *)
Definition one_neuron : NeuralNetwork.t :=
  NeuralNetwork.mk [Layer.mk 1 1 ActivationFunction.Id [[0]] [0]]
    LossFunction.MSELoss 1.

(** What [f] and [df] compute on one entry. *)
Definition f1 (a : ActivationFunction.t) (u : R) : R :=
  match a with
  | ActivationFunction.Id => u
  | ActivationFunction.ELU e =>
      if Rgtb u 0 then u else ELU.alpha e * (exp u - 1)
  | ActivationFunction.LeakyReLU e => Rmax u (u * LeakyReLU.alpha e)
  | ActivationFunction.Sigmoid => 1 / (1 + exp (- u))
  | ActivationFunction.Tanh => tanh u
  | ActivationFunction.ArcTan => atan u
  end.

Definition df1 (a : ActivationFunction.t) (u : R) : R :=
  match a with
  | ActivationFunction.Id => 1
  | ActivationFunction.ELU e =>
      Rmax (of_bool (Rgeb u 0)) (ELU.alpha e * of_bool (Rltb u 0) * exp u)
  | ActivationFunction.LeakyReLU e =>
      Rmax (of_bool (Rgtb u 0)) (LeakyReLU.alpha e)
  | ActivationFunction.Sigmoid =>
      1 / (1 + exp (- u)) * (1 - 1 / (1 + exp (- u)))
  | ActivationFunction.Tanh => 1 - tanh u ^ 2
  | ActivationFunction.ArcTan => 1 / (1 + u ^ 2)
  end.

(** An activation that is strictly increasing and whose [df] is positive
    everywhere. *)
Definition increasing (a : ActivationFunction.t) : Prop :=
  (forall u v, u < v -> f1 a u < f1 a v) /\ (forall u, 0 < df1 a u).

(** The activations of the source that are so: all of them, the two with a
    parameter when it is positive. *)
Definition positive_slope (a : ActivationFunction.t) : Prop :=
  match a with
  | ActivationFunction.ELU e => 0 < ELU.alpha e
  | ActivationFunction.LeakyReLU e => 0 < LeakyReLU.alpha e
  | _ => True
  end.

(** [n] calls of [train(x, t)] in a row. *)
Fixpoint repeat_train (n : nat) (x : vec) (expected : target)
  : method NeuralNetwork.t unit :=
  match n with
  | O => ret tt
  | S n' =>
      (NeuralNetwork.train x expected ;;; repeat_train n' x expected)%method
  end.

(** [loss(forward_pass(x), t)] *)
Definition measured_loss (x : vec) (expected : target)
  : method NeuralNetwork.t R :=
  (out <- NeuralNetwork.forward_pass x ;;
   NeuralNetwork.loss out expected)%method.

(** The loss measured after [n] calls of [train(x, t)]. *)
Definition loss_after (n : nat) (net : NeuralNetwork.t) (x : vec)
  (expected : target) : result R :=
  snd ((repeat_train n x expected ;;; measured_loss x expected)%method net).

(** The measured losses decrease strictly from each call to the next. *)
Definition strictly_decreasing (net : NeuralNetwork.t) (x : vec)
  (expected : target) : Prop :=
  forall n, exists a b,
    loss_after n net x expected = Ok a /\
    loss_after (S n) net x expected = Ok b /\ b < a.

(** After [n] calls the measured loss is below the initial one. *)
Definition smaller_after (n : nat) (net : NeuralNetwork.t) (x : vec)
  (expected : target) : Prop :=
  exists a b,
    loss_after 0 net x expected = Ok a /\
    loss_after n net x expected = Ok b /\ b < a.


(** Two layers without nonlinearity and a large learning rate. *)
Definition overshoot : NeuralNetwork.t :=
  NeuralNetwork.mk
    [Layer.mk 1 1 ActivationFunction.Id [[1]] [0];
     Layer.mk 1 2 ActivationFunction.Id [[-1]; [1]] [1; -1]]
    LossFunction.CrossEntropyLoss 4.

(** The outputs of the layers in turn, as the forward sweep records them:
    the first exception ends the sweep. *)
Fixpoint trace (layers : list Layer.t) (x : vec) : result (list vec) :=
  match layers with
  | [] => Ok []
  | layer :: rest =>
      (let? out := snd (Layer.forward_pass x layer) in
       let? outs := trace rest out in
       Ok (out :: outs))%result
  end.

(** The layers of a network are initialised and adjacent ones agree. *)
Definition well_formed (net : NeuralNetwork.t) : Prop :=
  Forall Layer.initialised (NeuralNetwork._layers net) /\
  ~ adjacent_mismatch (NeuralNetwork._layers net).

(** The input has the width that the first layer, if any, takes. *)
Definition accepts (net : NeuralNetwork.t) (x : vec) : Prop :=
  forall first, hd_error (NeuralNetwork._layers net) = Some first ->
                Layer.ins first = Z.of_nat (length x).

(** Two networks of the same widths, activations, loss function and
    learning rate. *)
Definition same_architecture (net net' : NeuralNetwork.t) : Prop :=
  map Layer.ins (NeuralNetwork._layers net')
  = map Layer.ins (NeuralNetwork._layers net) /\
  map Layer.outs (NeuralNetwork._layers net')
  = map Layer.outs (NeuralNetwork._layers net) /\
  map Layer.act_function (NeuralNetwork._layers net')
  = map Layer.act_function (NeuralNetwork._layers net) /\
  NeuralNetwork._loss_function net' = NeuralNetwork._loss_function net /\
  NeuralNetwork.lr net' = NeuralNetwork.lr net.

(** numpy draws an array of the shape it is asked for. *)
Definition draws_shape {rng : Type}
  (normal : R -> nat -> nat -> rng -> rng * mat) : Prop :=
  forall scale rows cols g,
    length (snd (normal scale rows cols g)) = rows /\
    Forall (fun row => length row = cols) (snd (normal scale rows cols g)).

(** The indices that [progress] prints among [n] of them from [i] on. *)
Definition ticks (i n : nat) : list Z :=
  map Z.of_nat (filter (fun j => Nat.eqb (j mod 1000) 0) (seq i n)).

(** A row whose features the network accepts. *)
Definition valid_row (net : NeuralNetwork.t) (row : list Z) : Prop :=
  (1 < length row)%nat /\
  (forall first, hd_error (NeuralNetwork._layers net) = Some first ->
                 Layer.ins first = Z.of_nat (length (tl row))).

(** The row is classified as it is labelled. *)
Definition hit (net : NeuralNetwork.t) (row : list Z) : bool :=
  match mnist.argmax
          (output (NeuralNetwork._layers net) (mnist.to_col (tl row))) with
  | Return guess => Z.eqb (hd 0%Z row) (Z.of_nat guess)
  | Throw _ => false
  end.

(** A row that the network accepts and whose label is a class of the
    output. *)
Definition valid_example (net : NeuralNetwork.t) (row : list Z) : Prop :=
  valid_row net row /\
  (- Z.of_nat (length (output (NeuralNetwork._layers net)
                         (mnist.to_col (tl row))))
   <= hd 0%Z row
   < Z.of_nat (length (output (NeuralNetwork._layers net)
                         (mnist.to_col (tl row)))))%Z.

(** The network after [train(x, t)] on each row in turn. *)
Definition trained (net : NeuralNetwork.t) (data : list (list Z))
  : NeuralNetwork.t :=
  fold_left
    (fun net row =>
       fst (NeuralNetwork.train (mnist.to_col (tl row))
              (TInt (hd 0%Z row)) net))
    data net.

(** A script that leaves the network of the world as it is. *)
Definition keeps_net {A : Type} (m : script mnist.world A) : Prop :=
  forall w, mnist.net (fst (m w)) = mnist.net w.

(** Where [df] is the derivative of [f]: everywhere for the activations
    without a parameter; away from 0, and for [alpha >= 0], for [ELU];
    away from 0, and for [0 <= alpha <= 1], for [LeakyReLU]. *)
Definition differentiable_at (a : ActivationFunction.t) (u : R) : Prop :=
  match a with
  | ActivationFunction.ELU e => 0 <= ELU.alpha e /\ u <> 0
  | ActivationFunction.LeakyReLU e =>
      0 <= LeakyReLU.alpha e <= 1 /\ u <> 0
  | _ => True
  end.

(** The value of the loss, where it is defined, and the loss as a function
    of entry [i] of the output. *)
Definition loss_of (lf : LossFunction.t) (values : vec) (expected : target)
  : R :=
  match LossFunction.loss lf values expected with
  | Ok l => l
  | Raise _ => 0
  end.

Definition loss_along (lf : LossFunction.t) (values : vec)
  (expected : target) (i : nat) (u : R) : R :=
  loss_of lf (set_nth i u values) expected.

(** The weight in row [r] and column [c] of a layer, its bias in row [r],
    and the layer with one of them replaced. *)
Definition weight (r c : nat) (self : Layer.t) : R :=
  nth c (nth r (Layer._W self) []) 0.
Definition bias (r : nat) (self : Layer.t) : R := nth r (Layer._b self) 0.
Definition set_weight (r c : nat) (u : R) (self : Layer.t) : Layer.t :=
  Layer.set_W
    (set_nth r (set_nth c u (nth r (Layer._W self) [])) (Layer._W self))
    self.
Definition set_bias (r : nat) (u : R) (self : Layer.t) : Layer.t :=
  Layer.set_b (set_nth r u (Layer._b self)) self.

(** The network with its [k]-th layer changed by [h]. *)
Definition update_layer (k : nat) (h : Layer.t -> Layer.t)
  (net : NeuralNetwork.t) : NeuralNetwork.t :=
  match nth_error (NeuralNetwork._layers net) k with
  | Some layer =>
      NeuralNetwork.set_layers
        (set_nth k (h layer) (NeuralNetwork._layers net)) net
  | None => net
  end.

(** The loss that the network measures on an example. *)
Definition loss_at (net : NeuralNetwork.t) (x : vec) (expected : target)
  : R :=
  match snd (measured_loss x expected net) with
  | Ok l => l
  | Raise _ => 0
  end.

(** Every activation of the network is differentiable where the network
    fed with [x] evaluates it, with [df] as its derivative: an [ELU] has
    [alpha >= 0], a [LeakyReLU] has [0 <= alpha <= 1], and no
    pre-activation of such a layer is 0. *)
Fixpoint smooth (layers : list Layer.t) (x : vec) : Prop :=
  match layers with
  | [] => True
  | layer :: rest =>
      Forall (differentiable_at (Layer.act_function layer))
        (affine layer x) /\
      smooth rest (activation layer x)
  end.

(** A curve of vectors of length [n] and its velocity [d] at [x0]. *)
Definition tangent (n : nat) (c : R -> vec) (x0 : R) (d : vec) : Prop :=
  (forall u, length (c u) = n) /\ length d = n /\
  forall i, (i < n)%nat ->
            derivable_pt_lim (fun u => nth i (c u) 0) x0 (nth i d 0).

(** The layers that differ from [self] in one parameter of row [r] only,
    which enters the pre-activation with the factor [s]. *)
Definition perturbs (self : Layer.t) (x : vec) (r : nat) (p0 s : R)
  (L : R -> Layer.t) : Prop :=
  forall u,
    Layer.initialised (L u) /\
    Layer.ins (L u) = Layer.ins self /\
    Layer.outs (L u) = Layer.outs self /\
    Layer.act_function (L u) = Layer.act_function self /\
    affine (L u) x
    = set_nth r (nth r (affine self x) 0 + (u - p0) * s) (affine self x).


(** * Properties *)

(** Evaluation on concrete arrays, and equality of arrays entry by entry. *)
Ltac arrays := repeat first [reflexivity | lra | apply (f_equal2 cons)].

Ltac evaluate :=
  cbv [output backprop descend activation affine matvec msub scale_mat scale
       np.inner np.sum np.T np.dot_T np.ones np.exp ncols
       ActivationFunction.f ActivationFunction.df Id.f Id.df
       NeuralNetwork._layers Layer._W Layer._b Layer.act_function
       Layer.ins Layer.outs
       map zip_with fold_right combine fst snd seq nth hd length repeat
       set_nth].

(** ** Lists and sums *)

Lemma zip_with_length (op : R -> R -> R) (u v : vec) :
  length u = length v -> length (zip_with op u v) = length u.
Proof.
  revert v; induction u as [|a u IH]; intros [|b v] H; simpl in *;
    try discriminate; auto.
Qed.

Lemma zip_with_map_r (op : R -> R -> R) (h : R -> R) (x : vec) :
  zip_with op x (map h x) = map (fun xi => op xi (h xi)) x.
Proof. induction x as [|a x IH]; simpl; [reflexivity | now rewrite IH]. Qed.

Lemma zip_with_diag (op : R -> R -> R) (x : vec) :
  zip_with op x x = map (fun xi => op xi xi) x.
Proof. induction x as [|a x IH]; simpl; [reflexivity | now rewrite IH]. Qed.

Lemma set_nth_length {A : Type} (k : nat) (a : A) (l : list A) :
  length (set_nth k a l) = length l.
Proof.
  revert k; induction l as [|b l IH]; intros [|k]; simpl; auto.
Qed.

Lemma sum_nonneg (v : vec) : Forall (fun a => 0 <= a) v -> 0 <= np.sum v.
Proof.
  induction 1 as [|a v Ha _ IH]; simpl; lra.
Qed.

Lemma sum_exp_pos (v : vec) : v <> [] -> 0 < np.sum (np.exp v).
Proof.
  destruct v as [|a v]; [congruence | intros _; simpl].
  assert (0 <= np.sum (np.exp v)).
  { apply sum_nonneg. unfold np.exp. apply Forall_map, Forall_forall.
    intros x _. left. apply exp_pos. }
  pose proof (exp_pos a). lra.
Qed.

Lemma sum_map_div (s : R) (v : vec) :
  np.sum (map (fun e => e / s) v) = np.sum v / s.
Proof.
  induction v as [|a v IH]; simpl; [lra | rewrite IH; lra].
Qed.

Lemma sum_set_nth (k : nat) (a : R) (v : vec) :
  (k < length v)%nat -> np.sum (set_nth k a v) = np.sum v - nth k v 0 + a.
Proof.
  revert k; induction v as [|b v IH]; intros k Hk; simpl in *; [lia|].
  destruct k as [|k]; simpl; [lra|].
  rewrite IH by lia. lra.
Qed.

Lemma nth_le_sum (k : nat) (v : vec) :
  Forall (fun a => 0 <= a) v -> nth k v 0 <= np.sum v.
Proof.
  intros H; revert k; induction H as [|a v Ha Hv IH]; intros [|k]; simpl;
    try lra.
  - pose proof (sum_nonneg v Hv). lra.
  - specialize (IH k). lra.
Qed.

(** Python's index normalisation on an axis of length [n]. *)
Lemma py_index_valid (n : nat) (i : Z) :
  (- Z.of_nat n <= i < Z.of_nat n)%Z ->
  py_index n i = Ok (Z.to_nat (i mod Z.of_nat n)) /\
  (Z.to_nat (i mod Z.of_nat n) < n)%nat.
Proof.
  intros Hi. unfold py_index.
  assert (Hm : (0 <= i mod Z.of_nat n < Z.of_nat n)%Z)
    by (apply Z.mod_pos_bound; lia).
  split; [|lia].
  destruct (Z.leb_spec 0 i); simpl.
  - destruct (Z.ltb_spec i (Z.of_nat n)); [|lia].
    now rewrite Z.mod_small by lia.
  - destruct (Z.leb_spec (- Z.of_nat n) i); [|lia].
    destruct (Z.ltb_spec i 0); [|lia]. simpl.
    f_equal. f_equal.
    rewrite <- (Z.mod_small (i + Z.of_nat n) (Z.of_nat n)) by lia.
    rewrite <- (Z.mod_add i 1 (Z.of_nat n)) by lia.
    f_equal. lia.
Qed.

(** ** Activation functions *)

Lemma LeakyReLU_f_max (self : LeakyReLU.t) (x : vec) :
  LeakyReLU.f self x = LeakyReLU_f_spec (LeakyReLU.alpha self) x.
Proof.
  apply map_ext; intros xi. now rewrite Rmult_comm.
Qed.

(** C5, as amended: for a leak parameter between 0 and 1, [f] is the
    elementwise maximum of [x] and [alpha * x], and [df] is 1 where [x > 0]
    and [alpha] elsewhere. *)
Theorem LeakyReLU_f_df (self : LeakyReLU.t) (x : vec) :
  0 <= LeakyReLU.alpha self <= 1 ->
  LeakyReLU.f self x = LeakyReLU_f_spec (LeakyReLU.alpha self) x /\
  LeakyReLU.df self x = LeakyReLU_df_spec (LeakyReLU.alpha self) x.
Proof.
  intros Ha. split; [apply LeakyReLU_f_max|].
  apply map_ext; intros xi. unfold Rgtb.
  destruct (Rlt_dec 0 xi); simpl.
  - apply Rmax_left; lra.
  - apply Rmax_right; lra.
Qed.

Lemma LeakyReLU_f_df_witness :
  0 <= LeakyReLU.alpha LeakyReLU.default <= 1 /\
  LeakyReLU.f LeakyReLU.default [2; -3] = LeakyReLU_f_spec (1 / 10) [2; -3] /\
  LeakyReLU.df LeakyReLU.default [2; -3] = LeakyReLU_df_spec (1 / 10) [2; -3].
Proof.
  split; [simpl; lra|].
  apply (LeakyReLU_f_df LeakyReLU.default [2; -3]). simpl; lra.
Defined.

(** C5 as stated fails for a leak above 1: where [x > 0] the derivative
    computed is the leak, not 1. *)
Lemma LeakyReLU_df_leak_above_1 :
  LeakyReLU.df (LeakyReLU.__init__ 2) [1] <> LeakyReLU_df_spec 2 [1].
Proof.
  unfold LeakyReLU.df, LeakyReLU_df_spec, Rgtb; simpl.
  destruct (Rlt_dec 0 1) as [_|H]; [|lra]. simpl.
  rewrite Rmax_right by lra. intros H; inversion H; lra.
Qed.

Lemma ELU_f_branches (self : ELU.t) (x : vec) :
  ELU.f self x = ELU_f_spec (ELU.alpha self) x.
Proof.
  unfold ELU.f, ELU_f_spec. rewrite zip_with_map_r.
  apply map_ext; intros xi. unfold Rgtb. now destruct (Rlt_dec 0 xi).
Qed.

Lemma ELU_df_at_0 (self : ELU.t) : ELU.df self [0] = [1].
Proof.
  unfold ELU.df, Rgeb, Rltb; simpl.
  destruct (Rle_dec 0 0) as [_|H]; [|lra].
  destruct (Rlt_dec 0 0) as [H|_]; [lra|]. simpl.
  rewrite Rmax_left; [reflexivity | lra].
Qed.

(** For a scale parameter that is not negative, the exponential linear
    unit is as it is meant: [f] is [x] where [x > 0] and
    [alpha * (e^x - 1)] elsewhere, [df] is 1 where [x >= 0] and
    [alpha * e^x] where [x < 0]; at [x = 0], [df] is 1. *)
Theorem ELU_f_df (self : ELU.t) (x : vec) :
  0 <= ELU.alpha self ->
  ELU.f self x = ELU_f_spec (ELU.alpha self) x /\
  ELU.df self x = ELU_df_spec (ELU.alpha self) x /\
  ELU.df self [0] = [1].
Proof.
  intros Ha. split; [apply ELU_f_branches|]. split; [|apply ELU_df_at_0].
  apply map_ext; intros xi. unfold Rgeb, Rltb.
  pose proof (exp_pos xi) as He.
  destruct (Rle_dec 0 xi), (Rlt_dec xi 0); simpl; try lra.
  - apply Rmax_left; lra.
  - rewrite Rmult_1_r. apply Rmax_right.
    apply Rmult_le_pos; lra.
Qed.

Lemma ELU_f_df_witness :
  0 <= ELU.alpha ELU.default /\
  ELU.f ELU.default [2; 0; -3] = ELU_f_spec (1 / 10) [2; 0; -3] /\
  ELU.df ELU.default [2; 0; -3] = ELU_df_spec (1 / 10) [2; 0; -3] /\
  ELU.df ELU.default [0] = [1].
Proof.
  split; [simpl; lra|].
  apply (ELU_f_df ELU.default [2; 0; -3]). simpl; lra.
Defined.

(** For a negative scale, where [x < 0] the derivative computed is 0, not
    [alpha * e^x]. *)
Lemma ELU_df_negative_scale :
  ELU.df (ELU.__init__ (-1)) [-1] <> ELU_df_spec (-1) [-1].
Proof.
  unfold ELU.df, ELU_df_spec, Rgeb, Rltb; simpl.
  pose proof (exp_pos (-1)) as He.
  destruct (Rle_dec 0 (-1)) as [H|_]; [lra|].
  destruct (Rlt_dec (-1) 0) as [_|H]; [|lra]. simpl.
  rewrite Rmax_left by lra. intros H; inversion H; lra.
Qed.

(** ** Loss functions *)

Lemma softmax_length (v : vec) : length (softmax v) = length v.
Proof. apply length_map. Qed.

Lemma softmax_sum (v : vec) : v <> [] -> np.sum (softmax v) = 1.
Proof.
  intros Hv. pose proof (sum_exp_pos v Hv) as Hs. unfold np.exp in Hs.
  unfold softmax.
  rewrite <- (map_map exp (fun e => e / np.sum (map exp v))).
  rewrite sum_map_div. now apply Rdiv_diag, Rgt_not_eq.
Qed.

Lemma valid_index_nonempty (v : vec) (t : Z) :
  (- Z.of_nat (length v) <= t < Z.of_nat (length v))%Z -> v <> [].
Proof. intros H ->; simpl in H; lia. Qed.

(** The gradient of the cross entropy, in closed form. *)
Lemma dloss_closed_form (values : vec) (t : Z) :
  (- Z.of_nat (length values) <= t < Z.of_nat (length values))%Z ->
  exists d,
    CrossEntropyLoss.dloss values (TInt t) = Ok d /\
    d = set_nth (entry values t)
          (nth (entry values t) (softmax values) 0 - 1) (softmax values).
Proof.
  intros Ht. destruct (py_index_valid _ _ Ht) as [Hi Hk].
  unfold CrossEntropyLoss.dloss, CrossEntropyLoss.index, np.exp.
  rewrite map_map. fold (softmax values).
  rewrite softmax_length, Hi. simpl. fold (entry values t) in *.
  eexists; split; reflexivity.
Qed.

(** C4: for a valid class index, the gradient of the cross entropy is the
    softmax of the output with 1 subtracted from the entry of the class,
    and its entries sum to 0. *)
Theorem CrossEntropyLoss_dloss_softmax (values : vec) (t : Z) :
  (- Z.of_nat (length values) <= t < Z.of_nat (length values))%Z ->
  exists d,
    CrossEntropyLoss.dloss values (TInt t) = Ok d /\
    d = set_nth (entry values t)
          (nth (entry values t) (softmax values) 0 - 1) (softmax values) /\
    np.sum d = 0.
Proof.
  intros Ht. pose proof (valid_index_nonempty _ _ Ht) as Hne.
  destruct (py_index_valid _ _ Ht) as [_ Hk]. fold (entry values t) in Hk.
  destruct (dloss_closed_form values t Ht) as (d & Hd & Heq).
  exists d. split; [assumption|]. split; [assumption|].
  rewrite Heq, sum_set_nth by (now rewrite softmax_length).
  rewrite softmax_sum by assumption. lra.
Qed.

Lemma CrossEntropyLoss_dloss_softmax_witness :
  exists d,
    CrossEntropyLoss.dloss [1; 2; 3] (TInt (-1)) = Ok d /\
    d = set_nth 2 (nth 2 (softmax [1; 2; 3]) 0 - 1) (softmax [1; 2; 3]) /\
    np.sum d = 0.
Proof.
  apply (CrossEntropyLoss_dloss_softmax [1; 2; 3] (-1)). simpl; lia.
Defined.

Lemma MSELoss_loss_nonneg (values e : vec) :
  length e = length values -> values <> [] ->
  exists l, MSELoss.loss values (TVec e) = Ok l /\ 0 <= l.
Proof.
  intros Hlen Hne. unfold MSELoss.loss, MSELoss.diff, broadcast.
  rewrite Hlen, Nat.eqb_refl. simpl.
  eexists; split; [reflexivity|].
  unfold np.mean, Rdiv. apply Rmult_le_pos.
  - apply sum_nonneg, Forall_map, Forall_forall. intros a _. apply pow2_ge_0.
  - left. apply Rinv_0_lt_compat, lt_0_INR.
    rewrite length_map, zip_with_length by congruence.
    destruct values; [congruence | simpl; lia].
Qed.

Lemma CrossEntropyLoss_loss_nonneg (values : vec) (t : Z) :
  (- Z.of_nat (length values) <= t < Z.of_nat (length values))%Z ->
  exists l, CrossEntropyLoss.loss values (TInt t) = Ok l /\ 0 <= l.
Proof.
  intros Ht. pose proof (valid_index_nonempty _ _ Ht) as Hne.
  destruct (py_index_valid _ _ Ht) as [Hi Hk].
  pose proof (sum_exp_pos values Hne) as Hs.
  unfold CrossEntropyLoss.loss, CrossEntropyLoss.index, math_log.
  rewrite Hi. simpl. destruct (Rlt_dec 0 (np.sum (np.exp values))); [|lra].
  eexists; split; [reflexivity|].
  set (k := Z.to_nat (t mod Z.of_nat (length values))) in *.
  assert (Hle : exp (nth k values 0) <= np.sum (np.exp values)).
  { replace (exp (nth k values 0)) with (nth k (np.exp values) 0).
    - apply nth_le_sum, Forall_map, Forall_forall.
      intros a _. left. apply exp_pos.
    - unfold np.exp. rewrite <- (map_nth exp). apply nth_indep.
      now rewrite length_map. }
  destruct Hle as [Hlt | Heq].
  - apply ln_increasing in Hlt; [|apply exp_pos].
    rewrite ln_exp in Hlt. lra.
  - rewrite <- Heq, ln_exp. lra.
Qed.

(** In exact arithmetic, on an admissible target both losses return a
    value, and it is not negative. The sign of the cross entropy of the
    program is a matter of rounding: [log(exp(v))] can fall below [v]. *)
Theorem loss_nonneg (lf : LossFunction.t) (values : vec) (expected : target) :
  admissible lf values expected ->
  exists l, LossFunction.loss lf values expected = Ok l /\ 0 <= l.
Proof.
  destruct lf, expected as [e | i]; simpl; try contradiction.
  - intros [Hlen Hne]. now apply MSELoss_loss_nonneg.
  - apply CrossEntropyLoss_loss_nonneg.
Qed.

Lemma loss_nonneg_witness :
  (exists l, LossFunction.loss LossFunction.MSELoss [1; 2] (TVec [0; 5])
             = Ok l /\ 0 <= l) /\
  (exists l, LossFunction.loss LossFunction.CrossEntropyLoss [1; 2] (TInt 1)
             = Ok l /\ 0 <= l).
Proof.
  split.
  - apply (loss_nonneg LossFunction.MSELoss [1; 2] (TVec [0; 5])).
    simpl. split; [reflexivity | discriminate].
  - apply (loss_nonneg LossFunction.CrossEntropyLoss [1; 2] (TInt 1)).
    simpl; lia.
Defined.

(** ** Construction of a network *)

Lemma adjacent_mismatch_short (layers : list Layer.t) :
  (length layers <= 1)%nat -> ~ adjacent_mismatch layers.
Proof.
  intros Hlen (i & a & b & _ & Hb & _).
  assert (S i < length layers)%nat by (apply nth_error_Some; congruence).
  lia.
Qed.

Lemma adjacent_mismatch_cons (a b : Layer.t) (rest : list Layer.t) :
  adjacent_mismatch (a :: b :: rest) <->
  Layer.outs a <> Layer.ins b \/ adjacent_mismatch (b :: rest).
Proof.
  split.
  - intros ([|i] & x & y & Hx & Hy & Hxy); simpl in *.
    + left. congruence.
    + right. now exists i, x, y.
  - intros [H | (i & x & y & Hx & Hy & Hxy)].
    + now exists 0%nat, a, b.
    + now exists (S i), x, y.
Qed.

Lemma check_compat_spec (layers : list Layer.t) :
  (NeuralNetwork.check_compat (combine (removelast layers) (tl layers))
   = Raise incompatible /\ adjacent_mismatch layers) \/
  (NeuralNetwork.check_compat (combine (removelast layers) (tl layers))
   = Ok tt /\ ~ adjacent_mismatch layers).
Proof.
  induction layers as [|a layers IH].
  - right. split; [reflexivity | apply adjacent_mismatch_short; simpl; lia].
  - destruct layers as [|b rest].
    + right. split; [reflexivity | apply adjacent_mismatch_short; simpl; lia].
    + change (combine (removelast (a :: b :: rest)) (tl (a :: b :: rest)))
        with ((a, b) :: combine (removelast (b :: rest)) (tl (b :: rest))).
      cbn [NeuralNetwork.check_compat].
      rewrite adjacent_mismatch_cons.
      destruct (Z.eqb_spec (Layer.outs a) (Layer.ins b)) as [Heq | Hne]; simpl.
      * destruct IH as [[H1 H2] | [H1 H2]]; [left | right]; tauto.
      * left. tauto.
Qed.

(** C2: construction raises the configuration error exactly when two
    adjacent layers disagree on their common width, and yields the network
    exactly when none do. *)
Theorem init_raises_iff_mismatch (layers : list Layer.t)
  (loss_function : LossFunction.t) (learning_rate : R) :
  (NeuralNetwork.__init__ layers loss_function learning_rate
   = Raise incompatible <-> adjacent_mismatch layers) /\
  (NeuralNetwork.__init__ layers loss_function learning_rate
   = Ok (NeuralNetwork.mk layers loss_function learning_rate)
   <-> ~ adjacent_mismatch layers).
Proof.
  unfold NeuralNetwork.__init__.
  destruct (check_compat_spec layers) as [[-> H] | [-> H]]; simpl;
    (split; split; intros; try assumption; try reflexivity;
     try discriminate; try contradiction).
Qed.

(** The specification's example: [Layer(4, 3, ...)] before
    [Layer(5, 2, ...)]. *)
Example init_4_3_then_5_2 (a1 a2 : ActivationFunction.t) (W1 W2 : mat)
  (b1 b2 : vec) (lf : LossFunction.t) (rate : R) :
  NeuralNetwork.__init__
    [Layer.mk 4 3 a1 W1 b1; Layer.mk 5 2 a2 W2 b2] lf rate
  = Raise incompatible.
Proof. reflexivity. Qed.

(** ** Running methods *)

Lemma bind_ok {S A B : Type} (m : method S A) (k : A -> method S B)
  (s s' : S) (a : A) :
  m s = (s', Ok a) -> bind m k s = k a s'.
Proof. unfold bind; now intros ->. Qed.

Lemma bind_raise {S A B : Type} (m : method S A) (k : A -> method S B)
  (s s' : S) (e : exn) :
  m s = (s', Raise e) -> bind m k s = (s', Raise e).
Proof. unfold bind; now intros ->. Qed.

Lemma for_each_app {S A B : Type} (l1 l2 : list A)
  (body : B -> A -> method S B) (acc : B) (s : S) :
  for_each (l1 ++ l2) body acc s
  = bind (for_each l1 body acc) (for_each l2 body) s.
Proof.
  revert acc s; induction l1 as [|a l1 IH]; intros acc s; simpl.
  - reflexivity.
  - unfold bind in *. destruct (body acc a s) as [s' [b | e]].
    + apply IH.
    + reflexivity.
Qed.

Lemma set_nth_same {A : Type} (k : nat) (a : A) (l : list A) :
  nth_error l k = Some a -> set_nth k a l = l.
Proof.
  revert k; induction l as [|b l IH]; intros [|k] H; simpl in *;
    try discriminate.
  - congruence.
  - now rewrite IH.
Qed.

Lemma set_nth_twice {A : Type} (k : nat) (a b : A) (l : list A) :
  set_nth k b (set_nth k a l) = set_nth k b l.
Proof.
  revert k; induction l as [|c l IH]; intros [|k]; simpl; auto.
  now rewrite IH.
Qed.

Lemma nth_error_set_nth {A : Type} (k : nat) (a : A) (l : list A) :
  (k < length l)%nat -> nth_error (set_nth k a l) k = Some a.
Proof.
  revert k; induction l as [|c l IH]; intros [|k] H; simpl in *;
    try lia; auto.
  apply IH; lia.
Qed.

Lemma set_nth_middle {A : Type} (pre post : list A) (a b : A) :
  set_nth (length pre) b (pre ++ a :: post) = pre ++ b :: post.
Proof. induction pre as [|c pre IH]; simpl; [reflexivity | now rewrite IH]. Qed.

Lemma set_layers_same (net : NeuralNetwork.t) :
  NeuralNetwork.set_layers (NeuralNetwork._layers net) net = net.
Proof. now destruct net. Qed.

(** A method of a layer that leaves the layer as it is leaves the network
    as it is. *)
Lemma on_layer_frame {A : Type} (k : nat) (m : method Layer.t A)
  (net : NeuralNetwork.t) (layer : Layer.t) (r : result A) :
  nth_error (NeuralNetwork._layers net) k = Some layer ->
  m layer = (layer, r) ->
  NeuralNetwork.on_layer k m net = (net, r).
Proof.
  intros Hk Hm. unfold NeuralNetwork.on_layer. rewrite Hk, Hm.
  now rewrite set_nth_same, set_layers_same.
Qed.

Lemma on_layer_attr {A : Type} (k : nat) (proj : Layer.t -> A)
  (net : NeuralNetwork.t) (layer : Layer.t) :
  nth_error (NeuralNetwork._layers net) k = Some layer ->
  NeuralNetwork.on_layer k (attr proj) net = (net, Ok (proj layer)).
Proof. intros Hk. now apply on_layer_frame with (layer := layer). Qed.

Lemma on_layer_assign (k : nat) (upd : Layer.t -> Layer.t)
  (net : NeuralNetwork.t) (layer : Layer.t) :
  nth_error (NeuralNetwork._layers net) k = Some layer ->
  NeuralNetwork.on_layer k (assign upd) net
  = (NeuralNetwork.set_layers
       (set_nth k (upd layer) (NeuralNetwork._layers net)) net, Ok tt).
Proof. intros Hk. unfold NeuralNetwork.on_layer. now rewrite Hk. Qed.

(** ** Forward pass *)

Lemma f_length (a : ActivationFunction.t) (x : vec) :
  length (ActivationFunction.f a x) = length x.
Proof.
  destruct a; simpl;
    unfold Id.f, ELU.f, LeakyReLU.f, Sigmoid.f, Tanh.f, ArcTan.f;
    rewrite ?zip_with_length; rewrite ?length_map; auto.
Qed.

Lemma df_length (a : ActivationFunction.t) (x : vec) :
  length (ActivationFunction.df a x) = length x.
Proof.
  destruct a; simpl;
    unfold Id.df, ELU.df, LeakyReLU.df, Sigmoid.df, Tanh.df, ArcTan.df,
      Sigmoid.f, Tanh.f, np.ones;
    rewrite ?zip_with_length; rewrite ?length_map, ?repeat_length; auto.
Qed.

Lemma initialised_ncols (self : Layer.t) :
  Layer.initialised self ->
  Z.of_nat (ncols (Layer._W self)) = Layer.ins self.
Proof.
  intros (_ & Ho & Hr & Hc & _). unfold ncols, nrows in *.
  destruct (Layer._W self) as [|row W]; simpl in *; [lia|].
  now inversion Hc.
Qed.

Lemma matvec_length (W : mat) (x : vec) : length (matvec W x) = length W.
Proof. apply length_map. Qed.

Lemma affine_length (self : Layer.t) (x : vec) :
  Layer.initialised self ->
  Z.of_nat (length (affine self x)) = Layer.outs self.
Proof.
  intros (_ & _ & Hr & _ & Hb). unfold affine, nrows in *.
  rewrite zip_with_length; rewrite matvec_length; lia.
Qed.

Lemma dot_initialised (self : Layer.t) (x : vec) :
  Layer.initialised self -> Z.of_nat (length x) = Layer.ins self ->
  np.dot (Layer._W self) x = Ok (matvec (Layer._W self) x).
Proof.
  intros Hi Hx. apply initialised_ncols in Hi. unfold np.dot.
  replace (ncols (Layer._W self)) with (length x) by lia.
  now rewrite Nat.eqb_refl.
Qed.

Lemma broadcast_same (op : R -> R -> R) (u v : vec) :
  length u = length v -> broadcast op u v = Ok (zip_with op u v).
Proof. intros H. unfold broadcast. now rewrite H, Nat.eqb_refl. Qed.

Lemma affine_initialised (self : Layer.t) (x : vec) :
  Layer.initialised self ->
  broadcast Rplus (matvec (Layer._W self) x) (Layer._b self)
  = Ok (affine self x).
Proof.
  intros (_ & _ & Hr & _ & Hb). apply broadcast_same.
  rewrite matvec_length. unfold nrows in Hr. lia.
Qed.

Lemma Layer_forward_pass_frame (x : vec) (self : Layer.t) :
  fst (Layer.forward_pass x self) = self.
Proof.
  unfold Layer.forward_pass, bind, attr, eval, ret.
  destruct (np.dot (Layer._W self) x) as [d|e]; [|reflexivity].
  now destruct (broadcast Rplus d (Layer._b self)).
Qed.

Lemma Layer_forward_pass_eq (x : vec) (self : Layer.t) :
  Layer.forward_pass x self = (self, snd (Layer.forward_pass x self)).
Proof.
  rewrite <- (Layer_forward_pass_frame x self) at 2.
  now destruct (Layer.forward_pass x self).
Qed.

Lemma Layer_forward_pass_initialised (x : vec) (self : Layer.t) :
  Layer.initialised self -> Z.of_nat (length x) = Layer.ins self ->
  Layer.forward_pass x self = (self, Ok (activation self x)).
Proof.
  intros Hi Hx. unfold Layer.forward_pass, bind, attr, eval, ret.
  rewrite dot_initialised by assumption.
  now rewrite affine_initialised by assumption.
Qed.

Lemma activation_length (self : Layer.t) (x : vec) :
  Layer.initialised self ->
  Z.of_nat (length (activation self x)) = Layer.outs self.
Proof.
  intros Hi. unfold activation. rewrite f_length. now apply affine_length.
Qed.

(** The loop of [NeuralNetwork.forward_pass], started at any layer. *)
Lemma forward_loop (pre layers : list Layer.t) (lf : LossFunction.t)
  (rate : R) (x : vec) :
  for_each (seq (length pre) (length layers))
    (fun out layer =>
       NeuralNetwork.on_layer layer (Layer.forward_pass out)) x
    (NeuralNetwork.mk (pre ++ layers) lf rate)
  = (NeuralNetwork.mk (pre ++ layers) lf rate, feed layers x).
Proof.
  revert pre x; induction layers as [|l layers IH]; intros pre x.
  - reflexivity.
  - cbn [length seq for_each feed].
    assert (Hk : nth_error (pre ++ l :: layers) (length pre) = Some l)
      by (rewrite nth_error_app2, Nat.sub_diag by lia; reflexivity).
    pose proof (on_layer_frame (length pre) (Layer.forward_pass x)
                  (NeuralNetwork.mk (pre ++ l :: layers) lf rate) l _
                  Hk (Layer_forward_pass_eq x l)) as Hstep.
    destruct (snd (Layer.forward_pass x l)) as [out | e].
    + rewrite (bind_ok _ _ _ _ _ Hstep). simpl.
      specialize (IH (pre ++ [l]) out).
      rewrite length_app, Nat.add_1_r, <- app_assoc in IH. apply IH.
    + now rewrite (bind_raise _ _ _ _ _ Hstep).
Qed.

Lemma NeuralNetwork_forward_pass_eq (x : vec) (net : NeuralNetwork.t) :
  NeuralNetwork.forward_pass x net
  = (net, feed (NeuralNetwork._layers net) x).
Proof.
  destruct net as [layers lf rate].
  unfold NeuralNetwork.forward_pass, NeuralNetwork.layer_refs, bind, attr.
  cbn [NeuralNetwork._layers]. apply (forward_loop [] layers).
Qed.

(** C3: an initialised layer maps an input of its input width to
    [f (W . x + b)], of its output width; the forward pass of a network is
    the sequential composition of the forward passes of its layers. *)
Theorem forward_pass_composition (self : Layer.t) (x : vec)
  (net : NeuralNetwork.t) (x0 : vec) :
  Layer.initialised self -> Z.of_nat (length x) = Layer.ins self ->
  (exists out,
     snd (Layer.forward_pass x self) = Ok out /\
     out = ActivationFunction.f (Layer.act_function self)
             (zip_with Rplus (matvec (Layer._W self) x) (Layer._b self)) /\
     Z.of_nat (length out) = Layer.outs self) /\
  snd (NeuralNetwork.forward_pass x0 net)
  = feed (NeuralNetwork._layers net) x0.
Proof.
  intros Hi Hx. split.
  - exists (activation self x).
    rewrite Layer_forward_pass_initialised by assumption.
    repeat split. now apply activation_length.
  - now rewrite NeuralNetwork_forward_pass_eq.
Qed.

Lemma forward_pass_composition_witness :
  (exists out,
     snd (Layer.forward_pass [1; 2]
            (Layer.mk 2 1 ActivationFunction.Id [[1; 1]] [0])) = Ok out /\
     out = ActivationFunction.f ActivationFunction.Id
             (zip_with Rplus (matvec [[1; 1]] [1; 2]) [0]) /\
     Z.of_nat (length out) = 1%Z) /\
  snd (NeuralNetwork.forward_pass [1; 2]
         (NeuralNetwork.mk [] LossFunction.MSELoss 1))
  = feed [] [1; 2].
Proof.
  apply (forward_pass_composition
           (Layer.mk 2 1 ActivationFunction.Id [[1; 1]] [0]) [1; 2]
           (NeuralNetwork.mk [] LossFunction.MSELoss 1) [1; 2]).
  - unfold Layer.initialised; simpl.
    repeat split; try lia. repeat constructor.
  - reflexivity.
Defined.

(** ** Frame *)

Lemma NeuralNetwork_loss_eq (values : vec) (expected : target)
  (net : NeuralNetwork.t) :
  NeuralNetwork.loss values expected net
  = (net, LossFunction.loss (NeuralNetwork._loss_function net)
            values expected).
Proof. reflexivity. Qed.

(** ** Training step *)

Lemma fits_of_compatible (layers : list Layer.t) (n : Z) :
  Forall Layer.initialised layers ->
  ~ adjacent_mismatch layers ->
  (forall first, hd_error layers = Some first -> Layer.ins first = n) ->
  fits n layers.
Proof.
  intros Hall; revert n; induction Hall as [|l rest Hl Hrest IH];
    intros n Hadj Hfirst; simpl; [exact I|].
  repeat split; try apply Hl; [now apply Hfirst|].
  apply IH.
  - destruct rest as [|l2 rest]; [apply adjacent_mismatch_short; simpl; lia|].
    rewrite adjacent_mismatch_cons in Hadj. tauto.
  - intros first Hf. destruct rest as [|l2 rest]; simpl in Hf; [discriminate|].
    injection Hf as <-.
    destruct (Z.eq_dec (Layer.outs l) (Layer.ins l2)) as [E|E]; [auto|].
    exfalso. apply Hadj. now exists 0%nat, l, l2.
Qed.

Lemma last_activations (layers : list Layer.t) (x : vec) :
  last (x :: activations layers x) [] = output layers x.
Proof.
  revert x; induction layers as [|l layers IH]; intros x; [reflexivity|].
  cbn [activations output]. rewrite <- IH. reflexivity.
Qed.

Lemma removelast_activations (layers : list Layer.t) (x : vec) :
  removelast (x :: activations layers x) = inputs layers x.
Proof.
  revert x; induction layers as [|l layers IH]; intros x; [reflexivity|].
  cbn [activations inputs]. rewrite <- IH. reflexivity.
Qed.

Lemma inputs_length (layers : list Layer.t) (x : vec) :
  length (inputs layers x) = length layers.
Proof.
  revert x; induction layers as [|l layers IH]; intros x; simpl; auto.
Qed.

Lemma feed_fits (layers : list Layer.t) (x : vec) :
  fits (Z.of_nat (length x)) layers -> feed layers x = Ok (output layers x).
Proof.
  revert x; induction layers as [|l layers IH]; intros x; simpl;
    [reflexivity|].
  intros (Hi & Hn & Hrest).
  rewrite Layer_forward_pass_initialised by auto. simpl.
  apply IH. now rewrite activation_length.
Qed.

(** The forward sweep of [train], started at any layer with the list [xs]
    recorded so far. *)
Lemma forward_sweep (pre layers : list Layer.t) (lf : LossFunction.t)
  (rate : R) (xs : list vec) :
  fits (Z.of_nat (length (last xs []))) layers ->
  for_each (seq (length pre) (length layers))
    (fun xs layer =>
       (out <- NeuralNetwork.on_layer layer
                 (Layer.forward_pass (last xs [])) ;;
        ret (xs ++ [out]))%method) xs
    (NeuralNetwork.mk (pre ++ layers) lf rate)
  = (NeuralNetwork.mk (pre ++ layers) lf rate,
     Ok (xs ++ activations layers (last xs []))).
Proof.
  revert pre xs; induction layers as [|l layers IH]; intros pre xs Hfits.
  - simpl. unfold ret. now rewrite !app_nil_r.
  - destruct Hfits as (Hi & Hn & Hrest).
    cbn [length seq for_each activations].
    assert (Hk : nth_error (pre ++ l :: layers) (length pre) = Some l)
      by (rewrite nth_error_app2, Nat.sub_diag by lia; reflexivity).
    pose proof (on_layer_frame (length pre) (Layer.forward_pass (last xs []))
                  (NeuralNetwork.mk (pre ++ l :: layers) lf rate) l _ Hk
                  (Layer_forward_pass_initialised _ l Hi (eq_sym Hn)))
      as Hstep.
    erewrite bind_ok
      by (erewrite bind_ok by exact Hstep; unfold ret; reflexivity).
    specialize (IH (pre ++ [l]) (xs ++ [activation l (last xs [])])).
    rewrite length_app, Nat.add_1_r, <- !app_assoc, last_last in IH.
    apply IH. now rewrite activation_length.
Qed.

Lemma T_ncols (self : Layer.t) :
  Layer.initialised self ->
  ncols (np.T (Layer._W self)) = length (Layer._W self).
Proof.
  intros Hi. pose proof (initialised_ncols self Hi) as Hc.
  destruct Hi as (Hins & _). unfold np.T.
  destruct (ncols (Layer._W self)) as [|n]; [lia|].
  unfold ncols. simpl. apply length_map.
Qed.

Lemma combine_append {A B : Type} (ks ks' : list A) (vs vs' : list B) :
  length ks = length vs ->
  combine ks vs ++ combine ks' vs' = combine (ks ++ ks') (vs ++ vs').
Proof.
  revert vs; induction ks as [|k ks IH]; intros [|v vs] Hlen;
    simpl in *; try discriminate; [reflexivity|].
  f_equal. apply IH. now injection Hlen.
Qed.

Lemma rev_combine {A B : Type} (l1 : list A) (l2 : list B) :
  length l1 = length l2 -> combine (rev l1) (rev l2) = rev (combine l1 l2).
Proof.
  revert l2; induction l1 as [|a l1 IH]; intros [|b l2] H; simpl in *;
    try discriminate; [reflexivity|].
  injection H as H. rewrite <- IH by assumption.
  rewrite <- combine_append by (now rewrite !length_rev). reflexivity.
Qed.

Lemma dloss_admissible (lf : LossFunction.t) (values : vec)
  (expected : target) :
  admissible lf values expected ->
  exists g, LossFunction.dloss lf values expected = Ok g /\
            length g = length values.
Proof.
  destruct lf, expected as [e | i]; simpl; try contradiction.
  - intros [Hlen _]. unfold MSELoss.dloss, MSELoss.diff.
    rewrite broadcast_same by congruence. simpl.
    eexists; split; [reflexivity|].
    now rewrite length_map, zip_with_length by congruence.
  - intros Hi. destruct (dloss_closed_form values i Hi)
      as (d & Hd & ->).
    exists (set_nth (entry values i)
              (nth (entry values i) (softmax values) 0 - 1) (softmax values)).
    split; [assumption|]. now rewrite set_nth_length, softmax_length.
Qed.

(** One iteration of the backward loop on an initialised layer. *)
Lemma backward_step_initialised (net : NeuralNetwork.t) (k : nat)
  (layer : Layer.t) (x dx : vec) :
  nth_error (NeuralNetwork._layers net) k = Some layer ->
  Layer.initialised layer ->
  Z.of_nat (length x) = Layer.ins layer ->
  Z.of_nat (length dx) = Layer.outs layer ->
  NeuralNetwork.backward_step dx (k, x) net
  = (NeuralNetwork.set_layers
       (set_nth k (fst (descend (NeuralNetwork.lr net) layer x dx))
          (NeuralNetwork._layers net)) net,
     Ok (snd (descend (NeuralNetwork.lr net) layer x dx))).
Proof.
  intros Hk Hi Hx Hdx.
  pose proof (affine_length layer x Hi) as Hy.
  pose proof (initialised_ncols layer Hi) as Hc.
  pose proof (T_ncols layer Hi) as HT.
  pose proof Hi as (Hins & Houts & Hr & _ & Hb). unfold nrows in Hr.
  set (y := affine layer x) in *.
  set (db := zip_with Rmult
               (ActivationFunction.df (Layer.act_function layer) y) dx).
  assert (Hdb : length db = length (Layer._W layer)).
  { unfold db. rewrite zip_with_length; rewrite df_length; lia. }
  assert (Hlt : (k < length (NeuralNetwork._layers net))%nat)
    by (apply nth_error_Some; congruence).
  unfold NeuralNetwork.backward_step.
  rewrite (bind_ok _ _ _ _ _ (on_layer_attr k Layer._W net layer Hk)).
  unfold eval at 1, bind at 1. rewrite dot_initialised by assumption.
  rewrite (bind_ok _ _ _ _ _ (on_layer_attr k Layer._b net layer Hk)).
  unfold eval at 1, bind at 1. rewrite affine_initialised by assumption.
  fold y.
  rewrite (bind_ok _ _ _ _ _
             (on_layer_attr k Layer.act_function net layer Hk)).
  unfold eval at 1, bind at 1.
  rewrite broadcast_same by (rewrite df_length; lia). fold db.
  rewrite (bind_ok _ _ _ _ _ (on_layer_attr k Layer._W net layer Hk)).
  unfold eval at 1, bind at 1. unfold np.dot at 1.
  rewrite HT, Hdb, Nat.eqb_refl.
  rewrite (bind_ok _ _ _ _ _ (on_layer_attr k Layer._W net layer Hk)).
  unfold attr at 1, bind at 1.
  unfold eval at 1, bind at 1. unfold isub_mat.
  assert (Hshape :
    Nat.eqb (nrows (scale_mat (NeuralNetwork.lr net) (np.dot_T db x)))
      (nrows (Layer._W layer)) &&
    Nat.eqb (ncols (scale_mat (NeuralNetwork.lr net) (np.dot_T db x)))
      (ncols (Layer._W layer)) = true).
  { apply andb_true_iff; split; apply Nat.eqb_eq.
    - unfold nrows, scale_mat, np.dot_T. now rewrite !length_map.
    - unfold ncols at 1, scale_mat, np.dot_T, scale.
      destruct db as [|d db']; [simpl in Hdb; lia|].
      simpl. rewrite !length_map. lia. }
  rewrite Hshape. fold (msub (Layer._W layer)
                          (scale_mat (NeuralNetwork.lr net) (np.dot_T db x))).
  set (W' := msub (Layer._W layer)
               (scale_mat (NeuralNetwork.lr net) (np.dot_T db x))).
  rewrite (bind_ok _ _ _ _ _
             (on_layer_assign k (Layer.set_W W') net layer Hk)).
  set (net1 := NeuralNetwork.set_layers
                 (set_nth k (Layer.set_W W' layer)
                    (NeuralNetwork._layers net)) net).
  assert (Hk1 : nth_error (NeuralNetwork._layers net1) k
                = Some (Layer.set_W W' layer))
    by (apply nth_error_set_nth; assumption).
  rewrite (bind_ok _ _ _ _ _
             (on_layer_attr k Layer._b net1 (Layer.set_W W' layer) Hk1)).
  unfold attr at 1, bind at 1.
  unfold eval at 1, bind at 1. unfold isub.
  replace (length (scale (NeuralNetwork.lr net1) db))
    with (length (Layer._b (Layer.set_W W' layer)))
    by (unfold scale; rewrite length_map; simpl; lia).
  rewrite Nat.eqb_refl.
  set (b' := zip_with Rminus (Layer._b (Layer.set_W W' layer))
               (scale (NeuralNetwork.lr net1) db)).
  rewrite (bind_ok _ _ _ _ _
             (on_layer_assign k (Layer.set_b b') net1
                (Layer.set_W W' layer) Hk1)).
  unfold ret. f_equal.
  unfold net1, NeuralNetwork.set_layers; simpl.
  now rewrite set_nth_twice.
Qed.

Lemma descend_dx_length (rate : R) (self : Layer.t) (x dx : vec) :
  Layer.initialised self ->
  Z.of_nat (length (snd (descend rate self x dx))) = Layer.ins self.
Proof.
  intros Hi. pose proof (initialised_ncols self Hi) as Hc.
  unfold descend; simpl. rewrite matvec_length. unfold np.T.
  now rewrite length_map, length_seq.
Qed.

(** The backward loop of [train], over the layers from any layer on. *)
Lemma backward_loop (lf : LossFunction.t) (rate : R) (g : vec)
  (layers pre : list Layer.t) (x : vec) :
  fits (Z.of_nat (length x)) layers ->
  length g = length (output layers x) ->
  for_each
    (rev (combine (seq (length pre) (length layers)) (inputs layers x)))
    NeuralNetwork.backward_step g
    (NeuralNetwork.mk (pre ++ layers) lf rate)
  = (NeuralNetwork.mk (pre ++ fst (backprop rate g layers x)) lf rate,
     Ok (snd (backprop rate g layers x))) /\
  length (snd (backprop rate g layers x)) = length x.
Proof.
  revert pre x; induction layers as [|l rest IH]; intros pre x Hfits Hg.
  - simpl in *. split; [reflexivity | assumption].
  - destruct Hfits as (Hi & Hn & Hrest).
    cbn [length seq inputs combine rev backprop output] in *.
    destruct (IH (pre ++ [l]) (activation l x)) as [Hloop Hlen];
      [now rewrite activation_length | assumption |].
    destruct (backprop rate g rest (activation l x)) as [rest' dx].
    cbn [fst snd] in Hloop, Hlen.
    rewrite length_app, Nat.add_1_r, <- !app_assoc in Hloop.
    cbn [app] in Hloop.
    rewrite for_each_app, (bind_ok _ _ _ _ _ Hloop).
    assert (Hk : nth_error (pre ++ l :: rest') (length pre) = Some l)
      by (rewrite nth_error_app2, Nat.sub_diag by lia; reflexivity).
    assert (Hdx : Z.of_nat (length dx) = Layer.outs l)
      by (rewrite Hlen; now apply activation_length).
    pose proof (backward_step_initialised
                  (NeuralNetwork.mk (pre ++ l :: rest') lf rate)
                  (length pre) l x dx Hk Hi (eq_sym Hn) Hdx) as Hstep.
    cbn [NeuralNetwork._layers NeuralNetwork.lr] in Hstep.
    pose proof (descend_dx_length rate l x dx Hi) as Hlen'.
    destruct (descend rate l x dx) as [l' dx'].
    cbn [fst snd] in *.
    rewrite set_nth_middle in Hstep.
    split; [|lia].
    cbn [for_each]. now rewrite (bind_ok _ _ _ _ _ Hstep).
Qed.

(** The training step on well-shaped data, in closed form. *)
Lemma train_fits (net : NeuralNetwork.t) (x : vec) (expected : target)
  (g : vec) :
  fits (Z.of_nat (length x)) (NeuralNetwork._layers net) ->
  LossFunction.dloss (NeuralNetwork._loss_function net)
    (output (NeuralNetwork._layers net) x) expected = Ok g ->
  length g = length (output (NeuralNetwork._layers net) x) ->
  NeuralNetwork.train x expected net
  = (NeuralNetwork.mk
       (fst (backprop (NeuralNetwork.lr net) g
               (NeuralNetwork._layers net) x))
       (NeuralNetwork._loss_function net) (NeuralNetwork.lr net),
     Ok tt).
Proof.
  destruct net as [layers lf rate]; cbn [NeuralNetwork._layers
    NeuralNetwork._loss_function NeuralNetwork.lr].
  intros Hfits Hg Hlen.
  unfold NeuralNetwork.train, NeuralNetwork.layer_refs.
  unfold attr at 1, bind at 1. cbn [NeuralNetwork._layers].
  rewrite (bind_ok _ _ _ _ _ (forward_sweep [] layers lf rate [x] Hfits)).
  change (last [x] []) with x. cbn [app].
  rewrite last_activations, removelast_activations.
  unfold attr at 1, bind at 1. cbn [NeuralNetwork._loss_function].
  unfold eval at 1, bind at 1. rewrite Hg.
  rewrite rev_combine by (now rewrite length_seq, inputs_length).
  destruct (backward_loop lf rate g layers [] x Hfits Hlen) as [Hloop _].
  cbn [app length] in Hloop.
  now rewrite (bind_ok _ _ _ _ _ Hloop).
Qed.

Lemma compatible_of_check (layers : list Layer.t) :
  NeuralNetwork.check_compat (combine (removelast layers) (tl layers)) = Ok tt ->
  ~ adjacent_mismatch layers.
Proof.
  intros H. destruct (check_compat_spec layers) as [[E _] | [_ Hn]];
    [congruence | assumption].
Qed.

(** C1: on a network of initialised, compatible layers, an input of the
    first layer's width and an admissible target, [train] returns
    normally, and its only effect is one gradient-descent update of the
    layers: the gradient is seeded with [dloss] at the output of the
    forward sweep and threaded through the layers in reverse, each layer
    taking [W - lr * dW] and [b - lr * db] with [db = df(W x + b) * dx]
    and [dW = db x^T], and passing on [W^T db] computed from its weights
    before the update. *)
Theorem train_one_update (net : NeuralNetwork.t) (x : vec)
  (expected : target) :
  Forall Layer.initialised (NeuralNetwork._layers net) ->
  ~ adjacent_mismatch (NeuralNetwork._layers net) ->
  (forall first, hd_error (NeuralNetwork._layers net) = Some first ->
                 Layer.ins first = Z.of_nat (length x)) ->
  admissible (NeuralNetwork._loss_function net)
    (output (NeuralNetwork._layers net) x) expected ->
  exists g,
    LossFunction.dloss (NeuralNetwork._loss_function net)
      (output (NeuralNetwork._layers net) x) expected = Ok g /\
    NeuralNetwork.train x expected net
    = (NeuralNetwork.mk
         (fst (backprop (NeuralNetwork.lr net) g
                 (NeuralNetwork._layers net) x))
         (NeuralNetwork._loss_function net) (NeuralNetwork.lr net),
       Ok tt).
Proof.
  intros Hall Hadj Hfirst Hadm.
  pose proof (fits_of_compatible _ _ Hall Hadj Hfirst) as Hfits.
  destruct (dloss_admissible _ _ _ Hadm) as (g & Hg & Hlen).
  exists g. split; [assumption|].
  now apply train_fits.
Qed.

Lemma two_layers_initialised :
  Forall Layer.initialised (NeuralNetwork._layers two_layers).
Proof.
  repeat constructor; simpl; lia.
Qed.

Lemma train_one_update_witness :
  exists g,
    LossFunction.dloss LossFunction.MSELoss
      (output (NeuralNetwork._layers two_layers) [1; 2]) (TVec [5]) = Ok g /\
    NeuralNetwork.train [1; 2] (TVec [5]) two_layers
    = (NeuralNetwork.mk
         (fst (backprop (1 / 10) g (NeuralNetwork._layers two_layers) [1; 2]))
         LossFunction.MSELoss (1 / 10),
       Ok tt).
Proof.
  apply (train_one_update two_layers [1; 2] (TVec [5])).
  - exact two_layers_initialised.
  - apply compatible_of_check. reflexivity.
  - simpl. intros first H. injection H as <-. reflexivity.
  - simpl. split; [reflexivity | discriminate].
Defined.

(** C10: the empty list of layers is accepted; the forward pass of the
    network returns its input, and [train] leaves the network as it is,
    only evaluating [dloss] on the input and dropping the value. *)
Theorem empty_network (lf : LossFunction.t) (rate : R) (x : vec)
  (expected : target) :
  NeuralNetwork.__init__ [] lf rate = Ok (NeuralNetwork.mk [] lf rate) /\
  NeuralNetwork.forward_pass x (NeuralNetwork.mk [] lf rate)
  = (NeuralNetwork.mk [] lf rate, Ok x) /\
  NeuralNetwork.train x expected (NeuralNetwork.mk [] lf rate)
  = (NeuralNetwork.mk [] lf rate,
     rbind (LossFunction.dloss lf x expected) (fun _ => Ok tt)).
Proof.
  repeat split.
  unfold NeuralNetwork.train, NeuralNetwork.layer_refs, bind, attr, eval, ret.
  simpl. now destruct (LossFunction.dloss lf x expected).
Qed.

Lemma train_mutates :
  fst (NeuralNetwork.train [1] (TVec [1]) one_neuron) <> one_neuron.
Proof.
  erewrite train_fits; [| | reflexivity | reflexivity].
  - unfold one_neuron. simpl. intros H. injection H as _ Hb.
    unfold np.inner in Hb; simpl in Hb. lra.
  - simpl. unfold Layer.initialised; simpl.
    repeat split; try lia; repeat constructor.
Qed.

(** C8: the forward pass of a layer, the forward pass of a network and the
    loss of a network leave the object they are called on as it is, whatever
    they return; [train] is the method that changes parameters. *)
Theorem forward_and_loss_frame :
  (forall (x : vec) (self : Layer.t),
      fst (Layer.forward_pass x self) = self) /\
  (forall (x : vec) (net : NeuralNetwork.t),
      fst (NeuralNetwork.forward_pass x net) = net) /\
  (forall (values : vec) (expected : target) (net : NeuralNetwork.t),
      fst (NeuralNetwork.loss values expected net) = net) /\
  (exists (x : vec) (expected : target) (net : NeuralNetwork.t),
      fst (NeuralNetwork.train x expected net) <> net).
Proof.
  repeat split.
  - apply Layer_forward_pass_frame.
  - intros x net. now rewrite NeuralNetwork_forward_pass_eq.
  - exists [1], (TVec [1]), one_neuron. apply train_mutates.
Qed.

(** ** Activation functions, entry by entry *)

Lemma f_pointwise (a : ActivationFunction.t) (x : vec) :
  ActivationFunction.f a x = map (f1 a) x.
Proof.
  destruct a; simpl.
  - unfold Id.f. now rewrite map_id.
  - unfold ELU.f. now rewrite zip_with_map_r.
  - reflexivity.
  - reflexivity.
  - reflexivity.
  - reflexivity.
Qed.

Lemma df_pointwise (a : ActivationFunction.t) (x : vec) :
  ActivationFunction.df a x = map (df1 a) x.
Proof.
  destruct a; simpl.
  - unfold Id.df, np.ones. induction x as [|u x IH]; simpl; congruence.
  - reflexivity.
  - reflexivity.
  - unfold Sigmoid.df, Sigmoid.f. now rewrite zip_with_diag, map_map.
  - unfold Tanh.df, Tanh.f. now rewrite map_map.
  - reflexivity.
Qed.

Lemma sigmoid_bounds (u : R) : 0 < 1 / (1 + exp (- u)) < 1.
Proof.
  pose proof (exp_pos (- u)) as He.
  split.
  - apply Rdiv_lt_0_compat; lra.
  - apply (Rmult_lt_reg_r (1 + exp (- u))); [lra|].
    unfold Rdiv. rewrite Rmult_assoc, Rinv_l by lra. lra.
Qed.

Lemma sigmoid_increasing (u v : R) :
  u < v -> 1 / (1 + exp (- u)) < 1 / (1 + exp (- v)).
Proof.
  intros Huv.
  assert (Hexp : exp (- v) < exp (- u)) by (apply exp_increasing; lra).
  pose proof (exp_pos (- v)) as Hv.
  unfold Rdiv. rewrite !Rmult_1_l.
  apply Rinv_lt_contravar; [|lra].
  apply Rmult_lt_0_compat; lra.
Qed.

Lemma tanh_quotient (u : R) :
  tanh u = (exp u - exp (- u)) / (exp u + exp (- u)).
Proof.
  pose proof (exp_pos u) as H1. pose proof (exp_pos (- u)) as H2.
  unfold tanh, sinh, cosh. field. lra.
Qed.

Lemma quotient_lt (a b c d : R) :
  0 < b -> 0 < d -> a * d < c * b -> a / b < c / d.
Proof.
  intros Hb Hd H.
  apply (Rmult_lt_reg_r (b * d)); [now apply Rmult_lt_0_compat|].
  replace (a / b * (b * d)) with (a * d) by (field; lra).
  replace (c / d * (b * d)) with (c * b) by (field; lra).
  assumption.
Qed.

Lemma tanh_increasing (u v : R) : u < v -> tanh u < tanh v.
Proof.
  intros Huv. rewrite !tanh_quotient.
  pose proof (exp_pos u) as Hu. pose proof (exp_pos (- u)) as Hu'.
  pose proof (exp_pos v) as Hv. pose proof (exp_pos (- v)) as Hv'.
  assert (H1 : exp u < exp v) by (now apply exp_increasing).
  assert (H2 : exp (- v) < exp (- u)) by (apply exp_increasing; lra).
  apply quotient_lt; try lra.
  assert (exp u * exp (- v) < exp v * exp (- u)).
  { apply Rmult_gt_0_lt_compat; lra. }
  lra.
Qed.

Lemma tanh_square_lt_1 (u : R) : 0 < 1 - tanh u ^ 2.
Proof.
  rewrite tanh_quotient.
  pose proof (exp_pos u) as Hu. pose proof (exp_pos (- u)) as Hu'.
  set (a := exp u) in *. set (b := exp (- u)) in *.
  replace (1 - ((a - b) / (a + b)) ^ 2)
    with (4 * a * b / ((a + b) * (a + b))) by (field; lra).
  apply Rdiv_lt_0_compat.
  - apply Rmult_lt_0_compat; lra.
  - apply Rmult_lt_0_compat; lra.
Qed.

Lemma positive_slope_increasing (a : ActivationFunction.t) :
  positive_slope a -> increasing a.
Proof.
  destruct a as [| e | e | | |]; simpl; intros Ha; split; simpl.
  - auto.
  - intros; lra.
  - intros u v Huv. unfold Rgtb.
    pose proof (exp_pos u) as Hu.
    assert (exp u < exp v) by (now apply exp_increasing).
    destruct (Rlt_dec 0 u), (Rlt_dec 0 v); try lra.
    + assert (exp u <= exp 0) as H0.
      { destruct (Req_dec u 0) as [-> | Hne]; [lra|].
        left. apply exp_increasing. lra. }
      rewrite exp_0 in H0.
      assert (ELU.alpha e * (exp u - 1) <= 0) by nra. lra.
    + apply Rmult_lt_compat_l; lra.
  - intros u. unfold Rgeb, Rltb. pose proof (exp_pos u) as Hu.
    destruct (Rle_dec 0 u), (Rlt_dec u 0); simpl; try lra.
    + eapply Rlt_le_trans; [|apply Rmax_l]. lra.
    + eapply Rlt_le_trans; [|apply Rmax_r].
      rewrite Rmult_1_r. now apply Rmult_lt_0_compat.
  - intros u v Huv.
    apply Rmax_lub_lt.
    + eapply Rlt_le_trans; [|apply Rmax_l]. assumption.
    + eapply Rlt_le_trans; [|apply Rmax_r].
      apply Rmult_lt_compat_r; assumption.
  - intros u. eapply Rlt_le_trans; [|apply Rmax_r]. assumption.
  - apply sigmoid_increasing.
  - intros u. pose proof (sigmoid_bounds u) as [H0 H1].
    apply Rmult_lt_0_compat; lra.
  - apply tanh_increasing.
  - apply tanh_square_lt_1.
  - apply atan_increasing.
  - intros u. apply Rdiv_lt_0_compat; [lra|].
    pose proof (pow2_ge_0 u). lra.
Qed.

(** ** The effect of one update on the pre-activation *)

Lemma inner_minus_outer (row x : vec) (c d : R) :
  length row = length x ->
  np.inner (zip_with Rminus row (scale c (map (fun b => d * b) x))) x
  = np.inner row x - c * d * np.inner x x.
Proof.
  unfold np.inner, scale.
  revert x; induction row as [|r row IH]; intros [|b x] H; simpl in *;
    try discriminate; [lra|].
  injection H as H. rewrite IH by assumption. lra.
Qed.

(** [(W - c db x^T) x + (b - c db) = (W x + b) - c (x.x + 1) db] *)
Lemma affine_update (W : mat) (b db x : vec) (c : R) :
  Forall (fun row => length row = length x) W ->
  length b = length W -> length db = length W ->
  zip_with Rplus (matvec (msub W (scale_mat c (np.dot_T db x))) x)
    (zip_with Rminus b (scale c db))
  = zip_with (fun y d => y - c * (np.inner x x + 1) * d)
      (zip_with Rplus (matvec W x) b) db.
Proof.
  intros HW; revert b db; induction HW as [|row W Hrow HW IH];
    intros [|b0 b] [|d db] Hb Hdb; simpl in *; try discriminate;
    [reflexivity|].
  injection Hb as Hb. injection Hdb as Hdb. f_equal.
  - change (map (Rmult c) (map (fun b1 => d * b1) x))
      with (scale c (map (fun b1 => d * b1) x)).
    rewrite inner_minus_outer by assumption. lra.
  - apply IH; assumption.
Qed.

Lemma msub_rows (W D : mat) (n : nat) :
  length D = length W ->
  Forall (fun row => length row = n) W ->
  Forall (fun row => length row = n) D ->
  length (msub W D) = length W /\
  Forall (fun row => length row = n) (msub W D).
Proof.
  unfold msub.
  intros Hlen HW; revert D Hlen; induction HW as [|row W Hrow HW IH];
    intros [|drow D] Hlen HD; simpl in *; try discriminate.
  - split; [reflexivity | constructor].
  - injection Hlen as Hlen. inversion HD as [|? ? Hd HD']; subst.
    destruct (IH D Hlen HD') as [IH1 IH2]. split.
    + now rewrite IH1.
    + constructor; [|assumption]. rewrite zip_with_length; congruence.
Qed.

(** A training update keeps the shape, the widths and the activation of a
    layer. *)
Lemma descend_initialised (rate : R) (self : Layer.t) (x dx : vec) :
  Layer.initialised self ->
  Z.of_nat (length x) = Layer.ins self ->
  Z.of_nat (length dx) = Layer.outs self ->
  Layer.initialised (fst (descend rate self x dx)) /\
  Layer.ins (fst (descend rate self x dx)) = Layer.ins self /\
  Layer.outs (fst (descend rate self x dx)) = Layer.outs self /\
  Layer.act_function (fst (descend rate self x dx))
  = Layer.act_function self.
Proof.
  intros Hi Hx Hdx. pose proof (affine_length self x Hi) as Hy.
  destruct Hi as (Hins & Houts & Hr & Hc & Hb). unfold nrows in Hr.
  set (db := zip_with Rmult
               (ActivationFunction.df (Layer.act_function self)
                  (affine self x)) dx).
  assert (Hdb : length db = length (Layer._W self))
    by (unfold db; rewrite zip_with_length; rewrite df_length; lia).
  destruct (msub_rows (Layer._W self) (scale_mat rate (np.dot_T db x))
              (length x)) as [Hlen Hrows].
  { unfold scale_mat, np.dot_T. now rewrite !length_map. }
  { eapply Forall_impl; [|exact Hc]. simpl; intros row Hrow. lia. }
  { unfold scale_mat, np.dot_T, scale. rewrite map_map.
    apply Forall_map, Forall_forall. intros d _. now rewrite !length_map. }
  unfold descend; fold db.
  cbn [fst Layer.ins Layer.outs Layer.act_function].
  unfold Layer.initialised, nrows. cbn [Layer.ins Layer.outs Layer._W Layer._b].
  repeat split; try assumption.
  - lia.
  - eapply Forall_impl; [|exact Hrows]. simpl; intros row Hrow. lia.
  - rewrite zip_with_length; unfold scale; rewrite ?length_map; lia.
Qed.

(** ** Entries *)

Lemma nth_zip_with (op : R -> R -> R) (u v : vec) (i : nat) :
  length u = length v -> (i < length u)%nat ->
  nth i (zip_with op u v) 0 = op (nth i u 0) (nth i v 0).
Proof.
  revert v i; induction u as [|a u IH]; intros [|b v] [|i] Hlen Hi;
    simpl in *; try discriminate; try lia; [reflexivity|].
  apply IH; lia.
Qed.

Lemma nth_map_entry (h : R -> R) (u : vec) (i : nat) :
  (i < length u)%nat -> nth i (map h u) 0 = h (nth i u 0).
Proof.
  intros Hi. rewrite <- (map_nth h).
  apply nth_indep. now rewrite length_map.
Qed.

Lemma nth_set_nth (k i : nat) (a : R) (u : vec) :
  (i < length u)%nat ->
  nth i (set_nth k a u) 0 = if Nat.eqb i k then a else nth i u 0.
Proof.
  revert k i; induction u as [|b u IH]; intros [|k] [|i] Hi; simpl in *;
    try lia; try reflexivity.
  apply IH; lia.
Qed.

Lemma sum_le_entries (u v : vec) :
  length u = length v ->
  (forall i, (i < length u)%nat -> nth i u 0 <= nth i v 0) ->
  np.sum u <= np.sum v.
Proof.
  revert v; induction u as [|a u IH]; intros [|b v] Hlen H; simpl in *;
    try discriminate; [lra|].
  pose proof (H 0%nat ltac:(lia)) as H0. simpl in H0.
  assert (np.sum u <= np.sum v).
  { apply IH; [lia|]. intros i Hi. apply (H (S i)). lia. }
  lra.
Qed.

Lemma sum_lt_entries (u v : vec) :
  length u = length v ->
  (forall i, (i < length u)%nat -> nth i u 0 <= nth i v 0) ->
  (exists j, (j < length u)%nat /\ nth j u 0 < nth j v 0) ->
  np.sum u < np.sum v.
Proof.
  revert v; induction u as [|a u IH]; intros [|b v] Hlen H (j & Hj & Hlt);
    simpl in *; try discriminate; try lia.
  pose proof (H 0%nat ltac:(lia)) as H0. simpl in H0.
  assert (Hrest : forall i, (i < length u)%nat -> nth i u 0 <= nth i v 0).
  { intros i Hi. apply (H (S i)). lia. }
  destruct j as [|j].
  - pose proof (sum_le_entries u v ltac:(lia) Hrest). lra.
  - assert (np.sum u < np.sum v).
    { apply IH; [lia | assumption |]. exists j. split; [lia | assumption]. }
    lra.
Qed.

(** ** Cross entropy along a training step *)

Lemma CrossEntropyLoss_loss_value (z : vec) (t : Z) :
  (- Z.of_nat (length z) <= t < Z.of_nat (length z))%Z ->
  CrossEntropyLoss.loss z (TInt t)
  = Ok (- nth (entry z t) z 0 + ln (np.sum (np.exp z))).
Proof.
  intros Ht. pose proof (valid_index_nonempty _ _ Ht) as Hne.
  destruct (py_index_valid _ _ Ht) as [Hi _].
  pose proof (sum_exp_pos z Hne) as Hs.
  unfold CrossEntropyLoss.loss, CrossEntropyLoss.index, math_log.
  rewrite Hi. simpl. now destruct (Rlt_dec 0 (np.sum (np.exp z))).
Qed.

Lemma sum_exp_shift (c : R) (z : vec) :
  np.sum (map (fun v => exp (v - c)) z) = np.sum (np.exp z) * exp (- c).
Proof.
  induction z as [|v z IH]; simpl; [lra|].
  rewrite IH. unfold Rminus. rewrite exp_plus. lra.
Qed.

Lemma log_sum_exp_shift (c : R) (z : vec) :
  z <> [] ->
  - c + ln (np.sum (np.exp z)) = ln (np.sum (map (fun v => exp (v - c)) z)).
Proof.
  intros Hne. rewrite sum_exp_shift.
  rewrite ln_mult by (try apply exp_pos; now apply sum_exp_pos).
  rewrite ln_exp. lra.
Qed.

(** Raising the logit of the class and lowering every other logit lowers
    the cross entropy. *)
Lemma cross_entropy_lower (z z' : vec) (t : Z) :
  (- Z.of_nat (length z) <= t < Z.of_nat (length z))%Z ->
  length z' = length z ->
  (2 <= length z)%nat ->
  nth (entry z t) z 0 < nth (entry z t) z' 0 ->
  (forall i, (i < length z)%nat -> i <> entry z t ->
             nth i z' 0 < nth i z 0) ->
  exists a b,
    CrossEntropyLoss.loss z (TInt t) = Ok a /\
    CrossEntropyLoss.loss z' (TInt t) = Ok b /\ b < a.
Proof.
  intros Ht Hlen Hn Hk Hother.
  assert (Ht' : (- Z.of_nat (length z') <= t < Z.of_nat (length z'))%Z)
    by (now rewrite Hlen).
  pose proof (valid_index_nonempty _ _ Ht) as Hne.
  pose proof (valid_index_nonempty _ _ Ht') as Hne'.
  destruct (py_index_valid _ _ Ht) as [_ Hlt]. fold (entry z t) in Hlt.
  assert (He : entry z' t = entry z t) by (unfold entry; now rewrite Hlen).
  do 2 eexists. rewrite !CrossEntropyLoss_loss_value by assumption.
  repeat split. rewrite He.
  set (k := entry z t) in *.
  rewrite !log_sum_exp_shift by assumption.
  apply ln_increasing.
  - rewrite sum_exp_shift. apply Rmult_lt_0_compat;
      [now apply sum_exp_pos | apply exp_pos].
  - apply sum_lt_entries.
    + now rewrite !length_map.
    + rewrite length_map, Hlen. intros i Hi.
      rewrite !nth_map_entry by lia.
      destruct (Nat.eq_dec i k) as [-> | Hik].
      * right. f_equal. lra.
      * left. apply exp_increasing. specialize (Hother i Hi Hik). lra.
    + rewrite length_map, Hlen.
      exists (if Nat.eqb k 0 then 1%nat else 0%nat).
      assert (Hj : ((if Nat.eqb k 0 then 1 else 0) < length z)%nat /\
                   (if Nat.eqb k 0 then 1%nat else 0%nat) <> k).
      { destruct (Nat.eqb_spec k 0); lia. }
      destruct Hj as [Hj Hjk]. split; [assumption|].
      rewrite !nth_map_entry by lia.
      apply exp_increasing. specialize (Hother _ Hj Hjk). lra.
Qed.

Lemma softmax_entry_pos (z : vec) (i : nat) :
  (i < length z)%nat -> 0 < nth i (softmax z) 0.
Proof.
  intros Hi. unfold softmax. rewrite nth_map_entry by assumption.
  apply Rdiv_lt_0_compat; [apply exp_pos|].
  apply (sum_exp_pos z). intros ->; simpl in Hi; lia.
Qed.

Lemma sum_zeros (z : vec) : np.sum (map (fun _ => 0) z) = 0.
Proof. induction z as [|v z IH]; simpl; [reflexivity | rewrite IH; lra]. Qed.

Lemma softmax_entry_lt_1 (z : vec) (k : nat) :
  (2 <= length z)%nat -> (k < length z)%nat -> nth k (softmax z) 0 < 1.
Proof.
  intros Hn Hk.
  assert (Hne : z <> []) by (intros ->; simpl in Hk; lia).
  rewrite <- (softmax_sum z Hne).
  set (p := softmax z).
  assert (Hp : length p = length z) by apply softmax_length.
  set (u := set_nth k (nth k p 0) (map (fun _ => 0) p)).
  assert (Hu : np.sum u = nth k p 0).
  { unfold u. rewrite sum_set_nth by (rewrite length_map; lia).
    rewrite sum_zeros, nth_map_entry by lia. lra. }
  rewrite <- Hu. apply sum_lt_entries.
  - unfold u. now rewrite set_nth_length, length_map.
  - unfold u. rewrite set_nth_length, length_map. intros i Hi.
    rewrite nth_set_nth by (now rewrite length_map).
    rewrite nth_map_entry by assumption.
    destruct (Nat.eqb_spec i k) as [-> | _]; [lra|].
    left. apply softmax_entry_pos. lia.
  - unfold u. rewrite set_nth_length, length_map.
    exists (if Nat.eqb k 0 then 1%nat else 0%nat).
    assert (Hj : ((if Nat.eqb k 0 then 1 else 0) < length p)%nat /\
                 (if Nat.eqb k 0 then 1%nat else 0%nat) <> k).
    { destruct (Nat.eqb_spec k 0); lia. }
    destruct Hj as [Hj Hjk]. split; [assumption|].
    rewrite nth_set_nth by (now rewrite length_map).
    rewrite nth_map_entry by assumption.
    destruct (Nat.eqb_spec (if Nat.eqb k 0 then 1%nat else 0%nat) k);
      [contradiction|].
    apply softmax_entry_pos. lia.
Qed.

Lemma inner_self_nonneg (x : vec) : 0 <= np.inner x x.
Proof.
  unfold np.inner. induction x as [|a x IH]; simpl; [lra|].
  pose proof (Rle_0_sqr a) as Ha. unfold Rsqr in Ha. lra.
Qed.

Lemma affine_descend (rate : R) (self : Layer.t) (x dx : vec) :
  Layer.initialised self ->
  Z.of_nat (length x) = Layer.ins self ->
  Z.of_nat (length dx) = Layer.outs self ->
  affine (fst (descend rate self x dx)) x
  = zip_with (fun y d => y - rate * (np.inner x x + 1) * d)
      (affine self x)
      (zip_with Rmult
         (ActivationFunction.df (Layer.act_function self) (affine self x))
         dx).
Proof.
  intros Hi Hx Hdx. pose proof (affine_length self x Hi) as Hy.
  destruct Hi as (Hins & Houts & Hr & Hc & Hb). unfold nrows in Hr.
  unfold descend. cbn [fst]. unfold affine at 1. cbn [Layer._W Layer._b].
  apply affine_update.
  - eapply Forall_impl; [|exact Hc]. simpl; intros row Hrow. lia.
  - lia.
  - rewrite zip_with_length; rewrite df_length; lia.
Qed.

(** One training step of a single layer with an increasing activation, on
    an example of the cross entropy: the loss at the example drops. *)
Lemma single_layer_step (self : Layer.t) (rate : R) (x : vec) (t : Z) :
  Layer.initialised self ->
  increasing (Layer.act_function self) ->
  0 < rate ->
  (2 <= Layer.outs self)%Z ->
  Z.of_nat (length x) = Layer.ins self ->
  (- Layer.outs self <= t < Layer.outs self)%Z ->
  exists g a b,
    CrossEntropyLoss.dloss (activation self x) (TInt t) = Ok g /\
    length g = length (activation self x) /\
    CrossEntropyLoss.loss (activation self x) (TInt t) = Ok a /\
    CrossEntropyLoss.loss
      (activation (fst (descend rate self x g)) x) (TInt t) = Ok b /\
    b < a.
Proof.
  intros Hi [Hmono Hpos] Hrate Hn Hx Ht.
  pose proof (affine_length self x Hi) as Hy.
  pose proof (activation_length self x Hi) as Hz.
  set (z := activation self x) in *.
  assert (Htz : (- Z.of_nat (length z) <= t < Z.of_nat (length z))%Z)
    by lia.
  destruct (dloss_closed_form z t Htz) as (g & Hg & Hgeq).
  destruct (py_index_valid _ _ Htz) as [_ Hk]. fold (entry z t) in Hk.
  set (k := entry z t) in *. set (p := softmax z) in *.
  assert (Hp : length p = length z) by apply softmax_length.
  assert (Hglen : length g = length z)
    by (rewrite Hgeq; now rewrite set_nth_length).
  assert (Hdx : Z.of_nat (length g) = Layer.outs self) by lia.
  pose proof (descend_initialised rate self x g Hi Hx Hdx)
    as (_ & _ & _ & Hact).
  pose proof (affine_descend rate self x g Hi Hx Hdx) as Haff.
  set (y := affine self x) in *.
  set (a0 := Layer.act_function self) in *.
  set (c := rate * (np.inner x x + 1)) in *.
  assert (Hc : 0 < c).
  { unfold c. pose proof (inner_self_nonneg x).
    apply Rmult_lt_0_compat; lra. }
  assert (Hzy : length z = length y)
    by (unfold z, activation; apply f_length).
  assert (Hzeq : z = map (f1 a0) y) by apply f_pointwise.
  set (db := zip_with Rmult (ActivationFunction.df a0 y) g) in *.
  assert (Hdb : length db = length y)
    by (unfold db; rewrite zip_with_length; rewrite df_length; lia).
  set (y' := zip_with (fun y0 d => y0 - c * d) y db) in *.
  assert (Hy' : length y' = length y)
    by (unfold y'; rewrite zip_with_length; lia).
  assert (Hz' : activation (fst (descend rate self x g)) x = map (f1 a0) y').
  { unfold activation. rewrite Hact, Haff. apply f_pointwise. }
  assert (Hentry : forall i, (i < length y)%nat ->
            nth i y' 0
            = nth i y 0
              - c * (df1 a0 (nth i y 0)
                     * (if Nat.eqb i k then nth k p 0 - 1 else nth i p 0))).
  { intros i Hilt. unfold y'. rewrite nth_zip_with by lia.
    unfold db. rewrite nth_zip_with by (rewrite ?df_length; lia).
    rewrite df_pointwise, nth_map_entry by assumption.
    rewrite Hgeq, nth_set_nth by lia. reflexivity. }
  exists g.
  destruct (cross_entropy_lower z (map (f1 a0) y') t) as (a & b & Ha & Hb & Hlt).
  - assumption.
  - rewrite length_map. lia.
  - lia.
  - fold k. rewrite nth_map_entry by lia.
    rewrite Hzeq, nth_map_entry by lia. apply Hmono.
    rewrite Hentry by lia. rewrite Nat.eqb_refl.
    pose proof (softmax_entry_lt_1 z k ltac:(lia) Hk) as Hpk. fold p in Hpk.
    pose proof (Hpos (nth k y 0)) as Hd.
    assert (0 < c * (df1 a0 (nth k y 0) * (1 - nth k p 0))).
    { apply Rmult_lt_0_compat; [assumption|].
      apply Rmult_lt_0_compat; lra. }
    lra.
  - fold k. intros i Hi' Hik.
    rewrite nth_map_entry by lia.
    rewrite Hzeq, nth_map_entry by lia. apply Hmono.
    rewrite Hentry by lia.
    destruct (Nat.eqb_spec i k) as [E | _]; [contradiction|].
    pose proof (softmax_entry_pos z i Hi') as Hpi. fold p in Hpi.
    pose proof (Hpos (nth i y 0)) as Hd.
    assert (0 < c * (df1 a0 (nth i y 0) * nth i p 0)).
    { apply Rmult_lt_0_compat; [assumption|].
      apply Rmult_lt_0_compat; lra. }
    lra.
  - exists a, b. rewrite Hz'. repeat split; assumption.
Qed.

(** ** Repeated training on one example *)

Lemma loss_after_S (n : nat) (net net' : NeuralNetwork.t) (x : vec)
  (expected : target) :
  NeuralNetwork.train x expected net = (net', Ok tt) ->
  loss_after (S n) net x expected = loss_after n net' x expected.
Proof.
  intros Ht. unfold loss_after. cbn [repeat_train].
  unfold bind at 1 2. now rewrite Ht.
Qed.

Lemma smaller_of_decreasing (net : NeuralNetwork.t) (x : vec)
  (expected : target) :
  strictly_decreasing net x expected ->
  forall n, (1 <= n)%nat -> smaller_after n net x expected.
Proof.
  intros Hdec n Hn. unfold smaller_after.
  induction n as [|n IH]; [lia|].
  destruct (Hdec n) as (a & b & Ha & Hb & Hlt).
  destruct n as [|n].
  - now exists a, b.
  - destruct (IH ltac:(lia)) as (a0 & a' & Ha0 & Ha' & Hlt').
    exists a0, b. repeat split; try assumption.
    rewrite Ha in Ha'. injection Ha' as <-. lra.
Qed.

Lemma measured_loss_single (self : Layer.t) (lf : LossFunction.t)
  (rate : R) (x : vec) (expected : target) :
  Layer.initialised self -> Z.of_nat (length x) = Layer.ins self ->
  measured_loss x expected (NeuralNetwork.mk [self] lf rate)
  = (NeuralNetwork.mk [self] lf rate,
     LossFunction.loss lf (activation self x) expected).
Proof.
  intros Hi Hx. unfold measured_loss, bind.
  rewrite NeuralNetwork_forward_pass_eq.
  cbn [NeuralNetwork._layers feed].
  rewrite Layer_forward_pass_initialised by assumption. reflexivity.
Qed.

Lemma train_single (self : Layer.t) (rate : R) (x g : vec) (t : Z) :
  Layer.initialised self -> Z.of_nat (length x) = Layer.ins self ->
  length g = length (activation self x) ->
  CrossEntropyLoss.dloss (activation self x) (TInt t) = Ok g ->
  NeuralNetwork.train x (TInt t)
    (NeuralNetwork.mk [self] LossFunction.CrossEntropyLoss rate)
  = (NeuralNetwork.mk [fst (descend rate self x g)]
       LossFunction.CrossEntropyLoss rate, Ok tt).
Proof.
  intros Hi Hx Hlen Hg.
  rewrite (train_fits _ x (TInt t) g).
  - simpl. now destruct (descend rate self x g).
  - simpl. auto.
  - exact Hg.
  - exact Hlen.
Qed.

(** The measured losses of a single layer with an increasing activation
    under the cross entropy. *)
Lemma single_layer_decreasing (n : nat) :
  forall (self : Layer.t) (rate : R) (x : vec) (t : Z),
    Layer.initialised self ->
    increasing (Layer.act_function self) ->
    0 < rate ->
    (2 <= Layer.outs self)%Z ->
    Z.of_nat (length x) = Layer.ins self ->
    (- Layer.outs self <= t < Layer.outs self)%Z ->
    exists a b,
      loss_after n
        (NeuralNetwork.mk [self] LossFunction.CrossEntropyLoss rate)
        x (TInt t) = Ok a /\
      loss_after (S n)
        (NeuralNetwork.mk [self] LossFunction.CrossEntropyLoss rate)
        x (TInt t) = Ok b /\
      b < a.
Proof.
  induction n as [|n IH]; intros self rate x t Hi Hinc Hrate Hn Hx Ht;
    destruct (single_layer_step self rate x t Hi Hinc Hrate Hn Hx Ht)
      as (g & a & b & Hg & Hglen & Ha & Hb & Hlt);
    pose proof (train_single self rate x g t Hi Hx Hglen Hg) as Htrain;
    pose proof (activation_length self x Hi) as Hz;
    destruct (descend_initialised rate self x g Hi Hx ltac:(lia))
      as (Hi' & Hins' & Houts' & Hact').
  - exists a, b. rewrite (loss_after_S _ _ _ _ _ Htrain).
    unfold loss_after. cbn [repeat_train].
    unfold ret at 1 2, bind at 1 2.
    rewrite !measured_loss_single by congruence.
    repeat split; assumption.
  - rewrite !(loss_after_S _ _ _ _ _ Htrain).
    apply IH; try assumption; congruence.
Qed.

(** In exact arithmetic: for a network of a single layer with at least
    two outputs and an increasing activation, the cross entropy and a
    positive learning rate, the losses measured between successive calls
    of [train(x, t)] on one example are strictly decreasing, and after 50
    or more calls the loss is below its initial value. Rounding ends any
    such descent: a saturated unit has slope 0, and a loss that has
    reached 0 stays there. *)
Theorem single_layer_loss_decreases (self : Layer.t) (rate : R) (x : vec)
  (t : Z) :
  Layer.initialised self ->
  positive_slope (Layer.act_function self) ->
  0 < rate ->
  (2 <= Layer.outs self)%Z ->
  Z.of_nat (length x) = Layer.ins self ->
  (- Layer.outs self <= t < Layer.outs self)%Z ->
  strictly_decreasing
    (NeuralNetwork.mk [self] LossFunction.CrossEntropyLoss rate)
    x (TInt t) /\
  forall n, (50 <= n)%nat ->
    smaller_after n
      (NeuralNetwork.mk [self] LossFunction.CrossEntropyLoss rate)
      x (TInt t).
Proof.
  intros Hi Hslope Hrate Hn Hx Ht.
  assert (Hdec : strictly_decreasing
            (NeuralNetwork.mk [self] LossFunction.CrossEntropyLoss rate)
            x (TInt t)).
  { intros n. apply single_layer_decreasing; try assumption.
    now apply positive_slope_increasing. }
  split; [assumption|].
  intros n Hn50. apply smaller_of_decreasing; [assumption | lia].
Qed.

Lemma single_layer_loss_decreases_witness :
  strictly_decreasing
    (NeuralNetwork.mk
       [Layer.mk 1 2 ActivationFunction.Sigmoid [[0]; [0]] [0; 0]]
       LossFunction.CrossEntropyLoss (1 / 10))
    [1] (TInt 0) /\
  forall n, (50 <= n)%nat ->
    smaller_after n
      (NeuralNetwork.mk
         [Layer.mk 1 2 ActivationFunction.Sigmoid [[0]; [0]] [0; 0]]
         LossFunction.CrossEntropyLoss (1 / 10))
      [1] (TInt 0).
Proof.
  apply (single_layer_loss_decreases
           (Layer.mk 1 2 ActivationFunction.Sigmoid [[0]; [0]] [0; 0])
           (1 / 10) [1] 0).
  - unfold Layer.initialised; simpl.
    repeat split; try lia. repeat constructor.
  - simpl. exact I.
  - lra.
  - simpl. lia.
  - reflexivity.
  - simpl. lia.
Defined.




(** ** A step that raises the loss *)

Lemma overshoot_output :
  output (NeuralNetwork._layers overshoot) [1] = [0; 0].
Proof. unfold overshoot. evaluate. arrays. Qed.

Lemma overshoot_dloss :
  CrossEntropyLoss.dloss [0; 0] (TInt 0) = Ok [- (1 / 2); 1 / 2].
Proof.
  unfold CrossEntropyLoss.dloss; simpl. rewrite exp_0.
  f_equal. arrays.
Qed.

Lemma overshoot_backprop :
  fst (backprop 4 [- (1 / 2); 1 / 2] (NeuralNetwork._layers overshoot) [1])
  = [Layer.mk 1 1 ActivationFunction.Id [[-3]] [-4];
     Layer.mk 1 2 ActivationFunction.Id [[1]; [-1]] [3; -3]].
Proof.
  unfold overshoot. evaluate.
  apply (f_equal2 cons); [|apply (f_equal2 cons); [|reflexivity]].
  - apply (f_equal2 (Layer.mk 1 1 ActivationFunction.Id)); arrays.
  - apply (f_equal2 (Layer.mk 1 2 ActivationFunction.Id)); arrays.
Qed.

Lemma overshoot_output_after :
  output [Layer.mk 1 1 ActivationFunction.Id [[-3]] [-4];
          Layer.mk 1 2 ActivationFunction.Id [[1]; [-1]] [3; -3]] [1]
  = [-4; 4].
Proof. evaluate. arrays. Qed.

Lemma ln_2_lt_1 : ln 2 < 1.
Proof.
  rewrite <- (ln_exp 1). apply ln_increasing; [lra|].
  pose proof (exp_ineq1 1 ltac:(lra)). lra.
Qed.

Lemma overshoot_train :
  NeuralNetwork.train [1] (TInt 0) overshoot
  = (NeuralNetwork.mk
       [Layer.mk 1 1 ActivationFunction.Id [[-3]] [-4];
        Layer.mk 1 2 ActivationFunction.Id [[1]; [-1]] [3; -3]]
       LossFunction.CrossEntropyLoss 4, Ok tt).
Proof.
  rewrite (train_fits overshoot [1] (TInt 0) [- (1 / 2); 1 / 2]).
  - change (NeuralNetwork.lr overshoot) with 4.
    now rewrite overshoot_backprop.
  - simpl. unfold Layer.initialised; simpl.
    repeat split; try lia; repeat constructor.
  - rewrite overshoot_output. exact overshoot_dloss.
  - now rewrite overshoot_output.
Qed.

Lemma measured_loss_fits (net : NeuralNetwork.t) (x : vec)
  (expected : target) :
  fits (Z.of_nat (length x)) (NeuralNetwork._layers net) ->
  snd (measured_loss x expected net)
  = LossFunction.loss (NeuralNetwork._loss_function net)
      (output (NeuralNetwork._layers net) x) expected.
Proof.
  intros Hfits. unfold measured_loss, bind.
  rewrite NeuralNetwork_forward_pass_eq, feed_fits by assumption.
  reflexivity.
Qed.

(** X1: with two layers the loss can rise, even without nonlinearity: on
    [overshoot], which construction accepts, the cross entropy at the
    example is [ln 2] before a call of [train] and above 8 after it. *)
Theorem overshoot_loss_rises :
  NeuralNetwork.__init__ (NeuralNetwork._layers overshoot)
    LossFunction.CrossEntropyLoss 4 = Ok overshoot /\
  Forall Layer.initialised (NeuralNetwork._layers overshoot) /\
  exists a b,
    loss_after 0 overshoot [1] (TInt 0) = Ok a /\
    loss_after 1 overshoot [1] (TInt 0) = Ok b /\
    a < 1 /\ 8 < b.
Proof.
  split; [reflexivity|]. split; [repeat constructor; simpl; lia|].
  exists (ln 2), (4 + ln (exp (-4) + exp 4)).
  repeat split.
  - unfold loss_after. cbn [repeat_train]. unfold ret at 1, bind at 1.
    rewrite measured_loss_fits.
    + rewrite overshoot_output. cbn [overshoot NeuralNetwork._loss_function
        LossFunction.loss].
      rewrite CrossEntropyLoss_loss_value by (simpl; lia).
      simpl. rewrite exp_0. f_equal.
      replace (1 + (1 + 0)) with 2 by lra. lra.
    + simpl. unfold Layer.initialised; simpl.
      repeat split; try lia; repeat constructor.
  - rewrite (loss_after_S _ _ _ _ _ overshoot_train).
    unfold loss_after. cbn [repeat_train]. unfold ret at 1, bind at 1.
    rewrite measured_loss_fits.
    + cbn [NeuralNetwork._layers NeuralNetwork._loss_function
        LossFunction.loss]. rewrite overshoot_output_after.
      rewrite CrossEntropyLoss_loss_value by (simpl; lia).
      simpl. f_equal.
      replace (exp (-4) + (exp 4 + 0)) with (exp (-4) + exp 4) by lra. lra.
    + simpl. unfold Layer.initialised; simpl.
      repeat split; try lia; repeat constructor.
  - apply ln_2_lt_1.
  - assert (4 < ln (exp (-4) + exp 4)).
    { rewrite <- (ln_exp 4) at 1. apply ln_increasing; [apply exp_pos|].
      pose proof (exp_pos (-4)). lra. }
    lra.
Qed.

(** ** The specification's scenario of two layers *)

Lemma two_layers_fits :
  fits 2 (NeuralNetwork._layers two_layers).
Proof.
  simpl. unfold Layer.initialised; simpl.
  repeat split; try lia; repeat constructor.
Qed.

Lemma two_layers_output :
  output (NeuralNetwork._layers two_layers) [1; 2] = [3].
Proof. unfold two_layers. evaluate. arrays. Qed.

Lemma two_layers_backprop :
  fst (backprop (1 / 10) [-4] (NeuralNetwork._layers two_layers) [1; 2])
  = [Layer.mk 2 2 ActivationFunction.Id
       [[14 / 10; 8 / 10]; [4 / 10; 18 / 10]] [4 / 10; 4 / 10];
     Layer.mk 2 1 ActivationFunction.Id [[14 / 10; 18 / 10]] [4 / 10]].
Proof.
  unfold two_layers. evaluate.
  apply (f_equal2 cons); [|apply (f_equal2 cons); [|reflexivity]].
  - apply (f_equal2 (Layer.mk 2 2 ActivationFunction.Id)); arrays.
  - apply (f_equal2 (Layer.mk 2 1 ActivationFunction.Id)); arrays.
Qed.

Lemma two_layers_train :
  NeuralNetwork.train [1; 2] (TVec [5]) two_layers
  = (NeuralNetwork.mk
       [Layer.mk 2 2 ActivationFunction.Id
          [[14 / 10; 8 / 10]; [4 / 10; 18 / 10]] [4 / 10; 4 / 10];
        Layer.mk 2 1 ActivationFunction.Id [[14 / 10; 18 / 10]] [4 / 10]]
       LossFunction.MSELoss (1 / 10), Ok tt).
Proof.
  rewrite (train_fits two_layers [1; 2] (TVec [5]) [-4]).
  - change (NeuralNetwork.lr two_layers) with (1 / 10).
    now rewrite two_layers_backprop.
  - exact two_layers_fits.
  - rewrite two_layers_output. simpl.
    unfold MSELoss.dloss, MSELoss.diff, broadcast. simpl.
    apply f_equal. arrays.
  - now rewrite two_layers_output.
Qed.

Lemma two_layers_output_after :
  output
    [Layer.mk 2 2 ActivationFunction.Id
       [[14 / 10; 8 / 10]; [4 / 10; 18 / 10]] [4 / 10; 4 / 10];
     Layer.mk 2 1 ActivationFunction.Id [[14 / 10; 18 / 10]] [4 / 10]]
    [1; 2]
  = [1308 / 100].
Proof. evaluate. arrays. Qed.

(** X2: in the specification's scenario of two layers, the forward pass
    of [[1, 2]] is [[3]]; the mean squared error against [[5]] is 4 before
    a call of [train] and 65.2864 after it. *)
Theorem two_layers_loss_rises :
  snd (NeuralNetwork.forward_pass [1; 2] two_layers) = Ok [3] /\
  loss_after 0 two_layers [1; 2] (TVec [5]) = Ok 4 /\
  loss_after 1 two_layers [1; 2] (TVec [5]) = Ok (652864 / 10000).
Proof.
  repeat split.
  - rewrite NeuralNetwork_forward_pass_eq. cbn [snd].
    rewrite feed_fits by exact two_layers_fits.
    now rewrite two_layers_output.
  - unfold loss_after. cbn [repeat_train]. unfold ret at 1, bind at 1.
    rewrite measured_loss_fits by exact two_layers_fits.
    rewrite two_layers_output.
    unfold LossFunction.loss, MSELoss.loss, MSELoss.diff, broadcast, np.mean.
    simpl. f_equal. lra.
  - rewrite (loss_after_S _ _ _ _ _ two_layers_train).
    unfold loss_after. cbn [repeat_train]. unfold ret at 1, bind at 1.
    rewrite measured_loss_fits.
    + cbn [NeuralNetwork._layers NeuralNetwork._loss_function].
      rewrite two_layers_output_after.
      unfold LossFunction.loss, MSELoss.loss, MSELoss.diff, broadcast, np.mean.
      simpl. f_equal. lra.
    + simpl. unfold Layer.initialised; simpl.
      repeat split; try lia; repeat constructor.
Qed.

(** ** What a training step keeps *)

Lemma compatible_of_fits (n : Z) (layers : list Layer.t) :
  fits n layers ->
  Forall Layer.initialised layers /\ ~ adjacent_mismatch layers.
Proof.
  revert n; induction layers as [|l rest IH]; intros n Hfits.
  - split; [constructor | apply adjacent_mismatch_short; simpl; lia].
  - destruct Hfits as (Hi & Hn & Hrest).
    destruct (IH _ Hrest) as [Hall Hadj]. split; [now constructor|].
    destruct rest as [|l2 rest]; [apply adjacent_mismatch_short; simpl; lia|].
    rewrite adjacent_mismatch_cons. destruct Hrest as (_ & Hins & _).
    intros [H | H]; [congruence | contradiction].
Qed.

Lemma backprop_shape (rate : R) (g : vec) (layers : list Layer.t) (x : vec) :
  fits (Z.of_nat (length x)) layers ->
  length g = length (output layers x) ->
  fits (Z.of_nat (length x)) (fst (backprop rate g layers x)) /\
  length (snd (backprop rate g layers x)) = length x /\
  map Layer.ins (fst (backprop rate g layers x)) = map Layer.ins layers /\
  map Layer.outs (fst (backprop rate g layers x)) = map Layer.outs layers /\
  map Layer.act_function (fst (backprop rate g layers x))
  = map Layer.act_function layers.
Proof.
  revert x; induction layers as [|l rest IH]; intros x Hfits Hg.
  - simpl in *. repeat split; auto.
  - destruct Hfits as (Hi & Hn & Hrest).
    cbn [backprop output] in *.
    pose proof (activation_length l x Hi) as Hact.
    destruct (IH (activation l x)) as (IH1 & IH2 & IH3 & IH4 & IH5);
      [now rewrite Hact | assumption |].
    destruct (backprop rate g rest (activation l x)) as [rest' dx].
    cbn [fst snd] in *.
    assert (Hdx : Z.of_nat (length dx) = Layer.outs l) by lia.
    pose proof (descend_initialised rate l x dx Hi (eq_sym Hn) Hdx)
      as (Hi' & Hins' & Houts' & Hact').
    pose proof (descend_dx_length rate l x dx Hi) as Hlen'.
    destruct (descend rate l x dx) as [l' dx'].
    cbn [fst snd map fits] in *.
    repeat split; try congruence; try lia; try apply Hi'.
Qed.

(** The network that [train] leaves on an admissible example. *)
Lemma train_shape (net : NeuralNetwork.t) (x : vec) (expected : target) :
  well_formed net -> accepts net x ->
  admissible (NeuralNetwork._loss_function net)
    (output (NeuralNetwork._layers net) x) expected ->
  snd (NeuralNetwork.train x expected net) = Ok tt /\
  fits (Z.of_nat (length x))
    (NeuralNetwork._layers (fst (NeuralNetwork.train x expected net))) /\
  same_architecture net (fst (NeuralNetwork.train x expected net)).
Proof.
  intros [Hall Hadj] Hacc Hadm.
  pose proof (fits_of_compatible _ _ Hall Hadj Hacc) as Hfits.
  destruct (dloss_admissible _ _ _ Hadm) as (g & Hg & Hlen).
  destruct (backprop_shape (NeuralNetwork.lr net) g _ x Hfits Hlen)
    as (Hfits' & _ & Hins & Houts & Hact).
  rewrite (train_fits net x expected g) by assumption.
  unfold same_architecture.
  cbn [fst snd NeuralNetwork._layers NeuralNetwork._loss_function
       NeuralNetwork.lr].
  repeat split; assumption.
Qed.

Lemma fits_accepts (net : NeuralNetwork.t) (x : vec) :
  fits (Z.of_nat (length x)) (NeuralNetwork._layers net) ->
  well_formed net /\ accepts net x.
Proof.
  intros Hfits. split; [now apply (compatible_of_fits _ _ Hfits)|].
  intros first Hfirst.
  destruct (NeuralNetwork._layers net) as [|l rest]; [discriminate|].
  injection Hfirst as <-. now destruct Hfits as (_ & H & _).
Qed.

(** X3: on a network of initialised, compatible layers, an input of the
    first layer's width and an admissible target, [train] returns
    normally and keeps what made the call legal: the layers it leaves are
    initialised (each [_W] of shape [(outs, ins)], each [_b] of shape
    [(outs, 1)]) and compatible, they accept the same input, and the
    widths, the activation functions, the loss function and the learning
    rate are the ones before the call. So [train] can be called again. *)
Theorem train_keeps_shape (net : NeuralNetwork.t) (x : vec)
  (expected : target) :
  well_formed net -> accepts net x ->
  admissible (NeuralNetwork._loss_function net)
    (output (NeuralNetwork._layers net) x) expected ->
  exists net',
    NeuralNetwork.train x expected net = (net', Ok tt) /\
    well_formed net' /\ accepts net' x /\ same_architecture net net'.
Proof.
  intros Hwf Hacc Hadm.
  destruct (train_shape net x expected Hwf Hacc Hadm)
    as (Hret & Hfits & Hsame).
  destruct (fits_accepts _ x Hfits) as [Hwf' Hacc'].
  exists (fst (NeuralNetwork.train x expected net)).
  repeat split; try assumption; try apply Hwf'; try apply Hsame.
  rewrite <- Hret. now destruct (NeuralNetwork.train x expected net).
Qed.

Lemma two_layers_well_formed : well_formed two_layers.
Proof.
  split; [exact two_layers_initialised|].
  apply compatible_of_check. reflexivity.
Qed.

Lemma two_layers_accepts : accepts two_layers [1; 2].
Proof. intros first H. injection H as <-. reflexivity. Qed.

Lemma train_keeps_shape_witness :
  exists net',
    NeuralNetwork.train [1; 2] (TVec [5]) two_layers = (net', Ok tt) /\
    well_formed net' /\ accepts net' [1; 2] /\
    same_architecture two_layers net'.
Proof.
  apply (train_keeps_shape two_layers [1; 2] (TVec [5])).
  - exact two_layers_well_formed.
  - exact two_layers_accepts.
  - simpl. split; [reflexivity | discriminate].
Defined.

(** ** Exceptions of the forward pass and of a training step *)

Lemma trace_feed (layers : list Layer.t) (x : vec) :
  feed layers x
  = rbind (trace layers x) (fun outs => Ok (last (x :: outs) [])).
Proof.
  revert x; induction layers as [|l rest IH]; intros x; [reflexivity|].
  cbn [feed trace]. destruct (snd (Layer.forward_pass x l)) as [out | e];
    [|reflexivity].
  cbn [rbind]. rewrite IH. destruct (trace rest out) as [outs | e];
    [|reflexivity].
  reflexivity.
Qed.

Lemma trace_fits (layers : list Layer.t) (x : vec) :
  fits (Z.of_nat (length x)) layers ->
  trace layers x = Ok (activations layers x).
Proof.
  revert x; induction layers as [|l rest IH]; intros x; [reflexivity|].
  intros (Hi & Hn & Hrest). cbn [trace activations].
  rewrite Layer_forward_pass_initialised by auto. cbn [snd rbind].
  rewrite IH; [reflexivity|]. now rewrite activation_length.
Qed.

(** The forward sweep of [train] on any layers. *)
Lemma forward_sweep_any (pre layers : list Layer.t) (lf : LossFunction.t)
  (rate : R) (xs : list vec) :
  for_each (seq (length pre) (length layers))
    (fun xs layer =>
       (out <- NeuralNetwork.on_layer layer
                 (Layer.forward_pass (last xs [])) ;;
        ret (xs ++ [out]))%method) xs
    (NeuralNetwork.mk (pre ++ layers) lf rate)
  = (NeuralNetwork.mk (pre ++ layers) lf rate,
     rbind (trace layers (last xs [])) (fun outs => Ok (xs ++ outs))).
Proof.
  revert pre xs; induction layers as [|l layers IH]; intros pre xs.
  - simpl. unfold ret. now rewrite !app_nil_r.
  - cbn [length seq for_each trace].
    assert (Hk : nth_error (pre ++ l :: layers) (length pre) = Some l)
      by (rewrite nth_error_app2, Nat.sub_diag by lia; reflexivity).
    pose proof (on_layer_frame (length pre) (Layer.forward_pass (last xs []))
                  (NeuralNetwork.mk (pre ++ l :: layers) lf rate) l _ Hk
                  (Layer_forward_pass_eq _ l)) as Hstep.
    destruct (snd (Layer.forward_pass (last xs []) l)) as [out | e].
    + erewrite bind_ok
        by (erewrite bind_ok by exact Hstep; unfold ret; reflexivity).
      specialize (IH (pre ++ [l]) (xs ++ [out])).
      rewrite length_app, Nat.add_1_r, <- !app_assoc, last_last in IH.
      etransitivity; [exact IH|]. f_equal. cbn [rbind app].
      destruct (trace layers out) as [outs | e]; cbn [rbind];
        [|reflexivity].
      now rewrite <- app_assoc.
    + erewrite bind_raise; [reflexivity|].
      erewrite bind_raise; [reflexivity | exact Hstep].
Qed.

(** [train] up to its backward loop. *)
Lemma train_unfold (net : NeuralNetwork.t) (x : vec) (expected : target) :
  NeuralNetwork.train x expected net
  = match trace (NeuralNetwork._layers net) x with
    | Raise e => (net, Raise e)
    | Ok outs =>
        match LossFunction.dloss (NeuralNetwork._loss_function net)
                (last (x :: outs) []) expected with
        | Raise e => (net, Raise e)
        | Ok g =>
            (for_each
               (combine (rev (seq 0 (length (NeuralNetwork._layers net))))
                  (rev (removelast (x :: outs))))
               NeuralNetwork.backward_step g ;;; ret tt)%method net
        end
    end.
Proof.
  destruct net as [layers lf rate].
  unfold NeuralNetwork.train, NeuralNetwork.layer_refs.
  unfold attr at 1, bind at 1. cbn [NeuralNetwork._layers].
  pose proof (forward_sweep_any [] layers lf rate [x]) as Hsweep.
  cbn [app length] in Hsweep. change (last [x] []) with x in Hsweep.
  destruct (trace layers x) as [outs | e]; cbn [rbind app] in Hsweep.
  - rewrite (bind_ok _ _ _ _ _ Hsweep).
    unfold attr at 1, bind at 1. cbn [NeuralNetwork._loss_function].
    unfold eval at 1, bind at 1.
    reflexivity.
  - now rewrite (bind_raise _ _ _ _ _ Hsweep).
Qed.

Lemma forward_pass_wrong_width (self : Layer.t) (x : vec) :
  Layer.initialised self -> Z.of_nat (length x) <> Layer.ins self ->
  Layer.forward_pass x self
  = (self, Raise (ValueError "shapes not aligned")).
Proof.
  intros Hi Hx. pose proof (initialised_ncols self Hi) as Hc.
  unfold Layer.forward_pass, bind, attr, eval, np.dot.
  destruct (Nat.eqb_spec (ncols (Layer._W self)) (length x)) as [E|_];
    [lia | reflexivity].
Qed.

(** X4: the forward pass of a network of initialised, compatible layers
    depends on the width of the input only: an input of the width of the
    first layer gives the output of the last layer, any other input
    raises the [ValueError] of [np.dot] in the first layer; the network is
    left as it is in both cases. *)
Theorem forward_pass_width (net : NeuralNetwork.t) (first : Layer.t)
  (x : vec) :
  well_formed net ->
  hd_error (NeuralNetwork._layers net) = Some first ->
  NeuralNetwork.forward_pass x net
  = (net,
     if Z.eqb (Z.of_nat (length x)) (Layer.ins first)
     then Ok (output (NeuralNetwork._layers net) x)
     else Raise (ValueError "shapes not aligned")).
Proof.
  intros [Hall Hadj] Hfirst. rewrite NeuralNetwork_forward_pass_eq.
  f_equal. destruct (Z.eqb_spec (Z.of_nat (length x)) (Layer.ins first))
    as [E | E].
  - apply feed_fits. apply fits_of_compatible; try assumption.
    intros first' H. congruence.
  - destruct (NeuralNetwork._layers net) as [|l rest]; [discriminate|].
    injection Hfirst as ->. inversion Hall; subst.
    cbn [feed]. now rewrite forward_pass_wrong_width.
Qed.

Lemma forward_pass_width_witness :
  NeuralNetwork.forward_pass [1] two_layers
  = (two_layers, Raise (ValueError "shapes not aligned")).
Proof.
  apply (forward_pass_width two_layers
           (Layer.mk 2 2 ActivationFunction.Id [[1; 0]; [0; 1]] [0; 0]) [1]).
  - exact two_layers_well_formed.
  - reflexivity.
Defined.

Lemma dloss_length (lf : LossFunction.t) (values g : vec)
  (expected : target) :
  LossFunction.dloss lf values expected = Ok g ->
  length g = length values \/ length values = 1%nat.
Proof.
  destruct lf; simpl.
  - unfold MSELoss.dloss, MSELoss.diff. destruct expected as [e | i].
    + unfold broadcast.
      destruct (Nat.eqb_spec (length values) (length e)) as [E | _].
      * simpl. intros H; injection H as <-. left.
        now rewrite length_map, zip_with_length.
      * destruct (Nat.eqb_spec (length values) 1) as [E1 | _];
          [now right|].
        destruct (Nat.eqb (length e) 1); simpl; [|discriminate].
        intros H; injection H as <-. left. now rewrite !length_map.
    + simpl. intros H; injection H as <-. left. now rewrite !length_map.
  - unfold CrossEntropyLoss.dloss.
    destruct (CrossEntropyLoss.index _ expected) as [k | e]; simpl;
      [|discriminate].
    intros H; injection H as <-. left.
    unfold np.exp. now rewrite set_nth_length, !length_map.
Qed.

Lemma output_snoc (pre : list Layer.t) (l : Layer.t) (x : vec) :
  output (pre ++ [l]) x = activation l (output pre x).
Proof.
  revert x; induction pre as [|p pre IH]; intros x; simpl; auto.
Qed.

Lemma inputs_snoc (pre : list Layer.t) (l : Layer.t) (x : vec) :
  inputs (pre ++ [l]) x = inputs pre x ++ [output pre x].
Proof.
  revert x; induction pre as [|p pre IH]; intros x; simpl; [reflexivity|].
  now rewrite IH.
Qed.

Lemma fits_snoc (pre : list Layer.t) (l : Layer.t) (x : vec) :
  fits (Z.of_nat (length x)) (pre ++ [l]) ->
  Layer.initialised l /\ Layer.ins l = Z.of_nat (length (output pre x)).
Proof.
  revert x; induction pre as [|p pre IH]; intros x; simpl.
  - intros (Hi & Hn & _). now split.
  - intros (Hi & Hn & Hrest). apply IH.
    now rewrite activation_length.
Qed.

(** The first iteration of the backward loop when the gradient of the
    loss has not the shape of the single output. *)
Lemma backward_step_misshaped (net : NeuralNetwork.t) (k : nat)
  (layer : Layer.t) (x dx : vec) :
  nth_error (NeuralNetwork._layers net) k = Some layer ->
  Layer.initialised layer ->
  Z.of_nat (length x) = Layer.ins layer ->
  Layer.outs layer = 1%Z -> length dx <> 1%nat ->
  NeuralNetwork.backward_step dx (k, x) net
  = (net, Raise (ValueError "shapes not aligned")).
Proof.
  intros Hk Hi Hx Hout Hdx.
  pose proof (affine_length layer x Hi) as Hy.
  pose proof (T_ncols layer Hi) as HT.
  pose proof Hi as (_ & _ & Hr & _ & _). unfold nrows in Hr.
  unfold NeuralNetwork.backward_step.
  rewrite (bind_ok _ _ _ _ _ (on_layer_attr k Layer._W net layer Hk)).
  unfold eval at 1, bind at 1. rewrite dot_initialised by assumption.
  rewrite (bind_ok _ _ _ _ _ (on_layer_attr k Layer._b net layer Hk)).
  unfold eval at 1, bind at 1. rewrite affine_initialised by assumption.
  rewrite (bind_ok _ _ _ _ _
             (on_layer_attr k Layer.act_function net layer Hk)).
  unfold eval at 1, bind at 1. unfold broadcast at 1.
  rewrite df_length.
  replace (length (affine layer x)) with 1%nat by lia.
  destruct (Nat.eqb_spec 1 (length dx)) as [E | _]; [congruence|].
  cbn [Nat.eqb].
  rewrite (bind_ok _ _ _ _ _ (on_layer_attr k Layer._W net layer Hk)).
  unfold eval at 1, bind at 1. unfold np.dot at 1.
  rewrite HT, length_map.
  destruct (Nat.eqb_spec (length (Layer._W layer)) (length dx)) as [E | _];
    [lia | reflexivity].
Qed.

(** X5: on a network of initialised, compatible layers, a call of
    [train] on a column vector [x] of any length and a target that is a
    column vector of any length or an integer is all or nothing: either
    it returns normally and every layer has taken its gradient-descent
    update, or it raises and the network is left exactly as it was. No
    exception leaves some layers updated and others not. (An input that
    is not a column vector is outside this statement.) *)
Theorem train_all_or_nothing (net : NeuralNetwork.t) (x : vec)
  (expected : target) :
  well_formed net ->
  (exists g,
     LossFunction.dloss (NeuralNetwork._loss_function net)
       (output (NeuralNetwork._layers net) x) expected = Ok g /\
     NeuralNetwork.train x expected net
     = (NeuralNetwork.mk
          (fst (backprop (NeuralNetwork.lr net) g
                  (NeuralNetwork._layers net) x))
          (NeuralNetwork._loss_function net) (NeuralNetwork.lr net),
        Ok tt)) \/
  (exists e, NeuralNetwork.train x expected net = (net, Raise e)).
Proof.
  intros [Hall Hadj].
  destruct net as [layers lf rate];
    cbn [NeuralNetwork._layers NeuralNetwork._loss_function
         NeuralNetwork.lr] in *.
  destruct layers as [|l0 rest] eqn:Hlayers.
  - rewrite train_unfold.
    cbn [NeuralNetwork._layers NeuralNetwork._loss_function
         trace last output backprop fst].
    destruct (LossFunction.dloss lf x expected) as [g | e].
    + left. exists g. split; reflexivity.
    + right. now exists e.
  - rewrite <- Hlayers in *.
    destruct (Z.eq_dec (Z.of_nat (length x)) (Layer.ins l0)) as [Hx | Hx].
    + assert (Hfits : fits (Z.of_nat (length x)) layers).
      { apply fits_of_compatible; try assumption.
        rewrite Hlayers. simpl. intros first H. injection H as <-. auto. }
      destruct (LossFunction.dloss lf (output layers x) expected)
        as [g | e] eqn:Hg.
      * destruct (Nat.eq_dec (length g) (length (output layers x)))
          as [Hlen | Hlen].
        -- left. exists g. split; [reflexivity|].
           now apply (train_fits (NeuralNetwork.mk layers lf rate)
                        x expected g).
        -- right. exists (ValueError "shapes not aligned").
           rewrite train_unfold.
           cbn [NeuralNetwork._layers NeuralNetwork._loss_function].
           rewrite trace_fits, last_activations, Hg by assumption.
           destruct (dloss_length _ _ _ _ Hg) as [E | Hone];
             [contradiction|].
           destruct (exists_last (l := layers)) as (pre & l & Hsnoc);
             [congruence|].
           clear Hlayers. subst layers.
           destruct (fits_snoc pre l x Hfits) as [Hi Hin].
           rewrite removelast_activations, inputs_snoc.
           rewrite length_app, seq_app. cbn [length seq Nat.add].
           rewrite rev_combine
             by (rewrite !length_app, length_seq, inputs_length;
                 reflexivity).
           rewrite <- combine_append
             by (now rewrite length_seq, inputs_length).
           cbn [combine]. rewrite rev_app_distr. cbn [rev app for_each].
           assert (Hk : nth_error (pre ++ [l]) (length pre) = Some l)
             by (rewrite nth_error_app2, Nat.sub_diag by lia; reflexivity).
           rewrite output_snoc in Hone, Hlen.
           pose proof (activation_length l (output pre x) Hi) as Hout.
           erewrite bind_raise; [reflexivity|].
           erewrite bind_raise; [reflexivity|].
           apply backward_step_misshaped with (layer := l);
             try assumption; try lia.
      * right. exists e. rewrite train_unfold.
        cbn [NeuralNetwork._layers NeuralNetwork._loss_function].
        now rewrite trace_fits, last_activations, Hg by assumption.
    + right. exists (ValueError "shapes not aligned").
      rewrite train_unfold. cbn [NeuralNetwork._layers].
      rewrite Hlayers in *. cbn [trace]. inversion Hall; subst.
      now rewrite forward_pass_wrong_width.
Qed.

Lemma train_all_or_nothing_witness :
  (exists g,
     LossFunction.dloss LossFunction.MSELoss
       (output (NeuralNetwork._layers two_layers) [1; 2]) (TVec [5]) = Ok g /\
     NeuralNetwork.train [1; 2] (TVec [5]) two_layers
     = (NeuralNetwork.mk
          (fst (backprop (1 / 10) g (NeuralNetwork._layers two_layers)
                  [1; 2]))
          LossFunction.MSELoss (1 / 10),
        Ok tt)) \/
  (exists e,
     NeuralNetwork.train [1; 2] (TVec [5]) two_layers
     = (two_layers, Raise e)).
Proof.
  apply (train_all_or_nothing two_layers [1; 2] (TVec [5])).
  exact two_layers_well_formed.
Defined.

Lemma py_div_1 (n : Z) :
  n <> 0%Z -> py_div 1 n = Return (1 / IZR n).
Proof.
  intros Hn. unfold py_div. now destruct (Z.eqb_spec n 0).
Qed.

Lemma create_weight_matrix_positive {rng : Type}
  (normal : R -> nat -> nat -> rng -> rng * mat) (nrows ncols : Z) (g : rng) :
  (0 < nrows)%Z -> (0 < ncols)%Z ->
  create_weight_matrix rng normal nrows ncols g
  = (fst (normal (1 / IZR (nrows * ncols)) (Z.to_nat nrows) (Z.to_nat ncols) g),
     Return (snd (normal (1 / IZR (nrows * ncols))
                    (Z.to_nat nrows) (Z.to_nat ncols) g))).
Proof.
  intros Hr Hc. unfold create_weight_matrix, sbind, lift.
  rewrite py_div_1 by lia. unfold np_random_normal.
  assert (0 < 1 / IZR (nrows * ncols)).
  { apply Rdiv_lt_0_compat; [lra|]. apply IZR_lt. lia. }
  destruct (Rlt_dec (1 / IZR (nrows * ncols)) 0); [lra|].
  destruct (Z.ltb_spec nrows 0); [lia|].
  destruct (Z.ltb_spec ncols 0); [lia|]. simpl.
  now destruct (normal (1 / IZR (nrows * ncols)) (Z.to_nat nrows)
                  (Z.to_nat ncols) g).
Qed.

Lemma create_weight_matrix_raises {rng : Type}
  (normal : R -> nat -> nat -> rng -> rng * mat) (nrows ncols : Z) (g : rng) :
  ~ ((0 < nrows)%Z /\ (0 < ncols)%Z) ->
  exists e, create_weight_matrix rng normal nrows ncols g = (g, Throw e).
Proof.
  intros Hneg. unfold create_weight_matrix, sbind, lift, py_div.
  destruct (Z.eqb_spec (nrows * ncols) 0) as [E | E]; [eauto|].
  unfold np_random_normal.
  destruct (Rlt_dec (1 / IZR (nrows * ncols)) 0) as [Hs | Hs]; [eauto|].
  destruct (Z.ltb_spec nrows 0); [simpl; eauto|].
  destruct (Z.ltb_spec ncols 0); [simpl; eauto|].
  exfalso. apply Hneg. split; nia.
Qed.

(** X6: [Layer(ins, outs, act_function)] returns a layer exactly when
    both widths are positive, numpy drawing arrays of the shape it is
    asked for: the layer is then initialised ([_W] of shape [(outs, ins)],
    [_b] of shape [(outs, 1)]) and holds the arguments; with a width that
    is zero or negative the constructor raises (the division by zero of
    the scale, or numpy's [ValueError]) before any number is drawn. *)
Theorem Layer_init_positive_widths {rng : Type}
  (normal : R -> nat -> nat -> rng -> rng * mat) (ins outs : Z)
  (act_function : ActivationFunction.t) (g : rng) :
  draws_shape normal ->
  if ((0 <? ins) && (0 <? outs))%Z
  then exists g' layer,
         Layer__init__ rng normal ins outs act_function g
         = (g', Return layer) /\
         Layer.initialised layer /\
         Layer.ins layer = ins /\ Layer.outs layer = outs /\
         Layer.act_function layer = act_function
  else exists e,
         Layer__init__ rng normal ins outs act_function g = (g, Throw e).
Proof.
  intros Hshape.
  destruct (Z.ltb_spec 0 ins) as [Hi | Hi];
    destruct (Z.ltb_spec 0 outs) as [Ho | Ho]; cbn [andb].
  - unfold Layer__init__. unfold sbind at 1.
    rewrite create_weight_matrix_positive by assumption.
    destruct (Hshape (1 / IZR (outs * ins)) (Z.to_nat outs) (Z.to_nat ins) g)
      as [HWr HWc].
    destruct (normal (1 / IZR (outs * ins)) (Z.to_nat outs) (Z.to_nat ins) g)
      as [g1 W]. cbn [fst snd] in *.
    unfold create_bias_vector, sbind, lift. rewrite py_div_1 by lia.
    unfold np_random_normal.
    assert (0 < 1 / IZR outs)
      by (apply Rdiv_lt_0_compat; [lra | now apply IZR_lt]).
    destruct (Rlt_dec (1 / IZR outs) 0); [lra|].
    destruct (Z.ltb_spec outs 0); [lia|]. cbn [orb Z.ltb].
    destruct (Hshape (1 / IZR outs) (Z.to_nat outs) (Z.to_nat 1) g1)
      as [Hbr _].
    destruct (normal (1 / IZR outs) (Z.to_nat outs) (Z.to_nat 1) g1)
      as [g2 b]. cbn [fst snd] in *.
    exists g2. eexists. split; [reflexivity|].
    unfold Layer.initialised, nrows. cbn [Layer.ins Layer.outs Layer._W
      Layer._b Layer.act_function].
    repeat split; try assumption; try lia.
    + eapply Forall_impl; [|exact HWc]. simpl. intros row Hrow. lia.
    + rewrite length_map. lia.
  - destruct (create_weight_matrix_raises normal outs ins g) as [e He];
      [lia|].
    exists e. unfold Layer__init__, sbind. now rewrite He.
  - destruct (create_weight_matrix_raises normal outs ins g) as [e He];
      [lia|].
    exists e. unfold Layer__init__, sbind. now rewrite He.
  - destruct (create_weight_matrix_raises normal outs ins g) as [e He];
      [lia|].
    exists e. unfold Layer__init__, sbind. now rewrite He.
Qed.

Lemma Layer_init_positive_widths_witness :
  exists (g' : unit) layer,
    Layer__init__ unit (fun _ rows cols g => (g, repeat (repeat 0 cols) rows))
      2 3 ActivationFunction.Sigmoid tt
    = (g', Return layer) /\
    Layer.initialised layer /\
    Layer.ins layer = 2%Z /\ Layer.outs layer = 3%Z /\
    Layer.act_function layer = ActivationFunction.Sigmoid.
Proof.
  apply (Layer_init_positive_widths
           (fun _ rows cols (g : unit) => (g, repeat (repeat 0 cols) rows))
           2 3 ActivationFunction.Sigmoid tt).
  intros scale rows cols g. simpl. split.
  - apply repeat_length.
  - apply Forall_forall. intros row Hrow.
    apply repeat_spec in Hrow. subst row. apply repeat_length.
Defined.

(** ** The driver of [mnist.py] *)

Lemma argmax_from_spec (l pre : vec) (best : nat) (top : R) :
  (best < length pre)%nat -> top = nth best pre 0 ->
  (forall j, (j < length pre)%nat -> nth j pre 0 <= top) ->
  (forall j, (j < best)%nat -> nth j pre 0 < top) ->
  let k := mnist.argmax_from best top (length pre) l in
  (k < length (pre ++ l))%nat /\
  (forall j, (j < length (pre ++ l))%nat ->
             nth j (pre ++ l) 0 <= nth k (pre ++ l) 0) /\
  (forall j, (j < k)%nat -> nth j (pre ++ l) 0 < nth k (pre ++ l) 0).
Proof.
  revert pre best top; induction l as [|a l IH]; intros pre best top
    Hbest Htop Hmax Hfirst; cbn [mnist.argmax_from].
  - rewrite app_nil_r. subst top. repeat split; auto.
  - assert (Hlen : length (pre ++ [a]) = S (length pre))
      by (rewrite length_app; simpl; lia).
    assert (Hold : forall j, (j < length pre)%nat ->
                             nth j (pre ++ [a]) 0 = nth j pre 0)
      by (intros j Hj; now apply app_nth1).
    assert (Hnew : nth (length pre) (pre ++ [a]) 0 = a).
    { rewrite app_nth2, Nat.sub_diag by lia. reflexivity. }
    replace (pre ++ a :: l) with ((pre ++ [a]) ++ l)
      by (now rewrite <- app_assoc).
    rewrite <- Hlen.
    destruct (Rlt_dec top a) as [Hlt | Hge].
    + apply IH.
      * lia.
      * now rewrite Hnew.
      * intros j Hj. destruct (Nat.eq_dec j (length pre)) as [-> | Hne].
        -- rewrite Hnew. lra.
        -- rewrite Hold by lia. specialize (Hmax j ltac:(lia)). lra.
      * intros j Hj. rewrite Hold by lia.
        specialize (Hmax j ltac:(lia)). lra.
    + apply IH.
      * lia.
      * now rewrite Hold.
      * intros j Hj. destruct (Nat.eq_dec j (length pre)) as [-> | Hne].
        -- rewrite Hnew. lra.
        -- rewrite Hold by lia. apply Hmax. lia.
      * intros j Hj. rewrite Hold by lia. now apply Hfirst.
Qed.

Lemma argmax_nonempty (out : vec) :
  out <> [] ->
  mnist.argmax out = Return (mnist.argmax_from 0 (hd 0 out) 1 (tl out)).
Proof. destruct out; [congruence | reflexivity]. Qed.

(** X7: on a non-empty output, [argmax] returns an index of the output at
    which the output is largest, and the first such index: every entry
    before it is strictly smaller. *)
Theorem argmax_first_largest (out : vec) :
  out <> [] ->
  exists guess,
    mnist.argmax out = Return guess /\
    (guess < length out)%nat /\
    (forall j, (j < length out)%nat -> nth j out 0 <= nth guess out 0) /\
    (forall j, (j < guess)%nat -> nth j out 0 < nth guess out 0).
Proof.
  intros Hne. eexists. split; [now apply argmax_nonempty|].
  destruct out as [|a l]; [congruence|]. cbn [hd tl].
  apply (argmax_from_spec l [a] 0 a).
  - simpl; lia.
  - reflexivity.
  - intros [|j] Hj; simpl in *; [lra | lia].
  - intros j Hj; lia.
Qed.

Lemma argmax_first_largest_witness :
  exists guess,
    mnist.argmax [1; 3; 2; 3] = Return guess /\
    (guess < length [1; 3; 2; 3])%nat /\
    (forall j, (j < length [1; 3; 2; 3])%nat ->
               nth j [1; 3; 2; 3] 0 <= nth guess [1; 3; 2; 3] 0) /\
    (forall j, (j < guess)%nat ->
               nth j [1; 3; 2; 3] 0 < nth guess [1; 3; 2; 3] 0).
Proof.
  apply (argmax_first_largest [1; 3; 2; 3]). discriminate.
Defined.

Lemma output_nonempty (layers : list Layer.t) (x : vec) :
  fits (Z.of_nat (length x)) layers -> x <> [] -> output layers x <> [].
Proof.
  revert x; induction layers as [|l rest IH]; intros x Hfits Hx; simpl;
    [assumption|].
  destruct Hfits as (Hi & Hn & Hrest).
  pose proof (activation_length l x Hi) as Hlen.
  apply IH; [now rewrite Hlen|].
  destruct Hi as (_ & Ho & _). intros E. rewrite E in Hlen. simpl in Hlen. lia.
Qed.

Lemma valid_row_fits (net : NeuralNetwork.t) (row : list Z) :
  well_formed net -> valid_row net row ->
  fits (Z.of_nat (length (mnist.to_col (tl row))))
    (NeuralNetwork._layers net) /\
  mnist.to_col (tl row) <> [] /\
  mnist.label row = Return (hd 0%Z row).
Proof.
  intros [Hall Hadj] [Hlen Hacc]. unfold mnist.to_col.
  rewrite length_map. split; [|split].
  - now apply fits_of_compatible.
  - destruct row as [|t [|a row]]; simpl in *; try lia. discriminate.
  - destruct row; simpl in *; [lia | reflexivity].
Qed.

Lemma ticks_cons (i n : nat) :
  ticks i (S n)
  = (if Nat.eqb (i mod 1000) 0 then [Z.of_nat i] else []) ++ ticks (S i) n.
Proof.
  unfold ticks. cbn [seq filter].
  now destruct (Nat.eqb (i mod 1000) 0).
Qed.

Lemma progress_eq (i : nat) (w : mnist.world) :
  mnist.progress i w
  = (mnist.mk (mnist.net w)
       (mnist.stdout w
        ++ (if Nat.eqb (i mod 1000) 0 then [Z.of_nat i] else [])),
     Return tt).
Proof.
  unfold mnist.progress. destruct (Nat.eqb (i mod 1000) 0).
  - reflexivity.
  - unfold sret. rewrite app_nil_r. now destruct w.
Qed.

(** The loop of [mnist.test] on rows that the network accepts. *)
Lemma test_loop (data : list (list Z)) :
  forall (i correct : nat) (w : mnist.world),
    well_formed (mnist.net w) ->
    Forall (valid_row (mnist.net w)) data ->
    for_enumerate i data
      (fun correct i test_row =>
         (mnist.progress i ;;~
          t <~ lift (mnist.label test_row) ;;
          let x := mnist.to_col (tl test_row) in
          out <~ mnist.on_net (NeuralNetwork.forward_pass x) ;;
          guess <~ lift (mnist.argmax out) ;;
          sret (if Z.eqb t (Z.of_nat guess)
                then S correct else correct))%script)
      correct w
    = (mnist.mk (mnist.net w) (mnist.stdout w ++ ticks i (length data)),
       Return (correct + length (filter (hit (mnist.net w)) data))%nat).
Proof.
  induction data as [|row data IH]; intros i correct w Hwf Hrows.
  - cbn [for_enumerate length filter]. unfold sret, ticks. simpl.
    rewrite app_nil_r, Nat.add_0_r. now destruct w.
  - inversion Hrows as [|? ? Hrow Hrest]; subst.
    destruct (valid_row_fits _ _ Hwf Hrow) as (Hfits & Hne & Hlabel).
    pose proof (output_nonempty _ _ Hfits Hne) as Hout.
    pose proof (argmax_nonempty _ Hout) as Hguess.
    set (guess := mnist.argmax_from 0 _ 1 _) in Hguess.
    cbn [for_enumerate]. unfold sbind at 1 2. rewrite progress_eq.
    unfold sbind at 1, lift at 1. rewrite Hlabel.
    unfold sbind at 1, mnist.on_net at 1. cbn [mnist.net mnist.stdout].
    rewrite NeuralNetwork_forward_pass_eq, feed_fits by assumption.
    unfold sbind at 1, lift at 1. rewrite Hguess. unfold sret at 1.
    rewrite IH by assumption. cbn [mnist.net mnist.stdout].
    cbn [length]. rewrite ticks_cons, <- app_assoc. f_equal. f_equal.
    cbn [length filter]. unfold hit at 2. rewrite Hguess.
    destruct (Z.eqb (hd 0%Z row) (Z.of_nat guess)); cbn [length]; lia.
Qed.

Lemma filter_length_le {A : Type} (p : A -> bool) (l : list A) :
  (length (filter p l) <= length l)%nat.
Proof.
  induction l as [|a l IH]; simpl; [lia|]. destruct (p a); simpl; lia.
Qed.

(** X8: on a non-empty data set whose rows hold a label and as many
    features as the first layer takes, [test] returns the share of the
    rows whose label is the [argmax] of the network's output, a number
    between 0 and 1; it leaves the network as it is and prints the indices
    that are multiples of 1000, in order. *)
Theorem test_accuracy (test_data : list (list Z)) (w : mnist.world) :
  well_formed (mnist.net w) ->
  Forall (valid_row (mnist.net w)) test_data ->
  test_data <> [] ->
  exists accuracy,
    mnist.test test_data w
    = (mnist.mk (mnist.net w)
         (mnist.stdout w ++ ticks 0 (length test_data)),
       Return accuracy) /\
    accuracy = INR (length (filter (hit (mnist.net w)) test_data))
               / INR (length test_data) /\
    0 <= accuracy <= 1.
Proof.
  intros Hwf Hrows Hne.
  assert (Hn : (0 < length test_data)%nat)
    by (destruct test_data; [congruence | simpl; lia]).
  pose proof (filter_length_le (hit (mnist.net w)) test_data) as Hle.
  eexists. split; [|split; [reflexivity|]].
  - unfold mnist.test, sbind. rewrite test_loop by assumption.
    unfold lift, py_div.
    destruct (Z.eqb_spec (Z.of_nat (length test_data)) 0); [lia|].
    cbn [Nat.add]. now rewrite <- !INR_IZR_INZ.
  - assert (0 < INR (length test_data)) by (now apply lt_0_INR).
    apply le_INR in Hle.
    pose proof (pos_INR (length (filter (hit (mnist.net w)) test_data))).
    split.
    + apply Rmult_le_pos; [assumption|].
      left. now apply Rinv_0_lt_compat.
    + apply (Rmult_le_reg_r (INR (length test_data))); [assumption|].
      unfold Rdiv. rewrite Rmult_assoc, Rinv_l by lra. lra.
Qed.

Lemma test_accuracy_witness :
  exists accuracy,
    mnist.test [[0; 1; 2]%Z] (mnist.mk two_layers [])
    = (mnist.mk two_layers ([] ++ ticks 0 (length [[0; 1; 2]%Z])),
       Return accuracy) /\
    accuracy = INR (length (filter (hit two_layers) [[0; 1; 2]%Z]))
               / INR (length [[0; 1; 2]%Z]) /\
    0 <= accuracy <= 1.
Proof.
  apply (test_accuracy [[0; 1; 2]%Z] (mnist.mk two_layers [])).
  - exact two_layers_well_formed.
  - constructor; [|constructor]. split; [simpl; lia|].
    intros first H. injection H as <-. reflexivity.
  - discriminate.
Defined.

(** ** What [mnist.test] leaves alone *)

Lemma keeps_net_bind {A B : Type} (m : script mnist.world A)
  (k : A -> script mnist.world B) :
  keeps_net m -> (forall a, keeps_net (k a)) -> keeps_net (sbind m k).
Proof.
  intros Hm Hk w. unfold sbind. specialize (Hm w).
  destruct (m w) as [w' [a | e]]; cbn [fst] in *; [|assumption].
  now rewrite Hk.
Qed.

Lemma keeps_net_loop {A B : Type} (l : list A)
  (body : B -> nat -> A -> script mnist.world B) :
  (forall acc i a, keeps_net (body acc i a)) ->
  forall i acc, keeps_net (for_enumerate i l body acc).
Proof.
  intros Hbody. induction l as [|a l IH]; intros i acc; cbn [for_enumerate].
  - now intros w.
  - apply keeps_net_bind; [apply Hbody | intros b; apply IH].
Qed.

Lemma keeps_net_progress (i : nat) : keeps_net (mnist.progress i).
Proof. intros w. now rewrite progress_eq. Qed.

Lemma keeps_net_forward_pass (x : vec) :
  keeps_net (mnist.on_net (NeuralNetwork.forward_pass x)).
Proof.
  intros w. unfold mnist.on_net.
  now rewrite NeuralNetwork_forward_pass_eq.
Qed.

(** X9: [test] never changes the network it is given, whatever the data
    and whether it returns or raises; on an empty data set it raises
    [ZeroDivisionError], the number of rows being the divisor of the
    accuracy. *)
Theorem test_frame :
  (forall (test_data : list (list Z)) (w : mnist.world),
      mnist.net (fst (mnist.test test_data w)) = mnist.net w) /\
  (forall w : mnist.world,
      mnist.test [] w = (w, Throw (ZeroDivisionError "division by zero"))).
Proof.
  split.
  - intros test_data. unfold mnist.test.
    apply keeps_net_bind; [|now intros c w].
    apply keeps_net_loop. intros correct i row.
    apply keeps_net_bind; [apply keeps_net_progress | intros _].
    apply keeps_net_bind; [now intros w | intros t].
    apply keeps_net_bind; [apply keeps_net_forward_pass | intros out].
    apply keeps_net_bind; [now intros w | intros guess]. now intros w.
  - reflexivity.
Qed.

(** ** The training pass of [mnist.py] *)

Lemma last_cons_default {A : Type} (a d : A) (l : list A) :
  last (a :: l) d = last l a.
Proof.
  revert a d; induction l as [|b l IH]; intros a d; [reflexivity|].
  change (last (a :: b :: l) d) with (last (b :: l) d).
  now rewrite (IH b d), (IH b a).
Qed.

Lemma output_length (layers : list Layer.t) (x : vec) :
  fits (Z.of_nat (length x)) layers ->
  Z.of_nat (length (output layers x))
  = last (map Layer.outs layers) (Z.of_nat (length x)).
Proof.
  revert x; induction layers as [|l rest IH]; intros x; [reflexivity|].
  intros (Hi & Hn & Hrest). cbn [output map].
  rewrite last_cons_default, IH by (now rewrite activation_length).
  now rewrite activation_length.
Qed.

Lemma valid_example_same (net net' : NeuralNetwork.t) (row : list Z) :
  well_formed net -> well_formed net' -> same_architecture net net' ->
  valid_example net row -> valid_example net' row.
Proof.
  intros Hwf Hwf' (Hins & Houts & _) [Hrow Hlabel].
  assert (Hrow' : valid_row net' row).
  { destruct Hrow as [Hlen Hacc]. split; [assumption|].
    intros first' Hfirst'.
    destruct (NeuralNetwork._layers net') as [|l' rest'];
      [discriminate|].
    destruct (NeuralNetwork._layers net) as [|l rest]; [discriminate|].
    injection Hfirst' as <-. injection Hins as Hins _.
    rewrite Hins. now apply Hacc. }
  split; [assumption|].
  destruct (valid_row_fits _ _ Hwf Hrow) as (Hfits & _).
  destruct (valid_row_fits _ _ Hwf' Hrow') as (Hfits' & _).
  rewrite (output_length _ _ Hfits) in Hlabel.
  now rewrite (output_length _ _ Hfits'), Houts.
Qed.

Lemma same_architecture_trans (net1 net2 net3 : NeuralNetwork.t) :
  same_architecture net1 net2 -> same_architecture net2 net3 ->
  same_architecture net1 net3.
Proof.
  unfold same_architecture. intros (A1 & A2 & A3 & A4 & A5)
    (B1 & B2 & B3 & B4 & B5). repeat split; congruence.
Qed.

(** The loop of [mnist.train] on valid examples. *)
Lemma train_loop (data : list (list Z)) :
  forall (i : nat) (w : mnist.world),
    well_formed (mnist.net w) ->
    NeuralNetwork._loss_function (mnist.net w)
    = LossFunction.CrossEntropyLoss ->
    Forall (valid_example (mnist.net w)) data ->
    for_enumerate i data
      (fun _ i train_row =>
         (mnist.progress i ;;~
          t <~ lift (mnist.label train_row) ;;
          let x := mnist.to_col (tl train_row) in
          mnist.on_net (NeuralNetwork.train x (TInt t)))%script)
      tt w
    = (mnist.mk (trained (mnist.net w) data)
         (mnist.stdout w ++ ticks i (length data)), Return tt) /\
    well_formed (trained (mnist.net w) data) /\
    same_architecture (mnist.net w) (trained (mnist.net w) data).
Proof.
  induction data as [|row data IH]; intros i w Hwf Hlf Hrows.
  - cbn [for_enumerate length trained fold_left]. unfold sret, ticks.
    simpl. rewrite app_nil_r. split; [now destruct w|].
    split; [assumption|]. now repeat split.
  - inversion Hrows as [|? ? Hrow Hrest]; subst.
    destruct Hrow as [Hrow Hlabel].
    destruct (valid_row_fits _ _ Hwf Hrow) as (Hfits & Hne & Hlab).
    destruct (train_shape (mnist.net w) (mnist.to_col (tl row))
                (TInt (hd 0%Z row)) Hwf)
      as (Hret & Hfits' & Hsame).
    { intros first Hfirst. destruct Hrow as [_ Hacc].
      unfold mnist.to_col. rewrite length_map. now apply Hacc. }
    { rewrite Hlf. exact Hlabel. }
    destruct (fits_accepts _ _ Hfits') as [Hwf' _].
    destruct (NeuralNetwork.train (mnist.to_col (tl row))
                (TInt (hd 0%Z row)) (mnist.net w))
      as [net' r] eqn:Htrain.
    cbn [fst snd] in Hret, Hwf', Hsame. subst r.
    assert (Hlf' : NeuralNetwork._loss_function net'
                   = LossFunction.CrossEntropyLoss).
    { destruct Hsame as (_ & _ & _ & H & _). congruence. }
    assert (Hrest' : Forall (valid_example net') data).
    { eapply Forall_impl; [|exact Hrest].
      intros r Hr. now apply (valid_example_same (mnist.net w)). }
    specialize (IH (S i) (mnist.mk net'
                     (mnist.stdout w
                      ++ (if Nat.eqb (i mod 1000) 0
                          then [Z.of_nat i] else [])))
                  Hwf' Hlf' Hrest').
    cbn [mnist.net mnist.stdout] in IH.
    destruct IH as (IHrun & IHwf & IHsame).
    assert (Htrained : trained (mnist.net w) (row :: data)
                       = trained net' data).
    { unfold trained. cbn [fold_left]. now rewrite Htrain. }
    rewrite Htrained. split; [|split; [assumption|]].
    + cbn [for_enumerate]. unfold sbind at 1 2. rewrite progress_eq.
      unfold sbind at 1, lift at 1. rewrite Hlab.
      unfold mnist.on_net at 1. cbn [mnist.net mnist.stdout].
      rewrite Htrain. rewrite IHrun.
      cbn [length]. now rewrite ticks_cons, <- app_assoc.
    + now apply (same_architecture_trans _ net').
Qed.

(** X10: on a network of initialised, compatible layers with the cross
    entropy, and rows that hold a label which is a class of the output and
    as many features as the first layer takes, [mnist.train] returns
    normally: the network it leaves is the one after [net.train(x, t)] on
    each row in turn, still initialised and compatible and of the same
    architecture, and the indices that are multiples of 1000 have been
    printed, in order. *)
Theorem train_pass (train_data : list (list Z)) (w : mnist.world) :
  well_formed (mnist.net w) ->
  NeuralNetwork._loss_function (mnist.net w)
  = LossFunction.CrossEntropyLoss ->
  Forall (valid_example (mnist.net w)) train_data ->
  mnist.train train_data w
  = (mnist.mk (trained (mnist.net w) train_data)
       (mnist.stdout w ++ ticks 0 (length train_data)), Return tt) /\
  well_formed (trained (mnist.net w) train_data) /\
  same_architecture (mnist.net w) (trained (mnist.net w) train_data).
Proof.
  intros Hwf Hlf Hrows. now apply train_loop.
Qed.

Lemma overshoot_well_formed : well_formed overshoot.
Proof.
  split; [|apply compatible_of_check; reflexivity].
  repeat constructor; simpl; lia.
Qed.

Lemma train_pass_witness :
  mnist.train [[0; 1]%Z] (mnist.mk overshoot [])
  = (mnist.mk (trained overshoot [[0; 1]%Z])
       ([] ++ ticks 0 (length [[0; 1]%Z])), Return tt) /\
  well_formed (trained overshoot [[0; 1]%Z]) /\
  same_architecture overshoot (trained overshoot [[0; 1]%Z]).
Proof.
  apply (train_pass [[0; 1]%Z] (mnist.mk overshoot [])).
  - exact overshoot_well_formed.
  - reflexivity.
  - constructor; [|constructor]. split.
    + split; [simpl; lia|].
      intros first H. injection H as <-. reflexivity.
    + simpl. lia.
Defined.

(** ** Ranges of the activation functions *)

Lemma tanh_bounds (u : R) : -1 < tanh u < 1.
Proof.
  rewrite tanh_quotient.
  pose proof (exp_pos u) as Hu. pose proof (exp_pos (- u)) as Hu'.
  set (a := exp u) in *. set (b := exp (- u)) in *.
  assert (Hq : (a - b) / (a + b) * (a + b) = a - b) by (field; lra).
  split; apply (Rmult_lt_reg_r (a + b)); try lra; rewrite Hq; lra.
Qed.

(** In exact arithmetic the ranges are open where the function has an
    asymptote. *)
Lemma activation_ranges_open (x : vec) :
  Forall (fun v => 0 < v < 1) (Sigmoid.f x) /\
  Forall (fun v => 0 < v <= 1 / 4) (Sigmoid.df x) /\
  Forall (fun v => -1 < v < 1) (Tanh.f x) /\
  Forall (fun v => 0 < v <= 1) (Tanh.df x) /\
  Forall (fun v => - PI / 2 < v < PI / 2) (ArcTan.f x) /\
  Forall (fun v => 0 < v <= 1) (ArcTan.df x) /\
  Forall (fun v => 0 <= v) (LeakyReLU.f ReLU.__init__ x) /\
  Forall (fun v => v = 0 \/ v = 1) (LeakyReLU.df ReLU.__init__ x).
Proof.
  repeat split.
  - apply Forall_map, Forall_forall. intros u _. apply sigmoid_bounds.
  - change (Sigmoid.df x)
      with (ActivationFunction.df ActivationFunction.Sigmoid x).
    rewrite df_pointwise. apply Forall_map, Forall_forall. intros u _.
    cbn [df1]. pose proof (sigmoid_bounds u) as [H0 H1].
    set (s := 1 / (1 + exp (- u))) in *. split; [nra|].
    assert (0 <= (s - 1 / 2) * (s - 1 / 2)) by apply Rle_0_sqr. lra.
  - apply Forall_map, Forall_forall. intros u _. apply tanh_bounds.
  - unfold Tanh.df, Tanh.f. rewrite map_map.
    apply Forall_map, Forall_forall. intros u _.
    split; [apply tanh_square_lt_1|].
    pose proof (pow2_ge_0 (tanh u)). lra.
  - apply Forall_map, Forall_forall. intros u _. apply atan_bound.
  - apply Forall_map, Forall_forall. intros u _.
    pose proof (pow2_ge_0 u) as Hu. split.
    + apply Rdiv_lt_0_compat; lra.
    + apply (Rmult_le_reg_r (1 + u ^ 2)); [lra|].
      unfold Rdiv. rewrite Rmult_assoc, Rinv_l by lra. lra.
  - apply Forall_map, Forall_forall. intros u _.
    cbn [LeakyReLU.alpha ReLU.__init__].
    eapply Rle_trans; [|apply Rmax_r]. simpl. lra.
  - apply Forall_map, Forall_forall. intros u _. simpl. unfold Rgtb.
    destruct (Rlt_dec 0 u); simpl.
    + right. apply Rmax_left. lra.
    + left. apply Rmax_left. lra.
Qed.

(** X11: the ranges of the activations without a parameter. Every entry
    of [Sigmoid.f] is between 0 and 1 and every entry of [Sigmoid.df]
    between 0 and 1/4; every entry of [Tanh.f] is between -1 and 1 and
    every entry of [Tanh.df] between 0 and 1; every entry of [ArcTan.f]
    is between -pi/2 and pi/2 and every entry of [ArcTan.df] between 0
    and 1; every entry of [ReLU().f] is at least 0 and every entry of
    [ReLU().df] is 0 or 1. The bounds themselves are included: rounding
    reaches them. *)
Theorem activation_ranges (x : vec) :
  Forall (fun v => 0 <= v <= 1) (Sigmoid.f x) /\
  Forall (fun v => 0 <= v <= 1 / 4) (Sigmoid.df x) /\
  Forall (fun v => -1 <= v <= 1) (Tanh.f x) /\
  Forall (fun v => 0 <= v <= 1) (Tanh.df x) /\
  Forall (fun v => - PI / 2 <= v <= PI / 2) (ArcTan.f x) /\
  Forall (fun v => 0 <= v <= 1) (ArcTan.df x) /\
  Forall (fun v => 0 <= v) (LeakyReLU.f ReLU.__init__ x) /\
  Forall (fun v => v = 0 \/ v = 1) (LeakyReLU.df ReLU.__init__ x).
Proof.
  destruct (activation_ranges_open x)
    as (Hs & Hds & Ht & Hdt & Ha & Hda & Hr & Hdr).
  repeat split; try assumption;
    match goal with
    | H : Forall _ ?l |- Forall _ ?l =>
        eapply Forall_impl; [|exact H]; cbv beta; intros v Hv; lra
    end.
Qed.

(** ** The mean squared error at its minimum *)

Lemma sum_squares_zero (d : vec) :
  np.sum (map (fun a => a ^ 2) d) = 0 -> Forall (fun a => a = 0) d.
Proof.
  induction d as [|a d IH]; [constructor|]. intros H.
  assert (Hd : 0 <= np.sum (map (fun a => a ^ 2) d)).
  { apply sum_nonneg, Forall_map, Forall_forall. intros b _.
    apply pow2_ge_0. }
  pose proof (pow2_ge_0 a) as Ha.
  change (a ^ 2 + np.sum (map (fun a => a ^ 2) d) = 0) in H.
  constructor.
  - assert (Hz : a ^ 2 = 0) by lra. simpl in Hz. nra.
  - apply IH. lra.
Qed.

Lemma zip_minus_zero (u v : vec) :
  length u = length v ->
  (Forall (fun a => a = 0) (zip_with Rminus u v) <-> u = v).
Proof.
  revert v; induction u as [|a u IH]; intros [|b v] Hlen; simpl in *;
    try discriminate.
  - split; [reflexivity | constructor].
  - injection Hlen as Hlen. split.
    + intros H. inversion H; subst. f_equal; [lra | now apply IH].
    + intros H. injection H as -> ->. constructor; [lra | now apply IH].
Qed.

Lemma sum_squares_of_zeros (d : vec) :
  Forall (fun a => a = 0) d -> np.sum (map (fun a => a ^ 2) d) = 0.
Proof.
  induction 1 as [|a d Ha _ IH]; [reflexivity|].
  change (a ^ 2 + np.sum (map (fun a => a ^ 2) d) = 0).
  rewrite IH, Ha. lra.
Qed.

Lemma scaled_zero (n : R) (d : vec) (A : Type) (vs : list A) :
  0 < n -> length d = length vs ->
  (map (fun a => 2 * a / n) d = map (fun _ => 0) vs
   <-> Forall (fun a => a = 0) d).
Proof.
  intros Hn. revert vs; induction d as [|a d IH]; intros [|v vs] Hlen;
    simpl in *; try discriminate.
  - split; [constructor | reflexivity].
  - injection Hlen as Hlen. split.
    + intros H. injection H as Ha H. constructor; [|now apply (IH vs)].
      apply (Rmult_eq_compat_r n) in Ha.
      unfold Rdiv in Ha. rewrite Rmult_assoc, Rinv_l in Ha by lra. lra.
    + intros H. inversion H as [|? ? Ha Hd]; subst. f_equal.
      * unfold Rdiv. lra.
      * now apply IH.
Qed.

(** X13: for a target of the shape of a non-empty output, the mean
    squared error is 0 exactly when the output is the target, and so is
    its gradient: [loss] returns 0 if and only if [values = expected], and
    [dloss] returns the zero vector if and only if
    [values = expected]. *)
Theorem mse_zero_iff (values e : vec) :
  length e = length values -> values <> [] ->
  (MSELoss.loss values (TVec e) = Ok 0 <-> values = e) /\
  (MSELoss.dloss values (TVec e) = Ok (map (fun _ => 0) values)
   <-> values = e).
Proof.
  intros Hlen Hne.
  assert (Hn : 0 < INR (length values)).
  { apply lt_0_INR. destruct values; [congruence | simpl; lia]. }
  unfold MSELoss.loss, MSELoss.dloss, MSELoss.diff.
  rewrite broadcast_same by congruence. cbn [rbind].
  rewrite <- (zip_minus_zero values e) by congruence.
  set (d := zip_with Rminus values e).
  assert (Hd : length d = length values)
    by (unfold d; rewrite zip_with_length; congruence).
  split.
  - unfold np.mean. rewrite length_map, Hd. split.
    + intros H0.
      assert (H : np.sum (map (fun a => a ^ 2) d) / INR (length values) = 0)
        by congruence.
      apply sum_squares_zero.
      apply (Rmult_eq_compat_r (INR (length values))) in H.
      unfold Rdiv in H. rewrite Rmult_assoc, Rinv_l in H by lra. lra.
    + intros H. rewrite (sum_squares_of_zeros d H). f_equal.
      unfold Rdiv. lra.
  - rewrite <- (scaled_zero (INR (length values)) d R values Hn Hd).
    split; [now intros H; injection H | now intros ->].
Qed.

Lemma mse_zero_iff_witness :
  (MSELoss.loss [1; 2] (TVec [1; 2]) = Ok 0 <-> [1; 2] = [1; 2]) /\
  (MSELoss.dloss [1; 2] (TVec [1; 2]) = Ok (map (fun _ => 0) [1; 2])
   <-> [1; 2] = [1; 2]).
Proof.
  apply (mse_zero_iff [1; 2] [1; 2]).
  - reflexivity.
  - discriminate.
Defined.

(** ** Derivatives *)

Lemma derivative_value (f : R -> R) (x l l' : R) :
  derivable_pt_lim f x l -> l = l' -> derivable_pt_lim f x l'.
Proof. now intros H <-. Qed.

Lemma derivative_identity (x : R) : derivable_pt_lim (fun u => u) x 1.
Proof. exact (derivable_pt_lim_id x). Qed.

Lemma derivative_sigmoid (x : R) :
  derivable_pt_lim (fun u => 1 / (1 + exp (- u))) x
    (1 / (1 + exp (- x)) * (1 - 1 / (1 + exp (- x)))).
Proof.
  pose proof (exp_pos (- x)) as He.
  assert (Hden : derivable_pt_lim
                   (fct_cte 1 + comp exp (- id))%F x (0 + exp (- x) * - 1)).
  { apply derivable_pt_lim_plus; [apply derivable_pt_lim_const|].
    apply derivable_pt_lim_comp.
    - apply derivable_pt_lim_opp, derivable_pt_lim_id.
    - apply derivable_pt_lim_exp. }
  pose proof (derivable_pt_lim_div (fct_cte 1) _ x _ _
                (derivable_pt_lim_const 1 x) Hden) as H.
  unfold plus_fct, fct_cte, comp, opp_fct, id in H.
  specialize (H ltac:(lra)).
  eapply derivative_value.
  - eapply derivable_pt_lim_ext; [|exact H]. reflexivity.
  - unfold Rsqr. field. lra.
Qed.

Lemma cosh_pos (x : R) : 0 < cosh x.
Proof.
  unfold cosh. pose proof (exp_pos x). pose proof (exp_pos (- x)). lra.
Qed.

Lemma derivative_tanh (x : R) : derivable_pt_lim tanh x (1 - tanh x ^ 2).
Proof.
  pose proof (cosh_pos x) as Hc.
  pose proof (derivable_pt_lim_div sinh cosh x _ _
                (derivable_pt_lim_sinh x) (derivable_pt_lim_cosh x)
                ltac:(lra)) as H.
  eapply derivative_value.
  - eapply derivable_pt_lim_ext; [|exact H]. reflexivity.
  - unfold tanh, Rsqr. field. lra.
Qed.

Lemma derivative_arctan (x : R) :
  derivable_pt_lim atan x (1 / (1 + x ^ 2)).
Proof.
  eapply derivative_value; [apply derivable_pt_lim_atan|].
  unfold Rdiv. lra.
Qed.

Lemma derivative_scaled (c x : R) : derivable_pt_lim (fun u => u * c) x c.
Proof.
  eapply derivative_value.
  - apply (derivable_pt_lim_scal_right id x 1 c), derivable_pt_lim_id.
  - lra.
Qed.

Lemma derivative_elu_left (alpha x : R) :
  derivable_pt_lim (fun u => alpha * (exp u - 1)) x (alpha * exp x).
Proof.
  assert (H : derivable_pt_lim (exp - fct_cte 1)%F x (exp x - 0)).
  { apply derivable_pt_lim_minus;
      [apply derivable_pt_lim_exp | apply derivable_pt_lim_const]. }
  apply (derivable_pt_lim_scal _ alpha) in H.
  eapply derivative_value.
  - eapply derivable_pt_lim_ext; [|exact H]. reflexivity.
  - lra.
Qed.

Lemma df1_derivative (a : ActivationFunction.t) (x : R) :
  differentiable_at a x -> derivable_pt_lim (f1 a) x (df1 a x).
Proof.
  destruct a as [| e | e | | |]; cbn [differentiable_at f1 df1].
  - intros _. apply derivative_identity.
  - intros [Ha Hx]. unfold Rgeb, Rltb.
    pose proof (exp_pos x) as He.
    destruct (Rlt_dec x 0) as [Hneg | Hpos].
    + destruct (Rle_dec 0 x); [lra|]. simpl.
      rewrite Rmult_1_r, Rmax_right by (apply Rmult_le_pos; lra).
      apply (derivable_pt_lim_locally_ext
               (fun u => ELU.alpha e * (exp u - 1)) _ x (x - 1) 0);
        [lra | | apply derivative_elu_left].
      intros z Hz. cbn [f1]. unfold Rgtb.
      destruct (Rlt_dec 0 z); [lra | reflexivity].
    + destruct (Rle_dec 0 x); [|lra]. simpl.
      rewrite Rmult_0_r, Rmult_0_l, Rmax_left by lra.
      apply (derivable_pt_lim_locally_ext (fun u => u) _ x 0 (x + 1));
        [lra | | apply derivative_identity].
      intros z Hz. cbn [f1]. unfold Rgtb.
      destruct (Rlt_dec 0 z); [reflexivity | lra].
  - intros [Ha Hx]. unfold Rgtb.
    destruct (Rlt_dec 0 x) as [Hpos | Hneg]; simpl.
    + rewrite Rmax_left by lra.
      apply (derivable_pt_lim_locally_ext (fun u => u) _ x 0 (x + 1));
        [lra | | apply derivative_identity].
      intros z Hz. cbn [f1]. symmetry. apply Rmax_left. nra.
    + rewrite Rmax_right by lra.
      apply (derivable_pt_lim_locally_ext
               (fun u => u * LeakyReLU.alpha e) _ x (x - 1) 0);
        [lra | | apply derivative_scaled].
      intros z Hz. cbn [f1]. symmetry. apply Rmax_right. nra.
  - intros _. apply derivative_sigmoid.
  - intros _. apply derivative_tanh.
  - intros _. apply derivative_arctan.
Qed.

(** X14: [df] is the derivative of [f], entry by entry: the [i]-th entry
    of [f(x)], as a function of the [i]-th entry of [x], has at [x] the
    derivative that [df(x)] holds at [i]. This is so at every point for
    [Id], [Sigmoid], [Tanh] and [ArcTan], and away from 0 for [ELU] with
    [alpha >= 0] and [LeakyReLU] with [0 <= alpha <= 1] ([ReLU]
    included). *)
Theorem df_is_derivative (a : ActivationFunction.t) (x : vec) (i : nat) :
  (i < length x)%nat -> differentiable_at a (nth i x 0) ->
  derivable_pt_lim
    (fun u => nth i (ActivationFunction.f a (set_nth i u x)) 0)
    (nth i x 0)
    (nth i (ActivationFunction.df a x) 0).
Proof.
  intros Hi Hd.
  rewrite df_pointwise, nth_map_entry by assumption.
  apply (derivable_pt_lim_ext (f1 a)); [|now apply df1_derivative].
  intros u. rewrite f_pointwise.
  rewrite nth_map_entry by (now rewrite set_nth_length).
  now rewrite nth_set_nth, Nat.eqb_refl.
Qed.

Lemma df_is_derivative_witness :
  derivable_pt_lim
    (fun u => nth 1 (ActivationFunction.f
                       (ActivationFunction.LeakyReLU ReLU.__init__)
                       (set_nth 1 u [1; -2])) 0)
    (nth 1 [1; -2] 0)
    (nth 1 (ActivationFunction.df
              (ActivationFunction.LeakyReLU ReLU.__init__) [1; -2]) 0).
Proof.
  apply (df_is_derivative (ActivationFunction.LeakyReLU ReLU.__init__)
           [1; -2] 1).
  - simpl. lia.
  - simpl. lra.
Defined.

(** ** Gradients of the losses *)

Lemma zip_with_set_nth (op : R -> R -> R) (i : nat) (u : R) (v e : vec) :
  length e = length v -> (i < length v)%nat ->
  zip_with op (set_nth i u v) e
  = set_nth i (op u (nth i e 0)) (zip_with op v e).
Proof.
  revert i e; induction v as [|a v IH]; intros [|i] [|b e] Hlen Hi;
    simpl in *; try discriminate; try lia; [reflexivity|].
  f_equal. apply IH; lia.
Qed.

Lemma map_set_nth (h : R -> R) (i : nat) (u : R) (v : vec) :
  map h (set_nth i u v) = set_nth i (h u) (map h v).
Proof.
  revert i; induction v as [|a v IH]; intros [|i]; simpl; try reflexivity.
  now rewrite IH.
Qed.

Lemma MSELoss_loss_along (v e : vec) (i : nat) (u : R) :
  length e = length v -> (i < length v)%nat ->
  loss_along LossFunction.MSELoss v (TVec e) i u
  = (np.sum (map (fun a => a ^ 2) (zip_with Rminus v e))
     - (nth i v 0 - nth i e 0) ^ 2 + (u - nth i e 0) ^ 2) / INR (length v).
Proof.
  intros Hlen Hi.
  unfold loss_along, loss_of, LossFunction.loss, MSELoss.loss, MSELoss.diff.
  rewrite broadcast_same by (now rewrite set_nth_length).
  cbn [rbind]. unfold np.mean.
  rewrite zip_with_set_nth, map_set_nth by assumption.
  rewrite set_nth_length, length_map, zip_with_length by auto.
  rewrite sum_set_nth by (now rewrite length_map, zip_with_length by auto).
  rewrite nth_map_entry by (now rewrite zip_with_length by auto).
  rewrite nth_zip_with by auto.
  reflexivity.
Qed.

Lemma derivative_square (K e n x : R) :
  n <> 0 ->
  derivable_pt_lim (fun u => (K + (u - e) ^ 2) / n) x (2 * (x - e) / n).
Proof.
  intros Hn.
  assert (Hd : derivable_pt_lim (id - fct_cte e)%F x (1 - 0)).
  { apply derivable_pt_lim_minus;
      [apply derivable_pt_lim_id | apply derivable_pt_lim_const]. }
  pose proof (derivable_pt_lim_mult _ _ x _ _ Hd Hd) as Hm.
  pose proof (derivable_pt_lim_plus _ _ x _ _
                (derivable_pt_lim_const K x) Hm) as Hp.
  apply (derivable_pt_lim_scal _ (/ n)) in Hp.
  eapply derivative_value.
  - eapply derivable_pt_lim_ext; [|exact Hp].
    intros u. unfold mult_real_fct, plus_fct, mult_fct, minus_fct, fct_cte, id.
    field. exact Hn.
  - unfold minus_fct, fct_cte, id. field. exact Hn.
Qed.

Lemma CrossEntropyLoss_loss_along (z : vec) (t : Z) (i : nat) (u : R) :
  (- Z.of_nat (length z) <= t < Z.of_nat (length z))%Z ->
  (i < length z)%nat ->
  loss_along LossFunction.CrossEntropyLoss z (TInt t) i u
  = - (if Nat.eqb (entry z t) i then u else nth (entry z t) z 0)
    + ln (np.sum (np.exp z) - exp (nth i z 0) + exp u).
Proof.
  intros Ht Hi.
  assert (Ht' : (- Z.of_nat (length (set_nth i u z)) <= t
                 < Z.of_nat (length (set_nth i u z)))%Z)
    by now rewrite set_nth_length.
  unfold loss_along, loss_of, LossFunction.loss.
  rewrite (CrossEntropyLoss_loss_value _ _ Ht').
  unfold entry. rewrite set_nth_length. fold (entry z t).
  destruct (py_index_valid _ _ Ht) as [_ Hk]. fold (entry z t) in Hk.
  rewrite nth_set_nth by assumption.
  unfold np.exp. rewrite map_set_nth.
  rewrite sum_set_nth by now rewrite length_map.
  rewrite nth_map_entry by assumption.
  reflexivity.
Qed.

Lemma derivative_log_sum (B x : R) :
  0 < B + exp x ->
  derivable_pt_lim (fun u => ln (B + exp u)) x (exp x / (B + exp x)).
Proof.
  intros Hpos.
  assert (Hin : derivable_pt_lim (fct_cte B + exp)%F x (0 + exp x)).
  { apply derivable_pt_lim_plus;
      [apply derivable_pt_lim_const | apply derivable_pt_lim_exp]. }
  pose proof (derivable_pt_lim_comp _ ln x _ _ Hin
                (derivable_pt_lim_ln _ Hpos)) as H.
  eapply derivative_value.
  - eapply derivable_pt_lim_ext; [|exact H]. reflexivity.
  - unfold plus_fct, fct_cte. field. lra.
Qed.

Lemma derivative_cross_entropy (same : bool) (c B x : R) :
  0 < B + exp x ->
  derivable_pt_lim (fun u => - (if same then u else c) + ln (B + exp u)) x
    (exp x / (B + exp x) - (if same then 1 else 0)).
Proof.
  intros Hpos.
  assert (Hl : derivable_pt_lim (fun u => if same then u else c) x
                 (if same then 1 else 0)).
  { destruct same; [apply derivable_pt_lim_id | apply derivable_pt_lim_const]. }
  pose proof (derivable_pt_lim_plus _ _ x _ _
                (derivable_pt_lim_opp _ x _ Hl)
                (derivative_log_sum B x Hpos)) as H.
  eapply derivative_value.
  - eapply derivable_pt_lim_ext; [|exact H]. reflexivity.
  - lra.
Qed.

(** X15: [dloss] is the gradient of [loss]: for a target that the loss
    function is meant for (a vector of the shape of the non-empty output
    for the mean squared error, a valid class index for the cross
    entropy), the loss as a function of the [i]-th entry of [values] has
    at [values] the derivative that [dloss(values, expected)] holds at
    [i]. *)
Theorem dloss_is_gradient (lf : LossFunction.t) (values : vec)
  (expected : target) (g : vec) (i : nat) :
  admissible lf values expected ->
  LossFunction.dloss lf values expected = Ok g ->
  (i < length values)%nat ->
  derivable_pt_lim (loss_along lf values expected i)
    (nth i values 0) (nth i g 0).
Proof.
  destruct lf, expected as [e | t]; cbn [admissible]; try contradiction.
  - intros [Hlen Hne] Hg Hi.
    cbn [LossFunction.dloss] in Hg. unfold MSELoss.dloss, MSELoss.diff in Hg.
    rewrite broadcast_same in Hg by auto. cbn [rbind] in Hg.
    assert (Hgv : g = map (fun a => 2 * a / INR (length values))
                        (zip_with Rminus values e)) by congruence.
    rewrite Hgv, nth_map_entry by (now rewrite zip_with_length by auto).
    rewrite nth_zip_with by auto.
    assert (Hn : INR (length values) <> 0).
    { apply not_0_INR. destruct values; [congruence | discriminate]. }
    eapply derivable_pt_lim_ext;
      [| apply (derivative_square
                  (np.sum (map (fun a => a ^ 2) (zip_with Rminus values e))
                   - (nth i values 0 - nth i e 0) ^ 2)
                  (nth i e 0) _ _ Hn)].
    intros u. symmetry. now apply MSELoss_loss_along.
  - intros Ht Hg Hi.
    destruct (dloss_closed_form values t Ht) as (d & Hd & Hdv).
    cbn [LossFunction.dloss] in Hg.
    assert (Hgv : g = d) by congruence. subst g d.
    destruct (py_index_valid _ _ Ht) as [_ Hk]. fold (entry values t) in Hk.
    pose proof (valid_index_nonempty _ _ Ht) as Hne.
    pose proof (sum_exp_pos values Hne) as Hs.
    rewrite nth_set_nth by now rewrite softmax_length.
    unfold softmax.
    assert (Hpos : 0 < np.sum (np.exp values) - exp (nth i values 0)
                       + exp (nth i values 0)) by lra.
    eapply derivative_value.
    + eapply derivable_pt_lim_ext;
        [| apply (derivative_cross_entropy (Nat.eqb (entry values t) i)
                    (nth (entry values t) values 0) _ _ Hpos)].
      intros u. symmetry.
      now rewrite CrossEntropyLoss_loss_along by assumption.
    + rewrite Nat.eqb_sym.
      destruct (Nat.eqb_spec i (entry values t)) as [-> | _].
      * rewrite nth_map_entry by assumption. unfold np.exp in *. field. lra.
      * rewrite nth_map_entry by assumption. unfold np.exp in *. field. lra.
Qed.

Lemma dloss_is_gradient_witness :
  derivable_pt_lim
    (loss_along LossFunction.MSELoss [3; 1] (TVec [5; 1]) 0)
    (nth 0 [3; 1] 0)
    (nth 0 [2 * (3 - 5) / INR 2; 2 * (1 - 1) / INR 2] 0).
Proof.
  apply (dloss_is_gradient LossFunction.MSELoss [3; 1] (TVec [5; 1])
           [2 * (3 - 5) / INR 2; 2 * (1 - 1) / INR 2] 0).
  - simpl. split; [reflexivity | discriminate].
  - reflexivity.
  - simpl. lia.
Defined.

(** ** Sums over the entries *)

Lemma entries (v : vec) :
  v = map (fun i => nth i v 0) (seq 0 (length v)).
Proof.
  induction v as [|a v IH]; [reflexivity|].
  cbn [length seq map nth]. f_equal.
  rewrite <- seq_shift, map_map. exact IH.
Qed.

Lemma zip_with_entries (op : R -> R -> R) (u v : vec) :
  length u = length v ->
  zip_with op u v
  = map (fun i => op (nth i u 0) (nth i v 0)) (seq 0 (length u)).
Proof.
  revert v; induction u as [|a u IH]; intros [|b v] Hlen;
    try discriminate; [reflexivity|].
  injection Hlen as Hlen. cbn [zip_with length seq map nth]. f_equal.
  rewrite <- seq_shift, map_map. now apply IH.
Qed.

Lemma inner_entries (u v : vec) :
  length u = length v ->
  np.inner u v
  = np.sum (map (fun i => nth i u 0 * nth i v 0) (seq 0 (length u))).
Proof. intros Hlen. unfold np.inner. now rewrite zip_with_entries. Qed.

Lemma sum_map_ext (F G : nat -> R) (l : list nat) :
  (forall i, In i l -> F i = G i) ->
  np.sum (map F l) = np.sum (map G l).
Proof.
  intros Hext. f_equal. apply map_ext_in. exact Hext.
Qed.

Lemma sum_map_plus (F G : nat -> R) (l : list nat) :
  np.sum (map (fun i => F i + G i) l) = np.sum (map F l) + np.sum (map G l).
Proof. induction l as [|i l IH]; simpl; [lra | rewrite IH; lra]. Qed.

Lemma sum_map_scal (a : R) (F : nat -> R) (l : list nat) :
  np.sum (map (fun i => a * F i) l) = a * np.sum (map F l).
Proof. induction l as [|i l IH]; simpl; [lra | rewrite IH; lra]. Qed.

Lemma derivative_sum (F : nat -> R -> R) (D : nat -> R) (x0 : R)
  (l : list nat) :
  (forall i, In i l -> derivable_pt_lim (F i) x0 (D i)) ->
  derivable_pt_lim (fun u => np.sum (map (fun i => F i u) l)) x0
    (np.sum (map D l)).
Proof.
  induction l as [|i l IH]; intros HF; cbn [map np.sum fold_right].
  - apply derivable_pt_lim_const.
  - apply (derivable_pt_lim_plus (F i)
             (fun u => np.sum (map (fun j => F j u) l))).
    + apply HF. now left.
    + apply IH. intros j Hj. apply HF. now right.
Qed.

Lemma in_seq_lt (i n : nat) : In i (seq 0 n) -> (i < n)%nat.
Proof. rewrite in_seq. lia. Qed.

(** ** Curves through a layer *)

Lemma inner_tangent (n : nat) (row : vec) (c : R -> vec) (x0 : R)
  (d : vec) :
  tangent n c x0 d -> length row = n ->
  derivable_pt_lim (fun u => np.inner row (c u)) x0 (np.inner row d).
Proof.
  intros (Hc & Hd & Hder) Hrow.
  rewrite inner_entries by congruence.
  apply (derivable_pt_lim_ext
           (fun u => np.sum (map (fun i => nth i row 0 * nth i (c u) 0)
                               (seq 0 (length row))))).
  - intros u. symmetry. apply inner_entries. now rewrite Hc.
  - apply (derivative_sum (fun i u => nth i row 0 * nth i (c u) 0)
             (fun i => nth i row 0 * nth i d 0)).
    intros i Hi. apply in_seq_lt in Hi.
    apply (derivable_pt_lim_scal (fun u => nth i (c u) 0)).
    apply Hder. lia.
Qed.

Lemma nth_matvec (W : mat) (x : vec) (i : nat) :
  nth i (matvec W x) 0 = np.inner (nth i W []) x.
Proof.
  unfold matvec.
  change 0 with ((fun row => np.inner row x) []) at 1.
  apply map_nth.
Qed.

Lemma nth_affine (self : Layer.t) (x : vec) (i : nat) :
  length (Layer._b self) = length (Layer._W self) ->
  (i < length (Layer._W self))%nat ->
  nth i (affine self x) 0
  = np.inner (nth i (Layer._W self) []) x + nth i (Layer._b self) 0.
Proof.
  intros Hb Hi. unfold affine.
  rewrite nth_zip_with by (rewrite matvec_length; auto).
  now rewrite nth_matvec.
Qed.

Lemma initialised_shape (self : Layer.t) :
  Layer.initialised self ->
  length (Layer._W self) = Z.to_nat (Layer.outs self) /\
  length (Layer._b self) = Z.to_nat (Layer.outs self) /\
  Forall (fun row => length row = Z.to_nat (Layer.ins self)) (Layer._W self) /\
  (0 < Z.to_nat (Layer.outs self))%nat /\
  (0 < Z.to_nat (Layer.ins self))%nat.
Proof.
  intros (Hins & Houts & Hr & Hc & Hb). unfold nrows in Hr.
  repeat split; try lia.
  eapply Forall_impl; [|exact Hc]. simpl. intros row H. lia.
Qed.

Lemma row_length (self : Layer.t) (i : nat) :
  Layer.initialised self -> (i < Z.to_nat (Layer.outs self))%nat ->
  length (nth i (Layer._W self) []) = Z.to_nat (Layer.ins self).
Proof.
  intros Hi Hlt. destruct (initialised_shape self Hi) as (HW & _ & Hrows & _).
  rewrite Forall_forall in Hrows. apply Hrows, nth_In. lia.
Qed.

Lemma affine_tangent (self : Layer.t) (c : R -> vec) (x0 : R) (d : vec) :
  Layer.initialised self ->
  tangent (Z.to_nat (Layer.ins self)) c x0 d ->
  tangent (Z.to_nat (Layer.outs self)) (fun u => affine self (c u)) x0
    (matvec (Layer._W self) d).
Proof.
  intros Hi Ht. destruct (initialised_shape self Hi) as (HW & Hb & _).
  split; [|split].
  - intros u. pose proof (affine_length self (c u) Hi). lia.
  - now rewrite matvec_length.
  - intros i Hlt. rewrite nth_matvec.
    apply (derivable_pt_lim_ext
             (fun u => np.inner (nth i (Layer._W self) []) (c u)
                       + nth i (Layer._b self) 0)).
    + intros u. symmetry. apply nth_affine; lia.
    + eapply derivative_value.
      * apply (derivable_pt_lim_plus
                 (fun u => np.inner (nth i (Layer._W self) []) (c u))
                 (fct_cte (nth i (Layer._b self) 0))).
        -- apply (inner_tangent _ _ _ _ _ Ht). now apply row_length.
        -- apply derivable_pt_lim_const.
      * lra.
Qed.

Lemma f_tangent (a : ActivationFunction.t) (n : nat) (z : R -> vec)
  (x0 : R) (d : vec) :
  tangent n z x0 d ->
  Forall (differentiable_at a) (z x0) ->
  tangent n (fun u => ActivationFunction.f a (z u)) x0
    (zip_with Rmult (ActivationFunction.df a (z x0)) d).
Proof.
  intros (Hz & Hd & Hder) Hsmooth. split; [|split].
  - intros u. now rewrite f_length.
  - rewrite zip_with_length; rewrite df_length; auto. now rewrite Hz.
  - intros i Hi.
    rewrite nth_zip_with by (rewrite df_length, ?Hz; lia).
    rewrite df_pointwise, nth_map_entry by (rewrite Hz; lia).
    apply (derivable_pt_lim_ext
             (comp (f1 a) (fun u => nth i (z u) 0))).
    + intros u. unfold comp. rewrite f_pointwise.
      rewrite nth_map_entry by (rewrite Hz; lia). reflexivity.
    + eapply derivative_value.
      * apply derivable_pt_lim_comp; [now apply Hder|].
        apply df1_derivative. rewrite Forall_forall in Hsmooth.
        apply Hsmooth, nth_In. rewrite Hz. lia.
      * reflexivity.
Qed.

Lemma activation_tangent (self : Layer.t) (c : R -> vec) (x0 : R)
  (d : vec) :
  Layer.initialised self ->
  tangent (Z.to_nat (Layer.ins self)) c x0 d ->
  Forall (differentiable_at (Layer.act_function self))
    (affine self (c x0)) ->
  tangent (Z.to_nat (Layer.outs self)) (fun u => activation self (c u)) x0
    (zip_with Rmult
       (ActivationFunction.df (Layer.act_function self)
          (affine self (c x0)))
       (matvec (Layer._W self) d)).
Proof.
  intros Hi Ht Hsmooth. unfold activation.
  apply (f_tangent _ _ (fun u => affine self (c u))); [|assumption].
  now apply affine_tangent.
Qed.

(** ** The loss along a curve *)

Lemma MSELoss_loss_entries (y e : vec) :
  length e = length y ->
  MSELoss.loss y (TVec e)
  = Ok (np.sum (map (fun i => (nth i y 0 - nth i e 0) ^ 2)
                  (seq 0 (length y))) / INR (length y)).
Proof.
  intros Hlen. unfold MSELoss.loss, MSELoss.diff.
  rewrite broadcast_same by auto. cbn [rbind]. unfold np.mean.
  rewrite length_map, zip_with_length by auto.
  rewrite zip_with_entries, map_map by auto. reflexivity.
Qed.

Lemma MSELoss_dloss_entries (y e : vec) :
  length e = length y ->
  MSELoss.dloss y (TVec e)
  = Ok (map (fun i => 2 * (nth i y 0 - nth i e 0) / INR (length y))
          (seq 0 (length y))).
Proof.
  intros Hlen. unfold MSELoss.dloss, MSELoss.diff.
  rewrite broadcast_same by auto. cbn [rbind].
  rewrite zip_with_entries, map_map by auto. reflexivity.
Qed.

Lemma inner_map_seq (F : nat -> R) (d : vec) :
  np.inner (map F (seq 0 (length d))) d
  = np.sum (map (fun i => F i * nth i d 0) (seq 0 (length d))).
Proof.
  rewrite inner_entries by now rewrite length_map, length_seq.
  rewrite length_map, length_seq. apply sum_map_ext.
  intros i Hi. apply in_seq_lt in Hi. f_equal.
  rewrite (nth_indep _ 0 (F 0%nat)) by now rewrite length_map, length_seq.
  now rewrite map_nth, seq_nth.
Qed.

Lemma derivative_sq (h : R -> R) (e x0 l : R) :
  derivable_pt_lim h x0 l ->
  derivable_pt_lim (fun u => (h u - e) ^ 2) x0 (2 * (h x0 - e) * l).
Proof.
  intros Hh.
  assert (Hd : derivable_pt_lim (h - fct_cte e)%F x0 (l - 0)).
  { apply derivable_pt_lim_minus; [assumption|apply derivable_pt_lim_const]. }
  pose proof (derivable_pt_lim_mult _ _ x0 _ _ Hd Hd) as Hm.
  eapply derivative_value.
  - eapply derivable_pt_lim_ext; [|exact Hm].
    intros u. unfold mult_fct, minus_fct, fct_cte. ring.
  - unfold minus_fct, fct_cte. ring.
Qed.

Lemma MSELoss_tangent (n : nat) (y : R -> vec) (x0 : R) (d e g : vec) :
  tangent n y x0 d -> length e = n -> n <> 0%nat ->
  MSELoss.dloss (y x0) (TVec e) = Ok g ->
  derivable_pt_lim
    (fun u => match MSELoss.loss (y u) (TVec e) with
              | Ok l => l
              | Raise _ => 0
              end) x0 (np.inner g d).
Proof.
  intros (Hy & Hd & Hder) He Hn Hg.
  rewrite MSELoss_dloss_entries in Hg by now rewrite Hy.
  assert (Hgv : g = map (fun i => 2 * (nth i (y x0) 0 - nth i e 0)
                                  / INR (length (y x0)))
                      (seq 0 (length (y x0)))) by congruence.
  rewrite Hgv, Hy, <- Hd, inner_map_seq, Hd. clear Hg Hgv.
  assert (HnR : INR n <> 0) by now apply not_0_INR.
  apply (derivable_pt_lim_ext
           (fun u => / INR n
                     * np.sum (map (fun i => (nth i (y u) 0 - nth i e 0) ^ 2)
                                 (seq 0 n)))).
  - intros u. rewrite MSELoss_loss_entries by now rewrite Hy.
    rewrite Hy. unfold Rdiv. apply Rmult_comm.
  - eapply derivative_value.
    + apply (derivable_pt_lim_scal
               (fun u => np.sum (map (fun i => (nth i (y u) 0 - nth i e 0) ^ 2)
                                   (seq 0 n)))).
      apply (derivative_sum
               (fun i u => (nth i (y u) 0 - nth i e 0) ^ 2)
               (fun i => 2 * (nth i (y x0) 0 - nth i e 0) * nth i d 0)).
      intros i Hi. apply in_seq_lt in Hi.
      apply (derivative_sq (fun u => nth i (y u) 0)). now apply Hder.
    + rewrite <- sum_map_scal. apply sum_map_ext.
      intros i _. field. exact HnR.
Qed.

Lemma sum_exp_entries (y : vec) :
  np.sum (np.exp y)
  = np.sum (map (fun i => exp (nth i y 0)) (seq 0 (length y))).
Proof.
  unfold np.exp. rewrite (entries y) at 1. now rewrite map_map.
Qed.

Lemma inner_set_nth (k : nat) (a : R) (s d : vec) :
  length d = length s -> (k < length s)%nat ->
  np.inner (set_nth k a s) d
  = np.inner s d - nth k s 0 * nth k d 0 + a * nth k d 0.
Proof.
  intros Hlen Hk. unfold np.inner.
  rewrite zip_with_set_nth by assumption.
  rewrite sum_set_nth by (rewrite zip_with_length; auto).
  rewrite nth_zip_with by auto. reflexivity.
Qed.

Lemma CrossEntropyLoss_tangent (n : nat) (y : R -> vec) (x0 : R)
  (d g : vec) (t : Z) :
  tangent n y x0 d ->
  (- Z.of_nat n <= t < Z.of_nat n)%Z ->
  CrossEntropyLoss.dloss (y x0) (TInt t) = Ok g ->
  derivable_pt_lim
    (fun u => match CrossEntropyLoss.loss (y u) (TInt t) with
              | Ok l => l
              | Raise _ => 0
              end) x0 (np.inner g d).
Proof.
  intros (Hy & Hd & Hder) Ht Hg.
  assert (Ht0 : (- Z.of_nat (length (y x0)) <= t
                 < Z.of_nat (length (y x0)))%Z) by now rewrite Hy.
  destruct (dloss_closed_form _ _ Ht0) as (g' & Hg' & Hgv).
  assert (g = g') by congruence. subst g' g. clear Hg Hg'.
  destruct (py_index_valid _ _ Ht) as [_ Hk].
  set (k := Z.to_nat (t mod Z.of_nat n)) in *.
  assert (Hentry : forall u, entry (y u) t = k)
    by (intros u; unfold entry; now rewrite Hy).
  rewrite Hentry.
  pose proof (valid_index_nonempty _ _ Ht0) as Hne.
  pose proof (sum_exp_pos _ Hne) as Hs.
  rewrite inner_set_nth
    by (rewrite softmax_length, Hy; auto).
  apply (derivable_pt_lim_ext
           (fun u => - nth k (y u) 0
                     + comp ln (fun u => np.sum
                                  (map (fun i => exp (nth i (y u) 0))
                                     (seq 0 n))) u)).
  - intros u.
    assert (Htu : (- Z.of_nat (length (y u)) <= t
                   < Z.of_nat (length (y u)))%Z) by now rewrite Hy.
    rewrite (CrossEntropyLoss_loss_value _ _ Htu), Hentry.
    unfold comp. now rewrite sum_exp_entries, Hy.
  - rewrite sum_exp_entries, Hy in Hs.
    eapply derivative_value.
    + apply (derivable_pt_lim_plus (fun u => - nth k (y u) 0)).
      * apply (derivable_pt_lim_opp (fun u => nth k (y u) 0)).
        now apply Hder.
      * apply derivable_pt_lim_comp.
        -- apply (derivative_sum
                    (fun i u => exp (nth i (y u) 0))
                    (fun i => exp (nth i (y x0) 0) * nth i d 0)).
           intros i Hi. apply in_seq_lt in Hi.
           apply (derivable_pt_lim_comp (fun u => nth i (y u) 0) exp);
             [now apply Hder | apply derivable_pt_lim_exp].
        -- now apply derivable_pt_lim_ln.
    + unfold softmax.
      rewrite (inner_entries (map _ (y x0)) d)
        by (rewrite length_map, Hy; auto).
      rewrite length_map, Hy.
      fold (np.exp (y x0)). rewrite sum_exp_entries, Hy.
      set (S := np.sum (map (fun i => exp (nth i (y x0) 0)) (seq 0 n)))
        in *.
      rewrite (sum_map_ext
                 (fun i => nth i (map (fun x => exp x / S) (y x0)) 0
                           * nth i d 0)
                 (fun i => / S * (exp (nth i (y x0) 0) * nth i d 0))).
      * rewrite sum_map_scal. field. lra.
      * intros i Hi. apply in_seq_lt in Hi.
        rewrite nth_map_entry by (rewrite Hy; auto). field. lra.
Qed.

Lemma loss_tangent (lf : LossFunction.t) (n : nat) (y : R -> vec)
  (x0 : R) (d g : vec) (expected : target) :
  tangent n y x0 d ->
  admissible lf (y x0) expected ->
  LossFunction.dloss lf (y x0) expected = Ok g ->
  derivable_pt_lim (fun u => loss_of lf (y u) expected) x0 (np.inner g d).
Proof.
  intros Ht Hadm Hg. pose proof Ht as (Hy & _). unfold loss_of.
  destruct lf, expected as [e | t]; cbn [admissible] in Hadm;
    try contradiction; cbn [LossFunction.loss LossFunction.dloss] in *.
  - destruct Hadm as [He Hne].
    apply (MSELoss_tangent n); try assumption.
    + now rewrite He, Hy.
    + intros Hn. rewrite Hn in Hy. specialize (Hy x0).
      destruct (y x0); [congruence | discriminate].
  - apply (CrossEntropyLoss_tangent n); try assumption.
    now rewrite Hy in Hadm.
Qed.

(** ** The backward sweep *)

Lemma inner_cons (a b : R) (u v : vec) :
  np.inner (a :: u) (b :: v) = a * b + np.inner u v.
Proof. reflexivity. Qed.

Lemma transpose_adjoint (W : mat) (v d : vec) :
  Forall (fun row => length row = length d) W ->
  length v = length W ->
  np.sum (map (fun j => np.inner (map (fun row => nth j row 0) W) v
                        * nth j d 0) (seq 0 (length d)))
  = np.inner v (matvec W d).
Proof.
  intros HW; revert v; induction HW as [|row W Hrow HW IH];
    intros [|a v] Hv; try discriminate.
  - cbn [map matvec]. unfold np.inner at 2. cbn [zip_with np.sum fold_right].
    rewrite (sum_map_ext _ (fun j => 0 * nth j d 0)).
    + rewrite sum_map_scal. lra.
    + intros j _. reflexivity.
  - injection Hv as Hv. cbn [map matvec]. fold (matvec W d).
    rewrite inner_cons, <- (IH v Hv).
    rewrite (inner_entries row d Hrow), Hrow, <- sum_map_scal.
    rewrite <- sum_map_plus. apply sum_map_ext.
    intros j _. rewrite inner_cons. ring.
Qed.

Lemma inner_transpose (W : mat) (v d : vec) :
  Forall (fun row => length row = length d) W ->
  ncols W = length d ->
  length v = length W ->
  np.inner (matvec (np.T W) v) d = np.inner v (matvec W d).
Proof.
  intros HW Hc Hv. rewrite <- transpose_adjoint by assumption.
  unfold np.T, matvec. rewrite Hc, map_map. apply inner_map_seq.
Qed.

Lemma inner_hadamard (a b c : vec) :
  length a = length b -> length b = length c ->
  np.inner (zip_with Rmult a b) c = np.inner b (zip_with Rmult a c).
Proof.
  revert b c; induction a as [|x a IH]; intros [|y b] [|z c] Hab Hbc;
    try discriminate; [reflexivity|].
  injection Hab as Hab. injection Hbc as Hbc.
  cbn [zip_with]. rewrite !inner_cons, IH by assumption. ring.
Qed.

Lemma backprop_cons (rate : R) (g : vec) (layer : Layer.t)
  (rest : list Layer.t) (x : vec) :
  backprop rate g (layer :: rest) x
  = (fst (descend rate layer x
            (snd (backprop rate g rest (activation layer x))))
     :: fst (backprop rate g rest (activation layer x)),
     snd (descend rate layer x
            (snd (backprop rate g rest (activation layer x))))).
Proof.
  cbn [backprop].
  destruct (backprop rate g rest (activation layer x)) as [rest' dx].
  cbn [fst snd]. now destruct (descend rate layer x dx).
Qed.

Lemma of_nat_width (n : Z) : (0 < n)%Z -> Z.of_nat (Z.to_nat n) = n.
Proof. lia. Qed.

(** The derivative of the loss along a curve of inputs of a stack of
    layers is the product of the gradient that the backward sweep returns
    with the velocity of the curve. *)
Lemma backprop_tangent (lf : LossFunction.t) (rate : R) (expected : target)
  (layers : list Layer.t) (n : nat) (c : R -> vec) (x0 : R) (d g : vec) :
  tangent n c x0 d ->
  fits (Z.of_nat n) layers ->
  smooth layers (c x0) ->
  admissible lf (output layers (c x0)) expected ->
  LossFunction.dloss lf (output layers (c x0)) expected = Ok g ->
  derivable_pt_lim (fun u => loss_of lf (output layers (c u)) expected) x0
    (np.inner (snd (backprop rate g layers (c x0))) d).
Proof.
  revert n c d; induction layers as [|layer rest IH];
    intros n c d Ht Hfits Hsmooth Hadm Hg.
  - cbn [output backprop snd] in *. now apply (loss_tangent lf n).
  - destruct Hfits as (Hi & Hn & Hrest). destruct Hsmooth as [Hs Hsrest].
    pose proof Ht as (Hc & Hd & _).
    destruct (initialised_shape layer Hi) as (HW & Hb & Hrows & Hm & _).
    assert (Hn' : Z.to_nat (Layer.ins layer) = n) by lia.
    rewrite <- Hn' in Ht.
    pose proof (activation_tangent layer c x0 d Hi Ht Hs) as Ht2.
    cbn [output] in *.
    assert (Hrest' : fits (Z.of_nat (Z.to_nat (Layer.outs layer))) rest)
      by (rewrite of_nat_width; [assumption | apply Hi]).
    specialize (IH _ _ _ Ht2 Hrest' Hsrest Hadm Hg).
    eapply derivative_value; [exact IH|].
    rewrite backprop_cons. cbn [snd]. unfold descend. cbn [snd].
    set (dx := snd (backprop rate g rest (activation layer (c x0)))).
    set (df := ActivationFunction.df (Layer.act_function layer)
                 (affine layer (c x0))).
    assert (Hdx : length dx = Z.to_nat (Layer.outs layer)).
    { destruct (dloss_admissible _ _ _ Hadm) as (g' & Hg' & Hlen).
      assert (g' = g) by congruence. subst g'.
      assert (Hfa : fits (Z.of_nat (length (activation layer (c x0)))) rest)
        by (rewrite activation_length; assumption).
      destruct (backprop_shape rate g rest _ Hfa Hlen) as (_ & Hl & _).
      unfold dx. rewrite Hl.
      pose proof (activation_length layer (c x0) Hi). lia. }
    assert (Hdf : length df = Z.to_nat (Layer.outs layer)).
    { unfold df. rewrite df_length.
      pose proof (affine_length layer (c x0) Hi). lia. }
    rewrite inner_transpose.
    + cbv beta. fold dx df. symmetry.
      apply inner_hadamard; [congruence|].
      rewrite matvec_length. congruence.
    + eapply Forall_impl; [|exact Hrows]. simpl. intros row Hr. lia.
    + pose proof (initialised_ncols layer Hi). lia.
    + rewrite zip_with_length; congruence.
Qed.

(** ** One parameter of a layer *)

Lemma matvec_set_nth (r : nat) (row : vec) (W : mat) (x : vec) :
  matvec (set_nth r row W) x = set_nth r (np.inner row x) (matvec W x).
Proof.
  unfold matvec. revert r; induction W as [|w W IH]; intros [|r];
    cbn [set_nth map]; try reflexivity.
  now rewrite IH.
Qed.

Lemma set_nth_tangent (m r : nat) (h : R -> R) (z0 : vec) (x0 l : R) :
  length z0 = m -> derivable_pt_lim h x0 l ->
  tangent m (fun u => set_nth r (h u) z0) x0 (set_nth r l (repeat 0 m)).
Proof.
  intros Hz Hh. split; [|split].
  - intros u. now rewrite set_nth_length.
  - now rewrite set_nth_length, repeat_length.
  - intros i Hi. rewrite nth_set_nth by now rewrite repeat_length.
    apply (derivable_pt_lim_ext
             (fun u => if Nat.eqb i r then h u else nth i z0 0)).
    + intros u. now rewrite nth_set_nth by lia.
    + destruct (Nat.eqb i r); [assumption|].
      rewrite nth_repeat. apply derivable_pt_lim_const.
Qed.

Lemma inner_zeros (v : vec) (m : nat) : np.inner v (repeat 0 m) = 0.
Proof.
  revert m; induction v as [|a v IH]; intros [|m]; try reflexivity.
  cbn [repeat]. rewrite inner_cons, IH. lra.
Qed.

Lemma inner_unit (m r : nat) (a : R) (v : vec) :
  length v = m -> (r < m)%nat ->
  np.inner v (set_nth r a (repeat 0 m)) = nth r v 0 * a.
Proof.
  revert m r; induction v as [|b v IH]; intros [|m] [|r] Hv Hr;
    simpl in Hv; try lia; cbn [repeat set_nth nth]; rewrite inner_cons.
  - rewrite inner_zeros. lra.
  - rewrite (IH m r) by lia. lra.
Qed.

Lemma set_nth_nth (r : nat) (v : vec) :
  (r < length v)%nat -> set_nth r (nth r v 0) v = v.
Proof.
  intros Hr. apply set_nth_same. now apply nth_error_nth'.
Qed.

Lemma head_gradient (lf : LossFunction.t) (rate : R) (expected : target)
  (self : Layer.t) (rest : list Layer.t) (x g : vec) (r : nat) (p0 s : R)
  (L : R -> Layer.t) :
  fits (Z.of_nat (length x)) (self :: rest) ->
  smooth (self :: rest) x ->
  admissible lf (output (self :: rest) x) expected ->
  LossFunction.dloss lf (output (self :: rest) x) expected = Ok g ->
  (r < Z.to_nat (Layer.outs self))%nat ->
  perturbs self x r p0 s L ->
  derivable_pt_lim
    (fun u => loss_of lf (output (L u :: rest) x) expected) p0
    (nth r (zip_with Rmult
              (ActivationFunction.df (Layer.act_function self)
                 (affine self x))
              (snd (backprop rate g rest (activation self x)))) 0 * s).
Proof.
  intros (Hi & Hn & Hrest) [Hs Hsrest] Hadm Hg Hr HL.
  cbn [output] in *.
  pose proof (affine_length self x Hi) as Hz.
  assert (Hzn : length (affine self x) = Z.to_nat (Layer.outs self)) by lia.
  set (z := fun u => set_nth r (nth r (affine self x) 0 + (u - p0) * s)
                       (affine self x)).
  assert (Hz0 : z p0 = affine self x).
  { unfold z. replace (nth r (affine self x) 0 + (p0 - p0) * s)
      with (nth r (affine self x) 0) by lra.
    apply set_nth_nth. lia. }
  assert (Htz : tangent (Z.to_nat (Layer.outs self)) z p0
                  (set_nth r s (repeat 0 (Z.to_nat (Layer.outs self))))).
  { apply (set_nth_tangent _ r
             (fun u => nth r (affine self x) 0 + (u - p0) * s));
      [assumption|].
    eapply derivative_value.
    - apply (derivable_pt_lim_plus (fct_cte (nth r (affine self x) 0))
               (fun u => (u - p0) * s)).
      + apply derivable_pt_lim_const.
      + apply (derivable_pt_lim_scal_right (id - fct_cte p0)%F p0 (1 - 0)).
        apply derivable_pt_lim_minus;
          [apply derivable_pt_lim_id | apply derivable_pt_lim_const].
    - lra. }
  pose proof (f_tangent (Layer.act_function self) _ z p0 _ Htz) as Hta.
  rewrite Hz0 in Hta. specialize (Hta Hs).
  fold (activation self x) in Hta.
  assert (Hcurve : forall u,
             activation (L u) x
             = ActivationFunction.f (Layer.act_function self) (z u)).
  { intros u. destruct (HL u) as (_ & _ & _ & Ha & Hz'). unfold activation.
    now rewrite Ha, Hz'. }
  set (c := fun u => ActivationFunction.f (Layer.act_function self) (z u))
    in *.
  assert (Hc0 : c p0 = activation self x)
    by (unfold c; now rewrite Hz0).
  assert (Hrest' : fits (Z.of_nat (Z.to_nat (Layer.outs self))) rest)
    by (rewrite of_nat_width; [assumption | apply Hi]).
  rewrite <- Hc0 in Hsrest, Hadm, Hg.
  pose proof (backprop_tangent lf rate expected rest _ c p0 _ g
                Hta Hrest' Hsrest Hadm Hg) as Hder.
  rewrite Hc0 in Hder, Hg, Hadm.
  eapply derivative_value.
  - eapply derivable_pt_lim_ext; [|exact Hder].
    intros u. cbn [output]. now rewrite Hcurve.
  - set (dx := snd (backprop rate g rest (activation self x))).
    set (df := ActivationFunction.df (Layer.act_function self)
                 (affine self x)).
    assert (Hdx : length dx = Z.to_nat (Layer.outs self)).
    { destruct (dloss_admissible _ _ _ Hadm) as (g' & Hg' & Hlen).
      assert (g' = g) by congruence. subst g'.
      assert (Hfa : fits (Z.of_nat (length (activation self x))) rest)
        by (rewrite activation_length; assumption).
      destruct (backprop_shape rate g rest _ Hfa Hlen) as (_ & Hl & _).
      unfold dx. rewrite Hl.
      pose proof (activation_length self x Hi). lia. }
    assert (Hdf : length df = Z.to_nat (Layer.outs self))
      by (unfold df; now rewrite df_length).
    rewrite <- inner_hadamard
      by (rewrite ?set_nth_length, ?repeat_length; congruence).
    apply inner_unit; [|assumption].
    rewrite zip_with_length; congruence.
Qed.

Lemma Forall_set_nth {A : Type} (P : A -> Prop) (k : nat) (a : A)
  (l : list A) :
  Forall P l -> P a -> Forall P (set_nth k a l).
Proof.
  intros Hl Ha; revert k; induction Hl as [|b l Hb Hl IH]; intros [|k];
    cbn [set_nth]; constructor; auto.
Qed.

Lemma set_weight_initialised (r c : nat) (u : R) (self : Layer.t) :
  Layer.initialised self ->
  (r < length (Layer._W self))%nat ->
  Layer.initialised (set_weight r c u self).
Proof.
  intros (Hins & Houts & Hr & Hc & Hb) Hlt.
  unfold Layer.initialised, nrows in *.
  unfold set_weight. cbn [Layer.set_W Layer.ins Layer.outs Layer._W Layer._b].
  rewrite set_nth_length. repeat split; try assumption.
  apply Forall_set_nth; [assumption|].
  rewrite set_nth_length. rewrite Forall_forall in Hc.
  now apply Hc, nth_In.
Qed.

Lemma set_weight_perturbs (self : Layer.t) (x : vec) (r c : nat) :
  Layer.initialised self ->
  Z.of_nat (length x) = Layer.ins self ->
  (r < Z.to_nat (Layer.outs self))%nat ->
  (c < Z.to_nat (Layer.ins self))%nat ->
  perturbs self x r (weight r c self) (nth c x 0)
    (fun u => set_weight r c u self).
Proof.
  intros Hi Hx Hr Hc u.
  destruct (initialised_shape self Hi) as (HW & Hb & Hrows & _).
  pose proof (row_length self r Hi Hr) as Hrow.
  split; [apply set_weight_initialised; [assumption | lia]|].
  repeat split.
  unfold affine, set_weight.
  cbn [Layer.set_W Layer._W Layer._b].
  rewrite matvec_set_nth.
  rewrite zip_with_set_nth by (rewrite matvec_length; lia).
  f_equal.
  rewrite nth_zip_with by (rewrite matvec_length; lia).
  rewrite nth_matvec.
  rewrite inner_set_nth by lia.
  unfold weight. ring.
Qed.

Lemma zip_with_set_nth_r (op : R -> R -> R) (i : nat) (u : R)
  (v e : vec) :
  length e = length v -> (i < length v)%nat ->
  zip_with op v (set_nth i u e)
  = set_nth i (op (nth i v 0) u) (zip_with op v e).
Proof.
  revert i e; induction v as [|a v IH]; intros [|i] [|b e] Hlen Hi;
    simpl in *; try discriminate; try lia; [reflexivity|].
  f_equal. apply IH; lia.
Qed.

Lemma set_bias_perturbs (self : Layer.t) (x : vec) (r : nat) :
  Layer.initialised self ->
  (r < Z.to_nat (Layer.outs self))%nat ->
  perturbs self x r (bias r self) 1 (fun u => set_bias r u self).
Proof.
  intros Hi Hr u.
  destruct (initialised_shape self Hi) as (HW & Hb & Hrows & _).
  split.
  { destruct Hi as (Hins & Houts & Hrw & Hc & Hbl).
    unfold Layer.initialised, set_bias.
    cbn [Layer.set_b Layer.ins Layer.outs Layer._W Layer._b].
    rewrite set_nth_length. repeat split; assumption. }
  repeat split.
  unfold affine, set_bias.
  cbn [Layer.set_b Layer._W Layer._b].
  rewrite zip_with_set_nth_r by (rewrite matvec_length; lia).
  f_equal.
  rewrite nth_zip_with by (rewrite matvec_length; lia).
  unfold bias. ring.
Qed.

(** The parameters after the update of a layer. *)
Lemma nth_row {A : Type} (h : A -> list R) (l : list A) (i : nat)
  (d : A) :
  (i < length l)%nat -> nth i (map h l) [] = h (nth i l d).
Proof.
  intros Hi. rewrite (nth_indep _ [] (h d)) by now rewrite length_map.
  apply map_nth.
Qed.

Lemma descend_weight (rate : R) (self : Layer.t) (x dx : vec) (r c : nat) :
  Layer.initialised self ->
  Z.of_nat (length x) = Layer.ins self ->
  Z.of_nat (length dx) = Layer.outs self ->
  (r < Z.to_nat (Layer.outs self))%nat ->
  (c < Z.to_nat (Layer.ins self))%nat ->
  weight r c (fst (descend rate self x dx))
  = weight r c self
    - rate * (nth r (zip_with Rmult
                       (ActivationFunction.df (Layer.act_function self)
                          (affine self x)) dx) 0
              * nth c x 0).
Proof.
  intros Hi Hx Hdx Hr Hc.
  destruct (initialised_shape self Hi) as (HW & Hb & Hrows & _).
  pose proof (row_length self r Hi Hr) as Hrow.
  pose proof (affine_length self x Hi) as Hz.
  unfold descend, weight. cbn [fst Layer._W].
  set (db := zip_with Rmult _ dx).
  assert (Hdb : length db = Z.to_nat (Layer.outs self)).
  { unfold db. rewrite zip_with_length; rewrite df_length; lia. }
  unfold msub, vec.
  rewrite (nth_row _ _ _ ([], [])) by
    (rewrite length_combine; unfold scale_mat, np.dot_T;
     rewrite !length_map; lia).
  rewrite combine_nth
    by (unfold scale_mat, np.dot_T; rewrite !length_map; lia).
  cbn [fst snd].
  unfold scale_mat, np.dot_T. rewrite map_map.
  rewrite (nth_row _ _ _ 0) by lia.
  unfold scale. rewrite map_map.
  rewrite nth_zip_with by (rewrite ?length_map; lia).
  rewrite nth_map_entry by lia.
  reflexivity.
Qed.

Lemma descend_bias (rate : R) (self : Layer.t) (x dx : vec) (r : nat) :
  Layer.initialised self ->
  Z.of_nat (length dx) = Layer.outs self ->
  (r < Z.to_nat (Layer.outs self))%nat ->
  bias r (fst (descend rate self x dx))
  = bias r self
    - rate * (nth r (zip_with Rmult
                       (ActivationFunction.df (Layer.act_function self)
                          (affine self x)) dx) 0
              * 1).
Proof.
  intros Hi Hdx Hr.
  destruct (initialised_shape self Hi) as (HW & Hb & Hrows & _).
  pose proof (affine_length self x Hi) as Hz.
  unfold descend, bias. cbn [fst Layer._b].
  set (db := zip_with Rmult _ dx).
  assert (Hdb : length db = Z.to_nat (Layer.outs self)).
  { unfold db. rewrite zip_with_length; rewrite df_length; lia. }
  unfold scale.
  rewrite nth_zip_with by (rewrite ?length_map; lia).
  rewrite nth_map_entry by lia.
  lra.
Qed.

(** ** Any layer of the network *)

Lemma output_app (pre suf : list Layer.t) (x : vec) :
  output (pre ++ suf) x = output suf (output pre x).
Proof.
  revert x; induction pre as [|p pre IH]; intros x; simpl; auto.
Qed.

Lemma fits_suffix (pre suf : list Layer.t) (x : vec) :
  fits (Z.of_nat (length x)) (pre ++ suf) ->
  fits (Z.of_nat (length (output pre x))) suf.
Proof.
  revert x; induction pre as [|p pre IH]; intros x; simpl; [auto|].
  intros (Hi & Hn & Hrest). apply IH. now rewrite activation_length.
Qed.

Lemma fits_replace (pre rest : list Layer.t) (self other : Layer.t)
  (n : Z) :
  fits n (pre ++ self :: rest) ->
  Layer.initialised other ->
  Layer.ins other = Layer.ins self ->
  Layer.outs other = Layer.outs self ->
  fits n (pre ++ other :: rest).
Proof.
  intros Hfits Hi Hins Houts.
  revert n Hfits; induction pre as [|p pre IH]; intros n; simpl.
  - intros (_ & Hn & Hrest). repeat split; try apply Hi; congruence.
  - intros (Hp & Hn & Hrest). repeat split; try apply Hp; auto.
Qed.

Lemma smooth_suffix (pre suf : list Layer.t) (x : vec) :
  smooth (pre ++ suf) x -> smooth suf (output pre x).
Proof.
  revert x; induction pre as [|p pre IH]; intros x; simpl; [auto|].
  intros [_ Hrest]. now apply IH.
Qed.

Lemma backprop_length (rate : R) (g : vec) (layers : list Layer.t)
  (x : vec) :
  length (fst (backprop rate g layers x)) = length layers.
Proof.
  revert x; induction layers as [|l rest IH]; intros x; [reflexivity|].
  rewrite backprop_cons. cbn [fst length]. now rewrite IH.
Qed.

Lemma backprop_app (rate : R) (g : vec) (pre suf : list Layer.t)
  (x : vec) :
  fst (backprop rate g (pre ++ suf) x)
  = fst (backprop rate (snd (backprop rate g suf (output pre x))) pre x)
    ++ fst (backprop rate g suf (output pre x)) /\
  snd (backprop rate g (pre ++ suf) x)
  = snd (backprop rate (snd (backprop rate g suf (output pre x))) pre x).
Proof.
  revert x; induction pre as [|p pre IH]; intros x.
  - split; reflexivity.
  - cbn [app]. rewrite !backprop_cons. cbn [fst snd output].
    destruct (IH (activation p x)) as [IH1 IH2].
    rewrite IH1, IH2. split; reflexivity.
Qed.

Lemma nth_error_middle {A : Type} (pre post : list A) (a : A) :
  nth_error (pre ++ a :: post) (length pre) = Some a.
Proof.
  rewrite nth_error_app2, Nat.sub_diag by lia. reflexivity.
Qed.

Lemma loss_at_fits (net : NeuralNetwork.t) (x : vec) (expected : target) :
  fits (Z.of_nat (length x)) (NeuralNetwork._layers net) ->
  loss_at net x expected
  = loss_of (NeuralNetwork._loss_function net)
      (output (NeuralNetwork._layers net) x) expected.
Proof.
  intros Hfits. unfold loss_at, loss_of.
  now rewrite measured_loss_fits.
Qed.

(** The loss measured by the network as a function of one parameter of
    its [k]-th layer. *)
Lemma layer_gradient (net : NeuralNetwork.t) (x g : vec)
  (expected : target) (pre rest : list Layer.t) (self : Layer.t)
  (r : nat) (p0 s : R) (L : R -> Layer.t) :
  NeuralNetwork._layers net = pre ++ self :: rest ->
  fits (Z.of_nat (length x)) (NeuralNetwork._layers net) ->
  smooth (NeuralNetwork._layers net) x ->
  admissible (NeuralNetwork._loss_function net)
    (output (NeuralNetwork._layers net) x) expected ->
  LossFunction.dloss (NeuralNetwork._loss_function net)
    (output (NeuralNetwork._layers net) x) expected = Ok g ->
  (r < Z.to_nat (Layer.outs self))%nat ->
  perturbs self (output pre x) r p0 s L ->
  derivable_pt_lim
    (fun u => loss_at (update_layer (length pre) (fun _ => L u) net)
                x expected) p0
    (nth r (zip_with Rmult
              (ActivationFunction.df (Layer.act_function self)
                 (affine self (output pre x)))
              (snd (backprop (NeuralNetwork.lr net) g rest
                      (activation self (output pre x))))) 0 * s).
Proof.
  intros Hsplit Hfits Hsmooth Hadm Hg Hr HL.
  rewrite Hsplit in Hfits, Hsmooth, Hadm, Hg.
  rewrite output_app in Hadm, Hg.
  eapply derivable_pt_lim_ext;
    [| apply (head_gradient (NeuralNetwork._loss_function net)
                (NeuralNetwork.lr net) expected self rest
                (output pre x) g r p0 s L);
       [now apply fits_suffix | now apply smooth_suffix
        | exact Hadm | exact Hg | exact Hr | exact HL]].
  intros u. destruct (HL u) as (Hi & Hins & Houts & _).
  unfold update_layer. rewrite Hsplit, nth_error_middle, set_nth_middle.
  rewrite loss_at_fits.
  - cbn [NeuralNetwork.set_layers NeuralNetwork._layers
         NeuralNetwork._loss_function].
    now rewrite output_app.
  - cbn [NeuralNetwork.set_layers NeuralNetwork._layers].
    now apply (fits_replace pre rest self).
Qed.

(** X16: [train] is a step of gradient descent on the loss that the
    network measures on the example, where [df] is the derivative of [f].
    On a network of initialised, compatible layers in which every [ELU]
    has [alpha >= 0], every [LeakyReLU] has [0 <= alpha <= 1] and no
    pre-activation of an [ELU] or [LeakyReLU] layer is 0 when the network
    is fed with [x], for an input [x] of the first layer's width and an
    admissible target, [train(x, t)] returns normally, and for every
    layer, every weight [W[r, c]] and every bias [b[r]] of it, the value
    after the call is the value before minus the learning rate times the
    partial derivative of [loss(forward_pass(x), t)] with respect to that
    parameter, taken at the parameters before the call. *)
Theorem train_descends_the_gradient (net : NeuralNetwork.t) (x : vec)
  (expected : target) (k : nat) (self : Layer.t) :
  well_formed net -> accepts net x ->
  admissible (NeuralNetwork._loss_function net)
    (output (NeuralNetwork._layers net) x) expected ->
  smooth (NeuralNetwork._layers net) x ->
  nth_error (NeuralNetwork._layers net) k = Some self ->
  exists net' self' (dW : nat -> nat -> R) (db : nat -> R),
    NeuralNetwork.train x expected net = (net', Ok tt) /\
    nth_error (NeuralNetwork._layers net') k = Some self' /\
    (forall r c,
        (Z.of_nat r < Layer.outs self)%Z ->
        (Z.of_nat c < Layer.ins self)%Z ->
        derivable_pt_lim
          (fun u => loss_at (update_layer k (set_weight r c u) net)
                      x expected)
          (weight r c self) (dW r c) /\
        weight r c self'
        = weight r c self - NeuralNetwork.lr net * dW r c) /\
    (forall r,
        (Z.of_nat r < Layer.outs self)%Z ->
        derivable_pt_lim
          (fun u => loss_at (update_layer k (set_bias r u) net) x expected)
          (bias r self) (db r) /\
        bias r self' = bias r self - NeuralNetwork.lr net * db r).
Proof.
  intros [Hall Hadj] Hacc Hadm Hsmooth Hk.
  pose proof (fits_of_compatible _ _ Hall Hadj Hacc) as Hfits.
  destruct (dloss_admissible _ _ _ Hadm) as (g & Hg & Hlen).
  destruct (nth_error_split _ _ Hk) as (pre & rest & Hsplit & Hpre).
  subst k.
  pose proof Hfits as Hsuf. rewrite Hsplit in Hsuf.
  apply fits_suffix in Hsuf. destruct Hsuf as (Hi & Hn & Hrest).
  set (xk := output pre x) in *.
  set (dx := snd (backprop (NeuralNetwork.lr net) g rest
                    (activation self xk))).
  set (grad := zip_with Rmult
                 (ActivationFunction.df (Layer.act_function self)
                    (affine self xk)) dx).
  assert (Hdx : Z.of_nat (length dx) = Layer.outs self).
  { assert (Hfa : fits (Z.of_nat (length (activation self xk))) rest)
      by (rewrite activation_length; assumption).
    rewrite Hsplit, output_app in Hlen. cbn [output] in Hlen.
    destruct (backprop_shape (NeuralNetwork.lr net) g rest _ Hfa Hlen)
      as (_ & Hl & _).
    unfold dx. rewrite Hl. now apply activation_length. }
  exists (NeuralNetwork.mk
            (fst (backprop (NeuralNetwork.lr net) g
                    (NeuralNetwork._layers net) x))
            (NeuralNetwork._loss_function net) (NeuralNetwork.lr net)),
    (fst (descend (NeuralNetwork.lr net) self xk dx)),
    (fun r c => nth r grad 0 * nth c xk 0),
    (fun r => nth r grad 0 * 1).
  split; [now apply train_fits|]. split.
  { cbn [NeuralNetwork._layers]. rewrite Hsplit.
    destruct (backprop_app (NeuralNetwork.lr net) g pre (self :: rest) x)
      as [-> _].
    rewrite backprop_cons. cbn [fst].
    rewrite <- (backprop_length (NeuralNetwork.lr net)
                  (snd (descend (NeuralNetwork.lr net) self (output pre x)
                          (snd (backprop (NeuralNetwork.lr net) g rest
                                  (activation self (output pre x))))))
                  pre x) at 1.
    apply nth_error_middle. }
  split.
  - intros r c Hr Hc. split.
    + apply (derivable_pt_lim_ext
               (fun u => loss_at
                           (update_layer (length pre)
                              (fun _ => set_weight r c u self) net)
                           x expected)).
      * intros u. unfold update_layer.
        now rewrite Hsplit, nth_error_middle.
      * apply (layer_gradient net x g expected pre rest self r
                 (weight r c self) (nth c xk 0)
                 (fun u => set_weight r c u self));
          try assumption; [lia|].
        apply set_weight_perturbs; try assumption; try lia.
    + apply descend_weight; try assumption; lia.
  - intros r Hr. split.
    + apply (derivable_pt_lim_ext
               (fun u => loss_at
                           (update_layer (length pre)
                              (fun _ => set_bias r u self) net)
                           x expected)).
      * intros u. unfold update_layer.
        now rewrite Hsplit, nth_error_middle.
      * apply (layer_gradient net x g expected pre rest self r
                 (bias r self) 1 (fun u => set_bias r u self));
          try assumption; [lia|].
        apply set_bias_perturbs; try assumption; lia.
    + apply descend_bias; try assumption; lia.
Qed.

Lemma train_descends_the_gradient_witness :
  exists net' self' (dW : nat -> nat -> R) (db : nat -> R),
    NeuralNetwork.train [1; 2] (TVec [5]) two_layers = (net', Ok tt) /\
    nth_error (NeuralNetwork._layers net') 1 = Some self' /\
    (forall r c,
        (Z.of_nat r < 1)%Z -> (Z.of_nat c < 2)%Z ->
        derivable_pt_lim
          (fun u => loss_at (update_layer 1 (set_weight r c u) two_layers)
                      [1; 2] (TVec [5]))
          (weight r c (Layer.mk 2 1 ActivationFunction.Id [[1; 1]] [0]))
          (dW r c) /\
        weight r c self'
        = weight r c (Layer.mk 2 1 ActivationFunction.Id [[1; 1]] [0])
          - 1 / 10 * dW r c) /\
    (forall r,
        (Z.of_nat r < 1)%Z ->
        derivable_pt_lim
          (fun u => loss_at (update_layer 1 (set_bias r u) two_layers)
                      [1; 2] (TVec [5]))
          (bias r (Layer.mk 2 1 ActivationFunction.Id [[1; 1]] [0]))
          (db r) /\
        bias r self'
        = bias r (Layer.mk 2 1 ActivationFunction.Id [[1; 1]] [0])
          - 1 / 10 * db r).
Proof.
  apply (train_descends_the_gradient two_layers [1; 2] (TVec [5]) 1
           (Layer.mk 2 1 ActivationFunction.Id [[1; 1]] [0])).
  - exact two_layers_well_formed.
  - exact two_layers_accepts.
  - simpl. split; [reflexivity | discriminate].
  - simpl. repeat constructor.
  - reflexivity.
Defined.

(** ** The derivative that [ELU.df] misses *)

(** C6: the code is at fault where the scale is negative. With
    [alpha = -1] and [x = -1], [df] returns 0; what the claim says it is,
    [alpha * e^x], is there the derivative of the [f] of the code itself,
    and it is not 0. *)
Theorem ELU_df_misses_the_derivative :
  ELU.df (ELU.__init__ (-1)) [-1] = [0] /\
  ELU_df_spec (-1) [-1] = [-1 * exp (-1)] /\
  derivable_pt_lim
    (fun u => nth 0 (ELU.f (ELU.__init__ (-1)) [u]) 0) (-1)
    (-1 * exp (-1)) /\
  -1 * exp (-1) <> 0.
Proof.
  pose proof (exp_pos (-1)) as He.
  split; [|split; [|split]].
  - unfold ELU.df, Rgeb, Rltb. cbn [map ELU.alpha].
    destruct (Rle_dec 0 (-1)) as [H | _]; [lra|].
    destruct (Rlt_dec (-1) 0) as [_ | H]; [|lra].
    cbn [of_bool]. rewrite Rmax_left by lra. reflexivity.
  - unfold ELU_df_spec. cbn [map].
    destruct (Rle_dec 0 (-1)) as [H | _]; [lra | reflexivity].
  - apply (derivable_pt_lim_locally_ext
             (fun u => -1 * (exp u - 1)) _ (-1) (-2) 0);
      [lra | | apply derivative_elu_left].
    intros z Hz. unfold ELU.f, Rgtb. cbn [map zip_with nth ELU.alpha].
    destruct (Rlt_dec 0 z); [lra | reflexivity].
  - lra.
Qed.

(** ** A last layer that is inactive *)














